(** * CONTROL-QR-PERSONAL: the map core (js/mapa.js), the patrol panel
    (js/personal.js) and the alert panel (js/alertas.js).

    A shallow embedding of the functions that decide sector assignment,
    sector counting, coordinate and timestamp normalisation, record
    filtering and subscriber notification, with the properties proved
    about them.

    Conventions of the embedding.
    - A JavaScript number is a [num]: NaN, the two infinities, or a finite
      value carried as an exact rational.  Rounding of IEEE doubles and the
      sign of zero are not represented.
    - A JavaScript [Map] or [Set] is an association list (resp. a list) in
      insertion order, as iteration order is observable in the program.
    - A function that can raise returns a [completion].
    - Browser and library built-ins the program calls (Leaflet's polygon
      layer, [Date] parsing, Unicode normalisation) are either written out
      from their documented behaviour or taken as section variables. *)

From Stdlib Require Import ZArith QArith Qabs Qround List String Ascii Bool Lia Lqa.
From Stdlib Require Import DecimalString DecimalZ Sorting.Sorted Permutation.
Import ListNotations.

#[local] Set Warnings "-register-all".

Local Open Scope string_scope.
Local Open Scope list_scope.
Local Open Scope Z_scope.

(* ================================================================== *)
(** ** JavaScript numbers *)
(* ================================================================== *)

Module Js.

Inductive num : Type :=
  | NaN
  | NInf
  | Fin (q : Q)
  | PInf.

Definition Qlt_bool (a b : Q) : bool := negb (Qle_bool b a).

(** [a < b], [a > b], [a <= b], [a >= b]: false as soon as a NaN is involved. *)
Definition num_lt (a b : num) : bool :=
  match a, b with
  | NaN, _ | _, NaN => false
  | NInf, NInf => false
  | NInf, _ => true
  | _, NInf => false
  | PInf, _ => false
  | Fin _, PInf => true
  | Fin x, Fin y => Qlt_bool x y
  end.

Definition num_gt (a b : num) : bool := num_lt b a.

Definition num_le (a b : num) : bool :=
  match a, b with
  | NaN, _ | _, NaN => false
  | NInf, _ => true
  | _, PInf => true
  | PInf, _ => false
  | Fin _, NInf => false
  | Fin x, Fin y => Qle_bool x y
  end.

Definition num_ge (a b : num) : bool := num_le b a.

(** [a === b] on numbers ([NaN] differs from itself). *)
Definition num_eq (a b : num) : bool :=
  match a, b with
  | NInf, NInf | PInf, PInf => true
  | Fin x, Fin y => Qeq_bool x y
  | _, _ => false
  end.

Definition num_neq (a b : num) : bool := negb (num_eq a b).

Definition Number_isNaN (a : num) : bool :=
  match a with NaN => true | _ => false end.

Definition Number_isFinite (a : num) : bool :=
  match a with Fin _ => true | _ => false end.

Definition num_neg (a : num) : num :=
  match a with
  | NaN => NaN
  | NInf => PInf
  | PInf => NInf
  | Fin x => Fin (- x)
  end.

Definition num_add (a b : num) : num :=
  match a, b with
  | NaN, _ | _, NaN => NaN
  | PInf, NInf | NInf, PInf => NaN
  | PInf, _ | _, PInf => PInf
  | NInf, _ | _, NInf => NInf
  | Fin x, Fin y => Fin (x + y)
  end.

Definition num_sub (a b : num) : num := num_add a (num_neg b).

(** Sign of a number as a comparison with zero; [None] for NaN. *)
Definition num_sign (a : num) : option comparison :=
  match a with
  | NaN => None
  | NInf => Some Lt
  | PInf => Some Gt
  | Fin x => Some (x ?= 0)%Q
  end.

Definition signed_inf (c : comparison) : num :=
  match c with Lt => NInf | Gt => PInf | Eq => NaN end.

Definition comparison_mul (c d : comparison) : comparison :=
  match c, d with
  | Eq, _ | _, Eq => Eq
  | Lt, Lt | Gt, Gt => Gt
  | _, _ => Lt
  end.

Definition num_mul (a b : num) : num :=
  match a, b with
  | Fin x, Fin y => Fin (x * y)
  | _, _ =>
      match num_sign a, num_sign b with
      | Some c, Some d => signed_inf (comparison_mul c d)
      | _, _ => NaN
      end
  end.

(** Division.  A finite value over zero is an infinity of the sign of the
    numerator (zero is taken as positive), zero over zero is NaN. *)
Definition num_div (a b : num) : num :=
  match a, b with
  | NaN, _ | _, NaN => NaN
  | (PInf | NInf), (PInf | NInf) => NaN
  | Fin _, (PInf | NInf) => Fin 0
  | (PInf | NInf), Fin y =>
      match num_sign a, (y ?= 0)%Q with
      | Some c, Lt => signed_inf (comparison_mul c Lt)
      | Some c, _ => signed_inf c
      | None, _ => NaN
      end
  | Fin x, Fin y =>
      if Qeq_bool y 0 then signed_inf (x ?= 0)%Q else Fin (x / y)
  end.

Definition Math_abs (a : num) : num :=
  match a with
  | NaN => NaN
  | NInf | PInf => PInf
  | Fin x => Fin (Qabs x)
  end.

(** [Math.min] and [Math.max] of two numbers. *)
Definition Math_min (a b : num) : num :=
  match a, b with
  | NaN, _ | _, NaN => NaN
  | _, _ => if num_le a b then a else b
  end.

Definition Math_max (a b : num) : num :=
  match a, b with
  | NaN, _ | _, NaN => NaN
  | _, _ => if num_le a b then b else a
  end.

Definition num_of_Z (z : Z) : num := Fin (inject_Z z).

(** Truncation toward zero of a rational. *)
Definition Qtrunc (q : Q) : Z := Z.quot (Qnum q) (Zpos (Qden q)).

(** Decimal rendering of a number.  The program only renders integers
    (sector numbers, identity documents); the fractional digits of a
    non-integer are outside the embedding, which renders its integer part. *)
Definition Number_toString (a : num) : string :=
  match a with
  | NaN => "NaN"
  | PInf => "Infinity"
  | NInf => "-Infinity"
  | Fin q => NilZero.string_of_int (Z.to_int (Qtrunc q))
  end.

(* ------------------------------------------------------------------ *)
(** *** Strings *)

Definition is_digit (c : ascii) : bool :=
  let n := nat_of_ascii c in (Nat.leb 48 n && Nat.leb n 57)%bool.

Definition digit_val (c : ascii) : Z := Z.of_nat (nat_of_ascii c) - 48.

(** White space and line terminators (the one-byte ones: TAB, LF, VT, FF,
    CR, SP). *)
Definition is_ws (c : ascii) : bool :=
  let n := nat_of_ascii c in
  (Nat.eqb n 32 || (Nat.leb 9 n && Nat.leb n 13))%bool.

Fixpoint skip_ws (s : string) : string :=
  match s with
  | String c r => if is_ws c then skip_ws r else s
  | EmptyString => EmptyString
  end.

Definition string_rev (s : string) : string :=
  string_of_list_ascii (rev (list_ascii_of_string s)).

(** [s.trim()] *)
Definition trim (s : string) : string :=
  string_rev (skip_ws (string_rev (skip_ws s))).

(** [s.replace(a, b)] with a one-character string pattern: the first
    occurrence only. *)
Fixpoint replace_first (a b : ascii) (s : string) : string :=
  match s with
  | String c r => if Ascii.eqb c a then String b r else String c (replace_first a b r)
  | EmptyString => EmptyString
  end.

(** [s.includes(t)] *)
Fixpoint includes (s t : string) : bool :=
  (prefix t s ||
   match s with
   | String _ r => includes r t
   | EmptyString => false
   end)%bool.

(** Reads a run of decimal digits: the accumulated value (starting from
    [acc]), the number of digits read and the rest of the string. *)
Fixpoint read_digits (s : string) (acc : Z) (n : Z) : Z * Z * string :=
  match s with
  | String c r =>
      if is_digit c then read_digits r (10 * acc + digit_val c) (n + 1)
      else (acc, n, s)
  | EmptyString => (acc, n, s)
  end.

(** [m * 10^e] as a rational. *)
Definition Qscale10 (m e : Z) : Q :=
  if 0 <=? e then inject_Z (m * 10 ^ e)
  else Qmake m (Z.to_pos (10 ^ (- e))).

(** The optional exponent part [e|E] [+|-]? digits of a decimal literal:
    its value and the rest, or exponent 0 and the string untouched when no
    well-formed exponent starts here. *)
Definition read_exponent (s : string) : Z * string :=
  match s with
  | String c r =>
      if (Ascii.eqb c "e" || Ascii.eqb c "E")%bool then
        let '(sg, r') :=
          match r with
          | String "+" r1 => (1, r1)
          | String "-" r1 => (-1, r1)
          | _ => (1, r)
          end in
        let '(v, n, rest) := read_digits r' 0 0 in
        if 0 <? n then (sg * v, rest) else (0, s)
      else (0, s)
  | EmptyString => (0, s)
  end.

(** The longest prefix of [s] that is a [StrUnsignedDecimalLiteral]
    (Infinity, digits with optional fraction and exponent, or a fraction
    with a leading dot), with its value and what follows it. *)
Definition read_unsigned (s : string) : option (num * string) :=
  if prefix "Infinity" s then Some (PInf, substring 8 (length s - 8) s)
  else
    let '(m1, n1, r1) := read_digits s 0 0 in
    match r1 with
    | String "." r =>
        let '(m2, n2, r2) := read_digits r m1 0 in
        if ((n1 =? 0) && (n2 =? 0))%bool then None
        else
          let '(e, r3) := read_exponent r2 in
          Some (Fin (Qscale10 m2 (e - n2)), r3)
    | _ =>
        if n1 =? 0 then None
        else
          let '(e, r3) := read_exponent r1 in
          Some (Fin (Qscale10 m1 e), r3)
    end.

(** An optional sign followed by an unsigned decimal literal. *)
Definition read_signed (s : string) : option (num * string) :=
  match s with
  | String "+" r => read_unsigned r
  | String "-" r =>
      match read_unsigned r with
      | Some (v, rest) => Some (num_neg v, rest)
      | None => None
      end
  | _ => read_unsigned s
  end.

(** [parseFloat(s)]: leading white space is skipped, the longest decimal
    literal prefix is read, anything after it is ignored. *)
Definition parseFloat (s : string) : num :=
  match read_signed (skip_ws s) with
  | Some (v, _) => v
  | None => NaN
  end.

(** Digits of a non-decimal integer literal. *)
Definition radix_digit (radix : Z) (c : ascii) : option Z :=
  let n := Z.of_nat (nat_of_ascii c) in
  let v :=
    if ((48 <=? n) && (n <=? 57))%bool then n - 48
    else if ((97 <=? n) && (n <=? 102))%bool then n - 87
    else if ((65 <=? n) && (n <=? 70))%bool then n - 55
    else radix in
  if v <? radix then Some v else None.

Fixpoint read_radix (radix : Z) (s : string) (acc : Z) : option Z :=
  match s with
  | EmptyString => Some acc
  | String c r =>
      match radix_digit radix c with
      | Some v => read_radix radix r (radix * acc + v)
      | None => None
      end
  end.

(** [Number(s)] / unary [+s] on a string: the whole trimmed string has to be
    a numeric literal; the empty string is 0. *)
Definition StringToNumber (s : string) : num :=
  let t := trim s in
  match t with
  | EmptyString => Fin 0
  | String "0" (String c (String d r as body)) =>
      let lit radix :=
        match read_radix radix body 0 with
        | Some v => num_of_Z v
        | None => NaN
        end in
      if (Ascii.eqb c "x" || Ascii.eqb c "X")%bool then lit 16
      else if (Ascii.eqb c "o" || Ascii.eqb c "O")%bool then lit 8
      else if (Ascii.eqb c "b" || Ascii.eqb c "B")%bool then lit 2
      else
        match read_signed t with
        | Some (v, EmptyString) => v
        | _ => NaN
        end
  | _ =>
      match read_signed t with
      | Some (v, EmptyString) => v
      | _ => NaN
      end
  end.

(** [s.split(/[\/\-]/)] *)
Fixpoint split_date_aux (s : string) (cur : string) : list string :=
  match s with
  | EmptyString => [string_rev cur]
  | String c r =>
      if (Ascii.eqb c "/" || Ascii.eqb c "-")%bool
      then string_rev cur :: split_date_aux r EmptyString
      else split_date_aux r (String c cur)
  end.

Definition split_date (s : string) : list string := split_date_aux s EmptyString.

(* ------------------------------------------------------------------ *)
(** *** Values held by a document field *)

Inductive value : Type :=
  | VUndef
  | VNull
  | VBool (b : bool)
  | VNum (n : num)
  | VStr (s : string)
  | VTimestamp (millis : Z)                 (* a native Firestore Timestamp *)
  | VMap (fields : list (string * value)).  (* a plain nested object *)

Definition nullish (v : value) : bool :=
  match v with VUndef | VNull => true | _ => false end.

(** [a ?? b] *)
Definition coalesce (a b : value) : value := if nullish a then b else a.

Definition truthy (v : value) : bool :=
  match v with
  | VUndef | VNull => false
  | VBool b => b
  | VNum NaN => false
  | VNum (Fin q) => negb (Qeq_bool q 0)
  | VNum _ => true
  | VStr s => negb (String.eqb s "")
  | VTimestamp _ | VMap _ => true
  end.

Definition Z_toString (z : Z) : string := NilZero.string_of_int (Z.to_int z).

(** [String(v)] *)
Definition ToString (v : value) : string :=
  match v with
  | VUndef => "undefined"
  | VNull => "null"
  | VBool true => "true"
  | VBool false => "false"
  | VNum n => Number_toString n
  | VStr s => s
  | VTimestamp ms =>
      ("Timestamp(seconds=" ++ Z_toString (ms / 1000) ++
       ", nanoseconds=" ++ Z_toString ((ms mod 1000) * 1000000) ++ ")")%string
  | VMap _ => "[object Object]"
  end.

(** Own property lookup on a plain object. *)
Fixpoint get_field (k : string) (fs : list (string * value)) : value :=
  match fs with
  | [] => VUndef
  | (k', v) :: r => if String.eqb k k' then v else get_field k r
  end.

(* ------------------------------------------------------------------ *)
(** *** Completions and dates *)

(** Outcome of evaluating code that can raise. *)
Inductive completion (A : Type) : Type :=
  | Normal (a : A)
  | Throw.
Arguments Normal {A} a.
Arguments Throw {A}.

(** A [Date] object, by its time value. *)
Inductive Date : Type :=
  | InvalidDate
  | DateMs (ms : Z).

(** [new Date(x)] on a number: the time value is clipped to the valid range
    and truncated to an integer. *)
Definition Date_of_num (x : num) : Date :=
  match x with
  | Fin q =>
      if Qle_bool (Qabs q) (inject_Z 8640000000000000)
      then DateMs (Qtrunc q) else InvalidDate
  | _ => InvalidDate
  end.

(** [d.getTime()] / the number a date is compared by. *)
Definition getTime (d : Date) : num :=
  match d with
  | InvalidDate => NaN
  | DateMs ms => num_of_Z ms
  end.

(** Relational operators on dates compare the time values. *)
Definition Date_ge (a b : Date) : bool := num_ge (getTime a) (getTime b).
Definition Date_lt (a b : Date) : bool := num_lt (getTime a) (getTime b).
Definition Date_gt (a b : Date) : bool := num_gt (getTime a) (getTime b).

End Js.

(* ================================================================== *)
(** ** JavaScript [Map]: an association list in insertion order *)
(* ================================================================== *)

Module JsMap.
Section Ops.
Context {V : Type}.

Definition t := list (string * V).

Fixpoint get (k : string) (m : t) : option V :=
  match m with
  | [] => None
  | (k', v) :: r => if String.eqb k k' then Some v else get k r
  end.

Definition has (k : string) (m : t) : bool :=
  match get k m with Some _ => true | None => false end.

(** [m.set(k, v)]: an existing key keeps its position, a new key goes last. *)
Fixpoint set (k : string) (v : V) (m : t) : t :=
  match m with
  | [] => [(k, v)]
  | (k', v') :: r =>
      if String.eqb k k' then (k', v) :: r else (k', v') :: set k v r
  end.

Definition keys (m : t) : list string := map fst m.
Definition values (m : t) : list V := map snd m.
Definition size (m : t) : nat := List.length m.
End Ops.
Arguments t : clear implicits.
End JsMap.

(* ================================================================== *)
(** ** js/mapa.js: helpers shared with the panels *)
(* ================================================================== *)

Module Mapa.
Import Js.

(** [toNum]: a number is kept, anything else is rendered as a string, its
    first comma turned into a dot, and read by [parseFloat]. *)
Definition toNum (v : value) : num :=
  match v with
  | VNum n => n
  | _ => parseFloat (replace_first "," "." (ToString v))
  end.

(** The object [getCoords] receives, with every field name it looks at. *)
Record coordsObj : Type := mkCoordsObj {
  o_lat : value; o_latitude : value; o_latitud : value;
  o_lng : value; o_long : value; o_lon : value;
  o_longitude : value; o_longitud : value
}.

Definition getCoords (o : coordsObj) : option (num * num) :=
  let lat := toNum (coalesce (o_lat o) (coalesce (o_latitude o) (o_latitud o))) in
  let lng := toNum (coalesce (o_lng o) (coalesce (o_long o) (coalesce (o_lon o)
               (coalesce (o_longitude o) (o_longitud o))))) in
  if (Number_isNaN lat || Number_isNaN lng
      || num_lt lat (num_of_Z (-90)) || num_gt lat (num_of_Z 90)
      || num_lt lng (num_of_Z (-180)) || num_gt lng (num_of_Z 180))%bool
  then None
  else Some (lat, lng).

(* ------------------------------------------------------------------ *)
(** *** Timestamps *)

Section Timestamps.
(** [new Date(s)] on a string: the host's date parser. *)
Variable Date_parse : string -> Date.
(** [new Date(y, m, d)] on integers: local midnight of that civil date. *)
Variable Date_local : Z -> Z -> Z -> Date.

(** [new Date(y, m, d)]: invalid as soon as a component is not finite. *)
Definition Date_ymd (y m d : num) : Date :=
  match y, m, d with
  | Fin y', Fin m', Fin d' => Date_local (Qtrunc y') (Qtrunc m') (Qtrunc d')
  | _, _, _ => InvalidDate
  end.

(** [t?.toDate] then [t.toDate()]: a native timestamp converts; a plain
    object with a truthy [toDate] field is called and is no function. *)
Inductive toDateProbe : Type :=
  | NoToDate
  | NativeDate (d : Date)
  | NotCallable.

Definition probe_toDate (t : value) : toDateProbe :=
  match t with
  | VTimestamp ms => NativeDate (DateMs ms)
  | VMap fs => if truthy (get_field "toDate" fs) then NotCallable else NoToDate
  | _ => NoToDate
  end.

(** [typeof t?.seconds === "number"] and the number. *)
Definition seconds_of (t : value) : option num :=
  match t with
  | VTimestamp ms => Some (num_of_Z (ms / 1000))
  | VMap fs =>
      match get_field "seconds" fs with
      | VNum n => Some n
      | _ => None
      end
  | _ => None
  end.

(** The array element at [i] converted by unary plus; a missing element is
    [undefined], hence NaN. *)
Definition part_num (parts : list string) (i : nat) : num :=
  match nth_error parts i with
  | Some p => StringToNumber p
  | None => NaN
  end.

(** Document of the "asistencias" collection, as far as [getWhenS] reads it. *)
Record asistenciaWhen : Type := mkAsistenciaWhen {
  s_timestamp : value;
  s_fecha : value
}.

(** [getWhenS(d)]: timestamps of "asistencias". *)
Definition getWhenS (d : asistenciaWhen) : completion Date :=
  let t := s_timestamp d in
  match probe_toDate t with
  | NativeDate dt => Normal dt
  | NotCallable => Throw
  | NoToDate =>
      match seconds_of t with
      | Some sec => Normal (Date_of_num (num_mul sec (num_of_Z 1000)))
      | None =>
          let fallback :=
            if truthy (s_fecha d) then
              let parts := split_date (ToString (s_fecha d)) in
              let dd := part_num parts 0 in
              let mm := part_num parts 1 in
              let yy := part_num parts 2 in
              Normal (Date_ymd yy (num_sub mm (num_of_Z 1)) dd)
            else Normal (DateMs 0) in
          match t with
          | VStr str =>
              match Date_parse str with
              | InvalidDate => fallback
              | dt => Normal dt
              end
          | _ => fallback
          end
      end
  end.

(** [getWhenA(d)]: timestamps of "alertas"; the document enters by the
    one field read, [d?.createdAt]. *)
Definition getWhenA (createdAt : value) : completion Date :=
  let ct := createdAt in
  match probe_toDate ct with
  | NativeDate dt => Normal dt
  | NotCallable => Throw
  | NoToDate =>
      match seconds_of ct with
      | Some sec => Normal (Date_of_num (num_mul sec (num_of_Z 1000)))
      | None =>
          match ct with
          | VNum n => Normal (Date_of_num n)
          | VStr str =>
              match Date_parse str with
              | InvalidDate => Normal (DateMs 0)
              | dt => Normal dt
              end
          | _ => Normal (DateMs 0)
          end
      end
  end.
End Timestamps.

(* ------------------------------------------------------------------ *)
(** *** Leaflet's polygon layer

    Leaflet is an external library.  What the program relies on is written
    out from Leaflet 1.x: [L.polygon(latlngs)] converts a flat array of
    [[lat, lng]] pairs into one ring of [LatLng] objects, extends the
    layer's bounds by every point given, and drops the last point of the
    ring when it equals the first (within Leaflet's margin of 1e-9);
    [setLatLngs] does the same on an existing layer.  [getLatLngs()] returns
    the list of rings and [getBounds().contains(p)] is the inclusive
    comparison against the two corners. *)

Record LatLng : Type := mkLatLng { lat : num; lng : num }.

Record LatLngBounds : Type := mkBounds { southWest : LatLng; northEast : LatLng }.

Record polygon : Type := mkPolygon {
  getBounds : option LatLngBounds;   (* [None]: bounds never extended *)
  getLatLngs : list (list LatLng)
}.

Definition bounds_extend (b : option LatLngBounds) (p : LatLng) : option LatLngBounds :=
  match b with
  | None => Some (mkBounds p p)
  | Some b' =>
      Some (mkBounds
              (mkLatLng (Math_min (lat p) (lat (southWest b')))
                        (Math_min (lng p) (lng (southWest b'))))
              (mkLatLng (Math_max (lat p) (lat (northEast b')))
                        (Math_max (lng p) (lng (northEast b')))))
  end.

(** [bounds.contains([lat, lng])].  Bounds that were never extended are
    taken to contain nothing, and a NaN coordinate, which Leaflet rejects
    with an exception, fails every comparison (the program passes the
    coordinates [getCoords] accepted, never NaN, and draws no empty path). *)
Definition bounds_contains (b : option LatLngBounds) (la ln : num) : bool :=
  match b with
  | None => false
  | Some b' =>
      (num_ge la (lat (southWest b')) && num_le la (lat (northEast b'))
       && num_ge ln (lng (southWest b')) && num_le ln (lng (northEast b')))%bool
  end.

Definition margin : num := Fin (1 # 1000000000).

(** [a.equals(b)] *)
Definition LatLng_equals (a b : LatLng) : bool :=
  num_le (Math_max (Math_abs (num_sub (lat a) (lat b)))
                   (Math_abs (num_sub (lng a) (lng b)))) margin.

Definition drop_closing (ring : list LatLng) : list LatLng :=
  match ring with
  | first :: _ :: _ =>
      if LatLng_equals first (last ring first) then removelast ring else ring
  | _ => ring
  end.

Definition L_polygon (latlngs : list (num * num)) : polygon :=
  let pts := map (fun p => mkLatLng (fst p) (snd p)) latlngs in
  mkPolygon (fold_left bounds_extend pts None) [drop_closing pts].

(* ------------------------------------------------------------------ *)
(** *** Geofences and their layers *)

Record pathPoint : Type := mkPathPoint { p_lat : value; p_lng : value }.

(** The object the snapshot handler builds for an active geofence document.
    (It carries no [name] field: [nombre] already holds [d.nombre || d.name].) *)
Record geofence : Type := mkGeofence {
  id : string;
  nombre : option string;           (* [None]: undefined *)
  color : option string;
  path : option (list pathPoint);   (* [None]: absent or not an array *)
  _color : option string            (* set by [drawOneGeofence] *)
}.

(** [a || b] on optional strings; the empty string is falsy. *)
Definition str_or (a b : option string) : option string :=
  match a with
  | Some s => if String.eqb s "" then b else a
  | None => b
  end.

Definition str_or_default (a : option string) (b : string) : string :=
  match str_or a None with
  | Some s => s
  | None => b
  end.

(** Module state: [geofenceById] and [geofenceLayers]. *)
Record store : Type := mkStore {
  geofenceById : JsMap.t geofence;
  geofenceLayers : JsMap.t polygon
}.

Definition parsePath (arr : option (list pathPoint)) : list (num * num) :=
  filter (fun ab => (negb (Number_isNaN (fst ab)) && negb (Number_isNaN (snd ab)))%bool)
         (map (fun p => (toNum (p_lat p), toNum (p_lng p)))
              (match arr with Some a => a | None => [] end)).

Definition defaultColors : list string :=
  ["#ef4444"; "#f59e0b"; "#10b981"; "#3b82f6"; "#8b5cf6"; "#ec4899"; "#22c55e"].

(** The path handed to Leaflet: closed by repeating the first vertex when it
    has more than two points and its ends differ. *)
Definition closed_path (path : list (num * num)) : list (num * num) :=
  match path with
  | [] => path
  | first :: _ =>
      let lastp := last path first in
      if ((2 <? List.length path)%nat
          && (num_neq (fst first) (fst lastp) || num_neq (snd first) (snd lastp)))%bool
      then (path ++ [first])%list
      else path
  end.

(** [drawOneGeofence(g, idx)]: the geofence object after the call (its
    [_color] set) and the layer map after the call. *)
Definition drawOneGeofence (g : geofence) (idx : nat) (layers : JsMap.t polygon)
  : geofence * JsMap.t polygon :=
  let path := parsePath (path g) in
  match path with
  | [] => (g, layers)
  | _ =>
      let color :=
        str_or_default (color g)
          (nth (idx mod List.length defaultColors) defaultColors "") in
      let g' := mkGeofence (id g) (nombre g) (Mapa.color g) (Mapa.path g) (Some color) in
      (g', JsMap.set (id g) (L_polygon (closed_path path)) layers)
  end.

(** An active document of the "geofences" collection. *)
Record geofenceDoc : Type := mkGeofenceDoc {
  doc_id : string;
  d_nombre : option string; d_name : option string;
  d_color : option string; d_colour : option string;
  d_activo : value;
  d_geometry_path : option (list pathPoint);
  d_path : option (list pathPoint)
}.

Definition is_false (v : value) : bool :=
  match v with VBool false => true | _ => false end.

(** The objects pushed to [docs] by the snapshot handler. *)
Definition snapshot_docs (snap : list geofenceDoc) : list geofence :=
  map (fun d =>
         mkGeofence (doc_id d) (str_or (d_nombre d) (d_name d))
           (str_or (d_color d) (d_colour d))
           (match d_geometry_path d with
            | Some p => Some p
            | None => match d_path d with Some p => Some p | None => Some [] end
            end)
           None)
      (filter (fun d => negb (is_false (d_activo d))) snap).

(** [docs.forEach((g, i) => { geofenceById.set(g.id, g); drawOneGeofence(g, i) })]
    from index [i] on. *)
Fixpoint draw_all (docs : list geofence) (i : nat) (st : store) : store :=
  match docs with
  | [] => st
  | g :: r =>
      let '(g', layers) := drawOneGeofence g i (geofenceLayers st) in
      draw_all r (S i) (mkStore (JsMap.set (id g) g' (geofenceById st)) layers)
  end.

(** The state the geofence snapshot handler leaves: both maps are cleared
    and rebuilt from the snapshot. *)
Definition onGeofenceSnapshot (snap : list geofenceDoc) : store :=
  draw_all (snapshot_docs snap) 0%nat (mkStore [] []).

(* ------------------------------------------------------------------ *)
(** *** Sector numbers and labels *)

Fixpoint drop_nondigits (s : string) : string :=
  match s with
  | String c r => if is_digit c then s else drop_nondigits r
  | EmptyString => EmptyString
  end.

(** [String(name || "").match(/(\d+)/)] followed by [parseInt(m[1], 10)]:
    the value of the first run of digits, if any. *)
Definition first_int (s : string) : option Z :=
  let '(v, n, _) := read_digits (drop_nondigits s) 0 0 in
  if 0 <? n then Some v else None.

Definition sectorNumber (name : option string) : num :=
  match first_int (str_or_default name "") with
  | Some v => num_of_Z v
  | None => PInf
  end.

Definition sectorLabel (g : geofence) : string :=
  let n := sectorNumber (nombre g) in
  if Number_isFinite n then ("S" ++ Number_toString n)%string
  else str_or_default (nombre g) "Sector".

(* ------------------------------------------------------------------ *)
(** *** [Array.prototype.sort] with a comparator

    The sort is stable; [x] is placed after [y] exactly when the comparator
    gives a positive number on [(x, y)] (a NaN result counts as zero).  With
    a consistent comparator, as all comparators of this module are, the
    result is the one a stable insertion sort produces. *)

Section Sort.
Context {A : Type}.
Variable comparefn : A -> A -> num.

Definition sorts_after (x y : A) : bool := num_gt (comparefn x y) (Fin 0).

Fixpoint sort_insert (x : A) (l : list A) : list A :=
  match l with
  | [] => [x]
  | y :: r => if sorts_after x y then y :: sort_insert x r else x :: l
  end.

Fixpoint Array_sort (l : list A) : list A :=
  match l with
  | [] => []
  | x :: r => sort_insert x (Array_sort r)
  end.
End Sort.

(* ------------------------------------------------------------------ *)
(** *** Point in polygon *)

Definition eps : num := Fin (1 # 10000000000).

Definition onSegment (px py x1 y1 x2 y2 : num) : bool :=
  let cross := num_sub (num_mul (num_sub px x1) (num_sub y2 y1))
                       (num_mul (num_sub py y1) (num_sub x2 x1)) in
  if num_gt (Math_abs cross) eps then false
  else
    let dot := num_add (num_mul (num_sub px x1) (num_sub px x2))
                       (num_mul (num_sub py y1) (num_sub py y2)) in
    num_le dot eps.

(** The loop of [pointInRing] from vertex [i] on: [pj] is vertex [j], the
    one visited just before (the last vertex at the start). *)
Fixpoint pointInRing_from (la ln : num) (pj : LatLng) (rest : list LatLng)
    (inside : bool) : bool :=
  match rest with
  | [] => inside
  | pi :: r =>
      let xi := lng pi in let yi := lat pi in
      let xj := lng pj in let yj := lat pj in
      if onSegment ln la xi yi xj yj then true
      else
        let intersect :=
          (negb (Bool.eqb (num_gt yi la) (num_gt yj la))
           && num_lt ln (num_add (num_div (num_mul (num_sub xj xi) (num_sub la yi))
                                          (num_sub yj yi)) xi))%bool in
        pointInRing_from la ln pi r (if intersect then negb inside else inside)
  end.

Definition pointInRing (la ln : num) (ring : list LatLng) : bool :=
  match ring with
  | [] => false
  | p0 :: _ => pointInRing_from la ln (last ring p0) ring false
  end.

(** The rings of a layer: [Array.isArray(lls[0]) ? lls : [lls]]. *)
Definition rings_of (lls : list (list LatLng)) : list (list LatLng) :=
  match lls with
  | [] => [[]]
  | _ => lls
  end.

Definition ring_hit (la ln : num) (ring : list LatLng) : bool :=
  ((3 <=? List.length ring)%nat && pointInRing la ln ring)%bool.

(** One layer passes when its bounds contain the point, its geofence is
    known, and one of its rings contains the point. *)
Definition layer_hit (st : store) (la ln : num) (idp : string * polygon)
  : option (string * geofence) :=
  if negb (bounds_contains (getBounds (snd idp)) la ln) then None
  else
    match JsMap.get (fst idp) (geofenceById st) with
    | None => None
    | Some g =>
        if existsb (ring_hit la ln) (rings_of (getLatLngs (snd idp)))
        then Some (fst idp, g) else None
    end.

Fixpoint first_hit (st : store) (la ln : num) (layers : list (string * polygon))
  : option (string * geofence) :=
  match layers with
  | [] => None
  | idp :: r =>
      match layer_hit st la ln idp with
      | Some res => Some res
      | None => first_hit st la ln r
      end
  end.

Definition sectorOfPoint (st : store) (la ln : num) : option (string * geofence) :=
  first_hit st la ln (geofenceLayers st).

(* ------------------------------------------------------------------ *)
(** *** Counting by sector *)

Record entry : Type := mkEntry {
  label : string;
  num_ : num;          (* field [num] *)
  e_color : string;
  e_name : string;
  count : Z
}.

Definition by_sector (a b : geofence) : num :=
  num_sub (sectorNumber (nombre a)) (sectorNumber (nombre b)).

Definition base_entry (g : geofence) : entry :=
  let lab := sectorLabel g in
  mkEntry lab (sectorNumber (nombre g))
    (str_or_default (str_or (_color g) (color g)) "#9ca3af")
    (str_or_default (nombre g) lab)
    0.

Definition baseSectorCountMap (st : store) : JsMap.t entry :=
  let ordered := Array_sort by_sector (JsMap.values (geofenceById st)) in
  fold_left (fun m g => JsMap.set (sectorLabel g) (base_entry g) m) ordered [].

Definition by_num (a b : entry) : num := num_sub (num_ a) (num_ b).

(** [renderSectorLegend]: the chips, in the order they are appended. *)
Definition renderSectorLegend (countMap : JsMap.t entry) : list entry :=
  Array_sort by_num (JsMap.values countMap).

Definition incr (e : entry) : entry :=
  mkEntry (label e) (num_ e) (e_color e) (e_name e) (count e + 1).

(** One turn of the counting loop for an entity at [(la, ln)]. *)
Definition count_one (st : store) (counts : JsMap.t entry) (la ln : num)
  : JsMap.t entry :=
  match sectorOfPoint st la ln with
  | None => counts
  | Some (_, g) =>
      let lab := sectorLabel g in
      match JsMap.get lab counts with
      | Some e => JsMap.set lab (incr e) counts
      | None =>
          JsMap.set lab
            (mkEntry lab (sectorNumber (nombre g))
               (str_or_default (_color g) "#9ca3af")
               (str_or_default (nombre g) lab) 1)
            counts
      end
  end.

(** What a call of [updateSectorCountsFrom] does: the chips it renders and
    the points it passed to [sectorOfPoint], in order. *)
Record sectorUpdate : Type := mkSectorUpdate {
  chips : list entry;
  located : list (num * num)
}.

Section Update.
Context {Info : Type}.
Variable coords : Info -> num * num.

Definition updateSectorCountsFrom (st : store) (latestMap : JsMap.t Info)
  : sectorUpdate :=
  if (JsMap.size (geofenceLayers st) =? 0)%nat
  then mkSectorUpdate (renderSectorLegend (baseSectorCountMap st)) []
  else
    let pts := map coords (JsMap.values latestMap) in
    let counts :=
      fold_left (fun c p => count_one st c (fst p) (snd p)) pts
                (baseSectorCountMap st) in
    mkSectorUpdate (renderSectorLegend counts) pts.
End Update.

End Mapa.

(* ================================================================== *)
(** ** Subscriber notification (js/personal.js and js/alertas.js)

    Both panels keep [listeners], a [Set] of callbacks, and notify with
    [listeners.forEach(cb => { try { cb(); } catch {} })].  A callback is
    known by its reference; what it does is a transformation of the world
    outside the panel, which either returns or raises (its effects up to the
    raise stay).  Callbacks that subscribe further callbacks while being
    notified are outside the embedding. *)
(* ================================================================== *)

Module Notify.

Inductive outcome (S : Type) : Type :=
  | Returned (s : S)
  | Raised (s : S).
Arguments Returned {S} s.
Arguments Raised {S} s.

Definition state_of {S : Type} (o : outcome S) : S :=
  match o with Returned s | Raised s => s end.

Definition callback := nat.

(** What is handed to [onSerenosUpdate] / [onAlertasUpdate]. *)
Inductive subscriber : Type :=
  | Fn (cb : callback)
  | NotAFunction.

Definition Set_has (cb : callback) (s : list callback) : bool :=
  existsb (Nat.eqb cb) s.

Definition Set_add (cb : callback) (s : list callback) : list callback :=
  if Set_has cb s then s else (s ++ [cb])%list.

(** [onSerenosUpdate(cb)] / [onAlertasUpdate(cb)] *)
Definition onUpdate (x : subscriber) (listeners : list callback) : list callback :=
  match x with
  | Fn cb => Set_add cb listeners
  | NotAFunction => listeners
  end.

Section Emit.
Variable World : Type.
(** The behaviour of each callback. *)
Variable run : callback -> World -> outcome World.

(** The state threaded through a notification: the world and the log of
    the callbacks invoked so far. *)
Definition trace : Type := (World * list callback)%type.

(** [cb()] *)
Definition call (cb : callback) (s : trace) : outcome trace :=
  match run cb (fst s) with
  | Returned w => Returned (w, (snd s ++ [cb])%list)
  | Raised w => Raised (w, (snd s ++ [cb])%list)
  end.

(** [try { body } catch {}] *)
Definition try_catch (body : trace -> outcome trace) (s : trace) : outcome trace :=
  match body s with
  | Returned s' => Returned s'
  | Raised s' => Returned s'
  end.

(** [set.forEach(f)]: a raise of [f] ends the iteration. *)
Fixpoint forEach (f : callback -> trace -> outcome trace)
    (l : list callback) (s : trace) : outcome trace :=
  match l with
  | [] => Returned s
  | x :: r =>
      match f x s with
      | Returned s' => forEach f r s'
      | Raised s' => Raised s'
      end
  end.

Definition emit (listeners : list callback) (s : trace) : outcome trace :=
  forEach (fun cb => try_catch (call cb)) listeners s.
End Emit.

End Notify.

(* ================================================================== *)
(** ** js/personal.js: the patrol panel *)
(* ================================================================== *)

Module Personal.
Import Js Mapa.

(** A document of "asistencias", as far as the panel reads it. *)
Record asistencia : Type := mkAsistencia {
  dni : value; a_nombre : value; comentario : value;
  a_lat : value; a_latitud : value; a_latitude : value;
  a_lng : value; a_longitud : value; a_longitude : value; a_long : value
}.

(** An entry of the cache [docsS]. *)
Record recS : Type := mkRecS { data : asistencia; when : Date }.

(** A value of the map [latest]. *)
Record info : Type := mkInfo {
  i_data : asistencia; i_when : Date; coords : num * num; hasC : bool
}.

(** [x && String(x).trim()] as a string: empty when falsy. *)
Definition trimmed_if_truthy (x : value) : string :=
  if truthy x then trim (ToString x) else "".

Definition keyFor (d : asistencia) : string :=
  let a := trimmed_if_truthy (dni d) in
  if negb (String.eqb a "") then a
  else
    let b := trimmed_if_truthy (a_nombre d) in
    if negb (String.eqb b "") then b else "sin-id".

(** The object literal passed to [getCoords] (it has no [lon] field). *)
Definition coordsObj_of (d : asistencia) : coordsObj :=
  mkCoordsObj (a_lat d) (a_latitude d) (a_latitud d)
              (a_lng d) (a_long d) VUndef (a_longitude d) (a_longitud d).

Section Rebuild.
(** [s.normalize("NFD")] with diacritics removed, trimmed, lower-cased. *)
Variable norm_text : string -> string.

(** [norm(s)] *)
Definition norm (v : value) : string :=
  norm_text (if nullish v then "" else ToString v).

(** The filters read from the page: the shift interval, the normalised
    search text, the "only with comment" box. *)
Record filtersS : Type := mkFiltersS {
  f_start : Date; f_end : Date; texto : string; onlyC : bool
}.

(** One turn of the loop over [docsS]. *)
Definition latest_step (f : filtersS) (latest : JsMap.t info) (rec : recS)
  : JsMap.t info :=
  match getCoords (coordsObj_of (data rec)) with
  | None => latest
  | Some c =>
      if negb (Date_ge (when rec) (f_start f) && Date_lt (when rec) (f_end f))
      then latest
      else
        let okText :=
          (String.eqb (texto f) ""
           || includes (norm (a_nombre (data rec))) (texto f)
           || includes
                (norm (VStr (if truthy (dni (data rec))
                             then ToString (dni (data rec)) else "")))
                (texto f))%bool in
        if negb okText then latest
        else
          let hasC' := negb (String.eqb (trimmed_if_truthy (comentario (data rec))) "") in
          if (onlyC f && negb hasC')%bool then latest
          else
            let k := keyFor (data rec) in
            match JsMap.get k latest with
            | Some prev =>
                if Date_gt (when rec) (i_when prev)
                then JsMap.set k (mkInfo (data rec) (when rec) c hasC') latest
                else latest
            | None => JsMap.set k (mkInfo (data rec) (when rec) c hasC') latest
            end
  end.

Definition build_latest (f : filtersS) (docsS : JsMap.t recS) : JsMap.t info :=
  fold_left (latest_step f) (JsMap.values docsS) [].

(** What [rebuildSerenos] shows: the map [latest], the markers on the
    layer (key and position), the counter chip and the sector legend. *)
Record viewS : Type := mkViewS {
  latest : JsMap.t info;
  markers : list (string * (num * num));
  countSerenos : nat;
  legend : sectorUpdate
}.

Definition rebuildSerenos (st : store) (f : filtersS) (docsS : JsMap.t recS) : viewS :=
  let l := build_latest f docsS in
  mkViewS l
    (map (fun kv => (fst kv, coords (snd kv))) l)
    (List.length (JsMap.keys l))
    (updateSectorCountsFrom coords st l).
End Rebuild.

End Personal.

(* ================================================================== *)
(** ** js/alertas.js: the alert panel *)
(* ================================================================== *)

Module Alertas.
Import Js Mapa.

(** A document of "alertas", as far as [rebuildAlertas] reads it. *)
Record alerta : Type := mkAlerta {
  al_lat : value; al_latitud : value; al_latitude : value;
  al_lng : value; al_longitud : value; al_longitude : value
}.

(** An entry of the cache [docsA]. *)
Record recA : Type := mkRecA { rec_id : string; data : alerta; when : Date }.

Definition coordsObj_of (d : alerta) : coordsObj :=
  mkCoordsObj (al_lat d) (al_latitude d) (al_latitud d)
              (al_lng d) VUndef VUndef (al_longitude d) (al_longitud d).

Definition THIRTY_MIN : num := num_of_Z (30 * 60 * 1000).

(** A bound of the range as a number; [null] compares as 0. *)
Definition bound_time (b : option Date) : num :=
  match b with
  | Some d => getTime d
  | None => Fin 0
  end.

(** The page state [rebuildAlertas] reads: the mode, [Date.now()], and the
    shift interval, which stays [null] unless the mode is "range". *)
Record filtersA : Type := mkFiltersA {
  mode : string;
  now : Z;
  range : Date * Date
}.

Definition range_start (f : filtersA) : option Date :=
  if String.eqb (mode f) "range" then Some (fst (range f)) else None.
Definition range_end (f : filtersA) : option Date :=
  if String.eqb (mode f) "range" then Some (snd (range f)) else None.

Definition include (f : filtersA) (w : Date) : bool :=
  if String.eqb (mode f) "active"
  then num_le (num_sub (num_of_Z (now f)) (getTime w)) THIRTY_MIN
  else (num_ge (getTime w) (bound_time (range_start f))
        && num_lt (getTime w) (bound_time (range_end f)))%bool.

(** The markers [rebuildAlertas] puts on the layer, with their record, and
    the counter. *)
Record viewA : Type := mkViewA {
  layer : list (recA * (num * num));
  visibles : nat
}.

Definition shown (f : filtersA) (rec : recA) : option (recA * (num * num)) :=
  match getCoords (coordsObj_of (data rec)) with
  | None => None
  | Some c => if include f (when rec) then Some (rec, c) else None
  end.

Fixpoint rebuild_loop (f : filtersA) (docs : list recA) (v : viewA) : viewA :=
  match docs with
  | [] => v
  | rec :: r =>
      match shown f rec with
      | None => rebuild_loop f r v
      | Some m => rebuild_loop f r (mkViewA (layer v ++ [m])%list (S (visibles v)))
      end
  end.

Definition rebuildAlertas (f : filtersA) (docsA : JsMap.t recA) : viewA :=
  rebuild_loop f (JsMap.values docsA) (mkViewA [] 0%nat).

End Alertas.

(* ================================================================== *)
(** ** js/mapa.js: dates and shifts *)
(* ================================================================== *)

Module Shifts.
Import Js Mapa.

Definition msPerDay : Z := 86400000.
Definition msPerHour : Z := 3600000.
Definition msPerMinute : Z := 60000.
Definition msPerSecond : Z := 1000.
Definition maxTime : Z := 8640000000000000.

(** The time value of a date object stays within 100 000 000 days of the
    epoch; beyond, the date is invalid. *)
Definition TimeClip (t : Z) : Date :=
  if Z.abs t <=? maxTime then DateMs t else InvalidDate.

(** [new Date(d)] on a date object. *)
Definition Date_copy (d : Date) : Date :=
  match d with
  | InvalidDate => InvalidDate
  | DateMs t => TimeClip t
  end.

Definition Day (t : Z) : Z := t / msPerDay.
Definition TimeWithinDay (t : Z) : Z := t mod msPerDay.
Definition HourFromTime (t : Z) : Z := (t / msPerHour) mod 24.
Definition MakeTime (h m s ms : Z) : Z :=
  h * msPerHour + m * msPerMinute + s * msPerSecond + ms.
Definition MakeDate (day time : Z) : Z := day * msPerDay + time.

(** [s.split(c)] with a one-character separator. *)
Fixpoint split_aux (sep : ascii) (s : string) (cur : string) : list string :=
  match s with
  | EmptyString => [string_rev cur]
  | String c r =>
      if Ascii.eqb c sep
      then string_rev cur :: split_aux sep r EmptyString
      else split_aux sep r (String c cur)
  end.

Definition split (sep : ascii) (s : string) : list string := split_aux sep s EmptyString.

Section LocalTime.
(** Local time is UTC plus a constant offset in milliseconds: a zone that
    does not change its clocks (America/Lima is UTC-5 all year). *)
Variable tz : Z.
(** [new Date(y, m, d, 0, 0, 0, 0)] on integers: local midnight of that civil
    date. *)
Variable Date_local : Z -> Z -> Z -> Date.
(** The template [`${y}-${m}-${d}`] over [getFullYear()], [getMonth()+1] and
    [getDate()], the last two padded to two digits. *)
Variable ymd_string : Date -> string.

Definition LocalTime (t : Z) : Z := t + tz.
Definition UTC (t : Z) : Z := t - tz.

(** [d.setHours(h, m, s, ms)], by the date it leaves in [d]. *)
Definition setHours (d : Date) (h m s ms : Z) : Date :=
  match d with
  | InvalidDate => InvalidDate
  | DateMs t => TimeClip (UTC (MakeDate (Day (LocalTime t)) (MakeTime h m s ms)))
  end.

(** [d.getHours()] *)
Definition getHours (d : Date) : num :=
  match d with
  | InvalidDate => NaN
  | DateMs t => num_of_Z (HourFromTime (LocalTime t))
  end.

(** [d.setDate(d.getDate() + k)]: the day of the month overflows into the
    next or the previous month, so the local day number moves by [k] and
    the time within the day stays. *)
Definition addDate (d : Date) (k : Z) : Date :=
  match d with
  | InvalidDate => InvalidDate
  | DateMs t =>
      TimeClip (UTC (MakeDate (Day (LocalTime t) + k) (TimeWithinDay (LocalTime t))))
  end.

(** [parseFecha(v)] *)
Definition parseFecha (v : string) : Date :=
  let parts := split "-" v in
  let y := part_num parts 0 in
  let m := part_num parts 1 in
  let d := part_num parts 2 in
  Date_ymd Date_local y (num_sub m (num_of_Z 1)) d.

(** [intervaloTurno(base, turno)]: the pair [start], [end]. *)
Definition intervaloTurno (base : Date) (turno : string) : Date * Date :=
  let start := Date_copy base in
  let end_ := Date_copy base in
  if String.eqb turno "t1" then (setHours start 7 0 0 0, setHours end_ 15 0 0 0)
  else if String.eqb turno "t2" then (setHours start 15 0 0 0, setHours end_ 23 0 0 0)
  else if String.eqb turno "t3"
  then (setHours start 23 0 0 0, setHours (addDate end_ 1) 7 0 0 0)
  else (setHours start 0 0 0 0, setHours (addDate end_ 1) 0 0 0 0).

(** The first half of [todayTurnDefaults()], at the time value [now] of
    [new Date()]: the base date and the shift. *)
Definition todayTurn (now : Z) : Date * string :=
  let now_ := TimeClip now in
  let base := Date_copy now_ in
  if num_lt (getHours now_) (num_of_Z 6) then (addDate base (-1), "t3")
  else if num_lt (getHours now_) (num_of_Z 14) then (base, "t1")
  else if num_lt (getHours now_) (num_of_Z 22) then (base, "t2")
  else (base, "t3").

(** [todayTurnDefaults()]: the pair [fecha], [turno]. *)
Definition todayTurnDefaults (now : Z) : string * string :=
  (ymd_string (fst (todayTurn now)), snd (todayTurn now)).

(** [w >= start && w < end] *)
Definition within (w : Date) (r : Date * Date) : bool :=
  (Date_ge w (fst r) && Date_lt w (snd r))%bool.

End LocalTime.

End Shifts.


(* ================================================================== *)
(** ** js/reportes.js: the report rows *)
(* ================================================================== *)

Module Reportes.
Import Js Mapa Shifts.

Section Rows.
Variable tz : Z.
Variable Date_local : Z -> Z -> Z -> Date.
(** A row of a report: an object with the columns and the date [_when]. *)
Variable row : Type.
Variable _when : row -> Date.

(** [rowsByDay(type, dateStr, turno)] over the rows [rowsAll(type)]. *)
Definition rowsByDay (rowsAll : list row) (dateStr turno : string) : list row :=
  let base := parseFecha Date_local dateStr in
  let r := intervaloTurno tz base turno in
  filter (fun x => within (_when x) r) rowsAll.

(** The comparator [(a, b) => b._when - a._when] and the sort that ends the
    building of the rows in each snapshot handler (personal.js, alertas.js
    and reportes.js). *)
Definition by_when_desc (a b : row) : num :=
  num_sub (getTime (_when b)) (getTime (_when a)).

Definition sort_rows (rows : list row) : list row := Array_sort by_when_desc rows.
End Rows.

(* ------------------------------------------------------------------ *)
(** *** The table and the CSV file *)

Section Text.
(** [String(n)] on a number, as the host renders it ([Number_toString]
    renders integers only, and the reports hold coordinates). *)
Variable Number_text : num -> string.

(** [String(v)], [v.toString()] *)
Definition String_of (v : value) : string :=
  match v with
  | VNum n => Number_text n
  | _ => ToString v
  end.

(** The replacement of one character by [esc]. *)
Definition esc_char (c : ascii) : string :=
  if Ascii.eqb c "<" then "&lt;"
  else if Ascii.eqb c ">" then "&gt;"
  else if Ascii.eqb c "&" then "&amp;"
  else String c EmptyString.

(** [s.replace(/[<>&]/g, ...)] *)
Fixpoint esc_string (s : string) : string :=
  match s with
  | EmptyString => EmptyString
  | String c r => (esc_char c ++ esc_string r)%string
  end.

(** [esc(v)] (the same function in personal.js, alertas.js and
    reportes.js). *)
Definition esc (v : value) : string :=
  esc_string (String_of (coalesce v (VStr ""))).

(** The double quote. *)
Definition dquote : ascii := "034"%char.

(** The global replacement in [escCSV]: every double quote is doubled. *)
Fixpoint double_quotes (s : string) : string :=
  match s with
  | EmptyString => EmptyString
  | String c r =>
      if Ascii.eqb c dquote
      then String dquote (String dquote (double_quotes r))
      else String c (double_quotes r)
  end.

(** [escCSV(s)] *)
Definition escCSV (v : value) : string :=
  String dquote (double_quotes (String_of (coalesce v (VStr ""))) ++ String dquote EmptyString).

(** [a.join(sep)] on strings. *)
Fixpoint join (sep : string) (a : list string) : string :=
  match a with
  | [] => EmptyString
  | [x] => x
  | x :: r => (x ++ sep ++ join sep r)%string
  end.

Definition newline : string := String "010"%char EmptyString.

(** A row object, by its own properties; [r[h]] is [undefined] when the
    row has no column [h]. *)
Definition row_obj : Type := list (string * value).

(** The text [downloadCSV(filename, head, rows)] puts in the file. *)
Definition csv_text (head : list string) (rows : list row_obj) : string :=
  let csvHead := join ";" (map (fun h => escCSV (VStr h)) head) in
  let csvBody :=
    join newline
      (map (fun r => join ";" (map (fun h => escCSV (coalesce (get_field h r) (VStr ""))) head))
         rows) in
  (csvHead ++ newline ++ csvBody)%string.

(** The cells [renderTable(head, rows)] writes into the body of the table,
    row by row. *)
Definition table_cells (head : list string) (rows : list row_obj) : list (list string) :=
  map (fun r => map (fun h => ("<td>" ++ esc (coalesce (get_field h r) (VStr "")) ++ "</td>")%string)
                  head)
    rows.

End Text.

(* ------------------------------------------------------------------ *)
(** *** The date of a survey *)

(** [parseInt(s, 10)]: white space, an optional sign, the longest run of
    decimal digits; NaN without a digit. *)
Definition parseInt10 (s : string) : num :=
  let t := skip_ws s in
  let '(neg, body) :=
    match t with
    | String "-" r => (true, r)
    | String "+" r => (false, r)
    | _ => (false, t)
    end in
  let '(v, n, _) := read_digits body 0 0 in
  if n =? 0 then NaN else num_of_Z (if neg then - v else v).

Definition is_AP (c : ascii) : bool :=
  (Ascii.eqb c "A" || Ascii.eqb c "a" || Ascii.eqb c "P" || Ascii.eqb c "p")%bool.

Definition is_M (c : ascii) : bool := (Ascii.eqb c "M" || Ascii.eqb c "m")%bool.

(** The tail [([AP]\.?M\.?)$] of the pattern: whether the rest of the string
    is such a marker. *)
Definition match_ampm (s : string) : bool :=
  match s with
  | String a r =>
      if is_AP a then
        let r1 := match r with String "." r' => r' | _ => r end in
        match r1 with
        | String m r2 =>
            if is_M m then
              match r2 with
              | EmptyString => true
              | String "." EmptyString => true
              | _ => false
              end
            else false
        | EmptyString => false
        end
      else false
  | EmptyString => false
  end.

(** [(?::\d{2})?\s*([AP]\.?M\.?)$] after the minutes. *)
Definition match_after_minutes (s : string) : option string :=
  let r1 :=
    match s with
    | String ":" (String e1 (String e2 r)) =>
        if (is_digit e1 && is_digit e2)%bool then r else s
    | _ => s
    end in
  let r2 := skip_ws r1 in
  if match_ampm r2 then Some r2 else None.

(** [:(\d{2})] and what follows, after the hour. *)
Definition match_after_hour (g1 : string) (s : string) : option (string * string * string) :=
  match s with
  | String ":" (String d1 (String d2 r)) =>
      if (is_digit d1 && is_digit d2)%bool then
        match match_after_minutes r with
        | Some g3 => Some (g1, String d1 (String d2 EmptyString), g3)
        | None => None
        end
      else None
  | _ => None
  end.

(** [s.match(/^(\d{1,2}):(\d{2})(?::\d{2})?\s*([AP]\.?M\.?)$/i)]: the three
    groups. *)
Definition match_hora (s : string) : option (string * string * string) :=
  match s with
  | String c1 r1 =>
      if is_digit c1 then
        match r1 with
        | String c2 r2 =>
            if is_digit c2
            then match_after_hour (String c1 (String c2 EmptyString)) r2
            else match_after_hour (String c1 EmptyString) r1
        | EmptyString => None
        end
      else None
  | EmptyString => None
  end.

(** [c.toUpperCase()] on a letter of the marker. *)
Definition upper (c : ascii) : ascii :=
  let n := nat_of_ascii c in
  if (Nat.leb 97 n && Nat.leb n 122)%bool then ascii_of_nat (n - 32) else c.

Fixpoint toUpperCase (s : string) : string :=
  match s with
  | EmptyString => EmptyString
  | String c r => String (upper c) (toUpperCase r)
  end.

(** [s.replace(".", "")]: the first dot goes. *)
Fixpoint remove_first_dot (s : string) : string :=
  match s with
  | EmptyString => EmptyString
  | String c r => if Ascii.eqb c "." then r else String c (remove_first_dot r)
  end.

(** The hour and the minute [parseFechaHora] sets from [horaStr], when it
    is a string the pattern matches. *)
Definition hora_hm (horaStr : value) : option (Z * Z) :=
  match horaStr with
  | VStr s =>
      match match_hora (trim s) with
      | Some (g1, g2, g3) =>
          let '(h0, _, _) := read_digits g1 0 0 in
          let h := h0 mod 12 in
          let '(i, _, _) := read_digits g2 0 0 in
          let ampm := remove_first_dot (toUpperCase g3) in
          Some (if String.eqb ampm "PM" then h + 12 else h, i)
      | None => None
      end
  | _ => None
  end.

Section Encuestas.
Variable tz : Z.
Variable Date_local : Z -> Z -> Z -> Date.

(** The date [parseFechaHora] starts from. *)
Definition fecha_base (fechaStr : value) : Date :=
  let parts :=
    match fechaStr with
    | VStr s => if includes s "/" then map parseInt10 (split "/" s) else []
    | _ => []
    end in
  let part i := nth_error parts i in
  match part 0%nat, part 1%nat, part 2%nat with
  | Some dd, Some mm, Some yy =>
      if (truthy (VNum dd) && truthy (VNum mm) && truthy (VNum yy))%bool
      then Date_ymd Date_local yy (num_sub mm (num_of_Z 1)) dd
      else DateMs 0
  | _, _, _ => DateMs 0
  end.

(** [parseFechaHora(fechaStr, horaStr)] *)
Definition parseFechaHora (fechaStr horaStr : value) : Date :=
  let base := fecha_base fechaStr in
  match hora_hm horaStr with
  | Some (h, i) => setHours tz base h i 0 0
  | None => base
  end.

(** [whenFromEncuesta(d)], on the fields of the document it reads. *)
Definition whenFromEncuesta (timestamp fecha hora : value) : completion Date :=
  match probe_toDate timestamp with
  | NativeDate dt => Normal dt
  | NotCallable => Throw
  | NoToDate =>
      match seconds_of timestamp with
      | Some sec => Normal (Date_of_num (num_mul sec (num_of_Z 1000)))
      | None => Normal (parseFechaHora fecha hora)
      end
  end.
End Encuestas.


End Reportes.


(* ================================================================== *)
(** ** The filters the panels read from the page *)
(* ================================================================== *)

Module Panels.
Import Js Mapa Shifts.

(** The controls [rebuildSerenos] reads: the date input, the value of the
    checked shift radio (if one is checked), the search box (if present) and
    the comment box. *)
Record pageS : Type := mkPageS {
  fechaSerenos : string;
  turnoSerenos : option string;
  buscador : option string;
  soloComentario : bool
}.

(** The controls [rebuildAlertas] reads. *)
Record pageA : Type := mkPageA {
  alertMode : option string;
  fechaAlertas : string;
  turnoAlertas : option string
}.

Section Page.
Variable tz : Z.
Variable Date_local : Z -> Z -> Z -> Date.
Variable norm_text : string -> string.

(** The head of [rebuildSerenos] (personal.js). *)
Definition filtersS_of (p : pageS) : Personal.filtersS :=
  let fecha := fechaSerenos p in
  let turno := str_or_default (turnoSerenos p) "t1" in
  let texto := Personal.norm norm_text (VStr (str_or_default (buscador p) "")) in
  let onlyC := soloComentario p in
  let base := parseFecha Date_local fecha in
  let r := intervaloTurno tz base turno in
  Personal.mkFiltersS (fst r) (snd r) texto onlyC.

(** The head of [rebuildAlertas] (alertas.js), at [Date.now() = now]; the
    interval is computed in mode "range" only, where alone it is read. *)
Definition filtersA_of (p : pageA) (now : Z) : Alertas.filtersA :=
  let mode := str_or_default (alertMode p) "active" in
  let fecha := fechaAlertas p in
  let turno := str_or_default (turnoAlertas p) "todos" in
  Alertas.mkFiltersA mode now (intervaloTurno tz (parseFecha Date_local fecha) turno).
End Page.

End Panels.


(* ================================================================== *)
(** ** js/alertas.js: the snapshot handler *)
(* ================================================================== *)

Module AlertasSnapshot.
Import Js Mapa Shifts Alertas Panels.

Inductive changeType : Type := added | modified | removed.

(** A document change of a snapshot: its type, the id of the document, the
    fields of the document [rebuildAlertas] reads and its [createdAt]. *)
Record change : Type := mkChange {
  ch_type : changeType;
  ch_id : string;
  ch_data : alerta;
  createdAt : value
}.

(** A marker, by its position and whether its icon pulses. *)
Record marker : Type := mkMarker { latlng : num * num; pulse : bool }.

(** Module state: the caches [docsA] and [markersA], the markers on the
    layer [capaAlertas] (by the id they are cached under), the rows kept for
    the reports (each by the record it is built from) and [initialized]. *)
Record stateA : Type := mkStateA {
  docsA : JsMap.t recA;
  markersA : JsMap.t marker;
  capaAlertas : list string;
  allAlertasRaw : list recA;
  initialized : bool
}.

(** [m.delete(k)] *)
Definition Map_delete {V : Type} (k : string) (m : JsMap.t V) : JsMap.t V :=
  filter (fun kv => negb (String.eqb (fst kv) k)) m.

(** [capaAlertas.removeLayer(m)] and [capaAlertas.addLayer(m)]: a layer
    group holds a layer once. *)
Definition removeLayer (id : string) (capa : list string) : list string :=
  filter (fun x => negb (String.eqb x id)) capa.

Definition addLayer (capa : list string) (id : string) : list string :=
  if existsb (String.eqb id) capa then capa else capa ++ [id].

(** What the loop over [snap.docChanges()] has changed so far. *)
Record progress : Type := mkProgress {
  p_docs : JsMap.t recA;
  p_markers : JsMap.t marker;
  p_capa : list string;
  newIds : list string
}.

Definition is_added (t : changeType) : bool :=
  match t with added => true | _ => false end.

Section Handler.
Variable tz : Z.
Variable Date_parse : string -> Date.
Variable Date_local : Z -> Z -> Z -> Date.

(** The callback of [forEach], for one change. *)
Definition apply_change (init : bool) (pr : progress) (ch : change)
  : completion progress :=
  let id := ch_id ch in
  match ch_type ch with
  | removed =>
      let docs := Map_delete id (p_docs pr) in
      match JsMap.get id (p_markers pr) with
      | Some _ =>
          Normal (mkProgress docs (Map_delete id (p_markers pr))
                    (removeLayer id (p_capa pr)) (newIds pr))
      | None => Normal (mkProgress docs (p_markers pr) (p_capa pr) (newIds pr))
      end
  | _ =>
      match getWhenA Date_parse (createdAt ch) with
      | Throw => Throw
      | Normal when =>
          Normal (mkProgress (JsMap.set id (mkRecA id (ch_data ch) when) (p_docs pr))
                    (p_markers pr) (p_capa pr)
                    (if (init && is_added (ch_type ch))%bool
                     then newIds pr ++ [id] else newIds pr))
      end
  end.

(** The loop over the changes: where it got to, and whether a call raised
    (which ends the loop and the handler). *)
Fixpoint apply_changes (init : bool) (chs : list change) (pr : progress)
  : progress * bool :=
  match chs with
  | [] => (pr, false)
  | ch :: r =>
      match apply_change init pr ch with
      | Throw => (pr, true)
      | Normal pr' => apply_changes init r pr'
      end
  end.

(** [rebuildAlertas] creates or moves the marker of a shown record. *)
Definition place (pulse : bool) (ms : JsMap.t marker) (m : recA * (num * num))
  : JsMap.t marker :=
  JsMap.set (rec_id (fst m)) (mkMarker (snd m) pulse) ms.

(** The test of the flight loop on a new record, at [Date.now() = now]. *)
Definition visible (p : pageA) (now : Z) (rec : recA) : bool :=
  let mode := str_or_default (alertMode p) "active" in
  if String.eqb mode "active"
  then num_le (num_sub (num_of_Z now) (getTime (when rec))) THIRTY_MIN
  else
    let fecha := fechaAlertas p in
    let turno := str_or_default (turnoAlertas p) "todos" in
    within (when rec) (intervaloTurno tz (parseFecha Date_local fecha) turno).

(** The flight loop: the first new id with a cached record, valid
    coordinates and a visible record; the map flies to its coordinates, and
    its popup is opened if it has a marker. *)
Fixpoint first_visible (p : pageA) (now : Z) (docs : JsMap.t recA)
    (markers : JsMap.t marker) (ids : list string)
  : option (string * (num * num) * bool) :=
  match ids with
  | [] => None
  | id :: r =>
      match JsMap.get id docs with
      | None => first_visible p now docs markers r
      | Some rec =>
          match getCoords (coordsObj_of (data rec)) with
          | None => first_visible p now docs markers r
          | Some c =>
              if visible p now rec
              then Some (id, c, JsMap.has id markers)
              else first_visible p now docs markers r
          end
      end
  end.

(** What a call of the handler leaves: the state, the flight of the map (the
    id, the target, whether a popup is opened) and whether it raised. *)
Record resultA : Type := mkResultA {
  state : stateA;
  flight : option (string * (num * num) * bool);
  raised : bool
}.

(** The handler of the snapshots of "alertas"; [rebuildAlertas] reads the
    clock at [now1], the flight loop at [now2]. *)
Definition onAlertasSnapshot (p : pageA) (now1 now2 : Z) (changes : list change)
    (st : stateA) : resultA :=
  let init := initialized st in
  match apply_changes init changes
          (mkProgress (docsA st) (markersA st) (capaAlertas st) []) with
  | (pr, true) =>
      mkResultA
        (mkStateA (p_docs pr) (p_markers pr) (p_capa pr) (allAlertasRaw st) init)
        None true
  | (pr, false) =>
      let rows := Reportes.sort_rows recA when (JsMap.values (p_docs pr)) in
      let f := filtersA_of tz Date_local p now1 in
      let v := rebuildAlertas f (p_docs pr) in
      let markers := fold_left (place (String.eqb (mode f) "active")) (layer v)
                       (p_markers pr) in
      let capa := fold_left addLayer (map (fun m => rec_id (fst m)) (layer v)) [] in
      let fl :=
        if (init && negb (Nat.eqb (List.length (newIds pr)) 0))%bool
        then first_visible p now2 (p_docs pr) markers (newIds pr)
        else None in
      mkResultA (mkStateA (p_docs pr) markers capa rows true) fl false
  end.

End Handler.

End AlertasSnapshot.


(* ================================================================== *)
(** ** js/mapa.js: the list of geofences of the side panel *)
(* ================================================================== *)

Module Legend.
Import Js Mapa.

Section Compare.
(** [a.localeCompare(b)]: the host's collation. *)
Variable localeCompare : string -> string -> num.

(** The comparator of [rebuildLegend]. *)
Definition legend_compare (a b : geofence) : num :=
  let na := sectorNumber (nombre a) in
  let nb := sectorNumber (nombre b) in
  if num_neq na nb then num_sub na nb
  else localeCompare (str_or_default (nombre a) "") (str_or_default (nombre b) "").

(** The items [rebuildLegend] appends to the panel (the panel being on the
    page): the text and the colour of the swatch of each. *)
Definition rebuildLegend (st : store) : list (string * string) :=
  let list := Array_sort legend_compare (JsMap.values (geofenceById st)) in
  map (fun g => (str_or_default (nombre g) "Sector",
                 str_or_default (str_or (_color g) (color g)) "#9ca3af"))
    list.
End Compare.

End Legend.


(* ================================================================== *)
(** * Properties *)
(* ================================================================== *)

(** ** Coordinates: [toNum] and [getCoords] *)

Module CoordsFacts.
Import Js Mapa.




(** The latitude and longitude [getCoords] coerces. *)
Definition lat_of (o : coordsObj) : num :=
  toNum (coalesce (o_lat o) (coalesce (o_latitude o) (o_latitud o))).
Definition lng_of (o : coordsObj) : num :=
  toNum (coalesce (o_lng o) (coalesce (o_long o) (coalesce (o_lon o)
          (coalesce (o_longitude o) (o_longitud o))))).

(** Validation as the data model words it: both numeric, latitude in
    [-90, 90], longitude in [-180, 180]. *)
Definition fails_validation (o : coordsObj) : Prop :=
  lat_of o = NaN \/ lng_of o = NaN
  \/ num_lt (lat_of o) (num_of_Z (-90)) = true
  \/ num_gt (lat_of o) (num_of_Z 90) = true
  \/ num_lt (lng_of o) (num_of_Z (-180)) = true
  \/ num_gt (lng_of o) (num_of_Z 180) = true.

Lemma isNaN_true (x : num) : Number_isNaN x = true <-> x = NaN.
Proof. destruct x; simpl; split; congruence. Qed.

Lemma getCoords_None_iff (o : coordsObj) :
  getCoords o = None <-> fails_validation o.
Proof.
  unfold getCoords, fails_validation. fold (lat_of o) (lng_of o).
  match goal with |- context [if ?b then _ else _] => destruct b eqn:E end.
  - rewrite !orb_true_iff, !isNaN_true in E. split; [ tauto | reflexivity ].
  - split; [ discriminate | intro H ].
    match type of E with ?b = false =>
      assert (X : b = true) by (rewrite !orb_true_iff, !isNaN_true; tauto)
    end.
    congruence.
Qed.

Lemma getCoords_Some (o : coordsObj) (c : num * num) :
  getCoords o = Some c -> c = (lat_of o, lng_of o).
Proof.
  unfold getCoords. fold (lat_of o) (lng_of o).
  destruct (_ || _)%bool; congruence.
Qed.

End CoordsFacts.

Module CoordsClaims.
Import Js Mapa CoordsFacts.

Definition in_range (x : num) (lo hi : Z) : Prop :=
  num_ge x (num_of_Z lo) = true /\ num_le x (num_of_Z hi) = true.





Definition coords_10_5 : coordsObj :=
  mkCoordsObj (VStr "10,5") VUndef VUndef (VStr "20") VUndef VUndef VUndef VUndef.


(** The value read from "10,5" is the number 10.5. *)
Lemma lat_10_5_value :
  num_eq (lat_of coords_10_5) (Fin 10.5) = true /\
  getCoords coords_10_5 = Some (Fin (105 # 10), Fin (20 # 1)).
Proof. split; vm_compute; reflexivity. Qed.

End CoordsClaims.

(* ================================================================== *)
(** ** Facts about maps in insertion order *)
(* ================================================================== *)

Module JsMapFacts.
Import JsMap.

Section Facts.
Context {V : Type}.
Implicit Types (m : JsMap.t V) (k : string) (v : V).

Lemma get_set_same k v m : get k (set k v m) = Some v.
Proof.
  induction m as [|[k' v'] m IH]; simpl.
  - now rewrite String.eqb_refl.
  - destruct (String.eqb k k') eqn:E; simpl; rewrite E; auto.
Qed.

Lemma get_set_other k k' v m : k <> k' -> get k' (set k v m) = get k' m.
Proof.
  intro Hne. induction m as [|[k0 v0] m IH]; simpl.
  - destruct (String.eqb k' k) eqn:E; auto.
    apply String.eqb_eq in E. congruence.
  - destruct (String.eqb k k0) eqn:E; simpl.
    + apply String.eqb_eq in E. subst k0.
      destruct (String.eqb k' k) eqn:E'; auto.
      apply String.eqb_eq in E'. congruence.
    + now rewrite IH.
Qed.

Lemma get_In k v m : get k m = Some v -> In (k, v) m.
Proof.
  induction m as [|[k' v'] m IH]; simpl; [ discriminate |].
  destruct (String.eqb k k') eqn:E.
  - apply String.eqb_eq in E. intros [= ->]. left. now subst.
  - intro H. right. auto.
Qed.

Lemma get_None_not_key k m : get k m = None -> ~ In k (keys m).
Proof.
  induction m as [|[k' v'] m IH]; simpl; [ tauto |].
  destruct (String.eqb k k') eqn:E; [ discriminate |].
  apply String.eqb_neq in E. intros H [H' | H']; [ congruence | now apply IH ].
Qed.

Lemma In_key_get k m : In k (keys m) -> exists v, get k m = Some v.
Proof.
  induction m as [|[k' v'] m IH]; simpl; [ tauto |].
  destruct (String.eqb k k') eqn:E; [ eauto |].
  apply String.eqb_neq in E. intros [H | H]; [ congruence | auto ].
Qed.

Lemma In_get_NoDup k v m : NoDup (keys m) -> In (k, v) m -> get k m = Some v.
Proof.
  induction m as [|[k' v'] m IH]; simpl; [ tauto |].
  intros Hnd [H | H].
  - injection H as -> ->. now rewrite String.eqb_refl.
  - inversion Hnd as [|? ? Hni Hnd']; subst.
    destruct (String.eqb k k') eqn:E.
    + apply String.eqb_eq in E. subst k'. exfalso. apply Hni.
      change k with (fst (k, v)). now apply in_map.
    + auto.
Qed.

Lemma In_set k v k' v' m :
  In (k', v') (set k v m) -> (k' = k /\ v' = v) \/ In (k', v') m.
Proof.
  induction m as [|[k0 v0] m IH]; simpl.
  - intros [[= <- <-] | []]. now left.
  - destruct (String.eqb k k0) eqn:E; simpl.
    + apply String.eqb_eq in E. subst k0.
      intros [[= <- <-] | H]; [ now left | right; now right ].
    + intros [H | H]; [ right; now left |].
      destruct (IH H); [ now left | right; now right ].
Qed.

Lemma keys_set k v m :
  keys (set k v m) = if has k m then keys m else (keys m ++ [k])%list.
Proof.
  unfold has. induction m as [|[k0 v0] m IH]; simpl; [ reflexivity |].
  destruct (String.eqb k k0) eqn:E; simpl; [ reflexivity |].
  unfold keys in *. rewrite IH. now destruct (get k m).
Qed.

Lemma NoDup_keys_set k v m : NoDup (keys m) -> NoDup (keys (set k v m)).
Proof.
  intro H. rewrite keys_set. unfold has.
  destruct (get k m) eqn:E; [ exact H |].
  apply get_None_not_key in E.
  apply NoDup_rev in H. rewrite <- (rev_involutive (keys m ++ [k])).
  apply NoDup_rev. rewrite rev_app_distr. simpl.
  constructor; [ now rewrite <- in_rev | exact H ].
Qed.

Lemma In_key_set k v k' m : In k' (keys m) -> In k' (keys (set k v m)).
Proof.
  intro H. rewrite keys_set. destruct (has k m); [ exact H |].
  apply in_or_app. now left.
Qed.

Lemma In_key_set_same k v m : In k (keys (set k v m)).
Proof.
  pose proof (get_set_same k v m) as H.
  apply get_In in H. change k with (fst (k, v)). now apply in_map.
Qed.

End Facts.
End JsMapFacts.

(* ================================================================== *)
(** ** The patrol panel drops records without valid coordinates *)
(* ================================================================== *)

Module PersonalClaims.
Import Js Mapa CoordsFacts Personal JsMapFacts.

Section Latest.
Variable norm_text : string -> string.
Variable f : filtersS.

(** Every value of [latest] carries the coordinates [getCoords] gave for
    its own document. *)
Definition coords_checked (l : JsMap.t info) : Prop :=
  forall k i, In (k, i) l ->
    getCoords (coordsObj_of (i_data i)) = Some (coords i).

Lemma latest_step_checked (l : JsMap.t info) (rec : recS) :
  coords_checked l -> coords_checked (latest_step norm_text f l rec).
Proof.
  intros Hl. unfold latest_step.
  destruct (getCoords (coordsObj_of (data rec))) as [c|] eqn:Ec; [| exact Hl ].
  destruct (negb _); [ exact Hl |].
  destruct (negb _); [ exact Hl |].
  destruct (_ && _)%bool; [ exact Hl |].
  assert (Hset : forall h, coords_checked
            (JsMap.set (keyFor (data rec)) (mkInfo (data rec) (when rec) c h) l)).
  { intros h k i Hin. apply In_set in Hin. destruct Hin as [[_ ->] | Hin].
    - exact Ec.
    - now apply (Hl k). }
  destruct (JsMap.get _ l) as [prev|]; [ destruct (Date_gt _ _) |]; auto.
Qed.

Lemma fold_latest_checked (docs : list recS) (l : JsMap.t info) :
  coords_checked l ->
  coords_checked (fold_left (latest_step norm_text f) docs l).
Proof.
  revert l. induction docs as [|rec docs IH]; simpl; intros l Hl.
  - exact Hl.
  - apply IH. now apply latest_step_checked.
Qed.

Lemma build_latest_checked (docsS : JsMap.t recS) :
  coords_checked (build_latest norm_text f docsS).
Proof.
  unfold build_latest. apply fold_latest_checked. intros k i [].
Qed.

Lemma latest_step_invalid (l : JsMap.t info) (rec : recS) :
  getCoords (coordsObj_of (data rec)) = None ->
  latest_step norm_text f l rec = l.
Proof. intro H. unfold latest_step. now rewrite H. Qed.

Lemma build_latest_invalid (docs1 docs2 : JsMap.t recS) (k : string) (rec : recS) :
  getCoords (coordsObj_of (data rec)) = None ->
  build_latest norm_text f (docs1 ++ (k, rec) :: docs2)
  = build_latest norm_text f (docs1 ++ docs2).
Proof.
  intro H. unfold build_latest, JsMap.values.
  rewrite !map_app, !fold_left_app. simpl.
  now rewrite latest_step_invalid.
Qed.

End Latest.

(** C8.  A record whose coordinates fail validation (latitude or longitude
    not numeric after coercion, latitude outside [-90, 90] or longitude
    outside [-180, 180]) gets [null] from [getCoords]; the whole view that
    [rebuildSerenos] produces (the map [latest], the markers, the counter and
    the sector counts) is the one produced without that record, and no value
    of [latest] and no marker stems from it. *)
Theorem invalid_coords_excluded (norm_text : string -> string) (st : store)
    (f : filtersS) (docs1 docs2 : JsMap.t recS) (k : string) (rec : recS) :
  fails_validation (coordsObj_of (data rec)) ->
  getCoords (coordsObj_of (data rec)) = None /\
  rebuildSerenos norm_text st f (docs1 ++ (k, rec) :: docs2)
  = rebuildSerenos norm_text st f (docs1 ++ docs2) /\
  (forall k' i,
      In (k', i) (latest (rebuildSerenos norm_text st f (docs1 ++ (k, rec) :: docs2))) ->
      i_data i <> data rec) /\
  (forall k' c,
      In (k', c) (markers (rebuildSerenos norm_text st f (docs1 ++ (k, rec) :: docs2))) ->
      exists i,
        In (k', i) (latest (rebuildSerenos norm_text st f (docs1 ++ (k, rec) :: docs2)))
        /\ c = coords i /\ i_data i <> data rec).
Proof.
  intro Hbad. apply getCoords_None_iff in Hbad.
  assert (Hl : forall k' i,
             In (k', i) (latest (rebuildSerenos norm_text st f (docs1 ++ (k, rec) :: docs2))) ->
             i_data i <> data rec).
  { intros k' i Hin Heq. simpl in Hin.
    apply build_latest_checked in Hin. rewrite Heq in Hin. congruence. }
  split; [ exact Hbad |]. split; [| split ].
  - unfold rebuildSerenos. now rewrite build_latest_invalid.
  - exact Hl.
  - intros k' c Hin. simpl in Hin. apply in_map_iff in Hin.
    destruct Hin as ([k0 i] & [= <- <-] & Hin). exists i.
    split; [ exact Hin | split; [ reflexivity | now apply (Hl k0) ] ].
Qed.

Definition asistencia_lat_91 : asistencia :=
  mkAsistencia (VStr "111") (VStr "Ana") VUndef
    (VNum (num_of_Z 91)) VUndef VUndef (VNum (num_of_Z 0)) VUndef VUndef VUndef.

Definition asistencia_lng_181 : asistencia :=
  mkAsistencia (VStr "222") (VStr "Luis") VUndef
    (VNum (num_of_Z 0)) VUndef VUndef (VStr "181") VUndef VUndef VUndef.

Definition open_filters : filtersS :=
  mkFiltersS (DateMs 0) (DateMs 1000) "" false.

Lemma invalid_coords_excluded_witness :
  getCoords (coordsObj_of asistencia_lat_91) = None /\
  rebuildSerenos (fun s => s) (mkStore [] []) open_filters
    ([] ++ ("doc1", mkRecS asistencia_lat_91 (DateMs 5)) :: [])
  = rebuildSerenos (fun s => s) (mkStore [] []) open_filters ([] ++ []) /\
  (forall k' i,
      In (k', i) (latest (rebuildSerenos (fun s => s) (mkStore [] []) open_filters
                   ([] ++ ("doc1", mkRecS asistencia_lat_91 (DateMs 5)) :: []))) ->
      i_data i <> asistencia_lat_91) /\
  (forall k' c,
      In (k', c) (markers (rebuildSerenos (fun s => s) (mkStore [] []) open_filters
                    ([] ++ ("doc1", mkRecS asistencia_lat_91 (DateMs 5)) :: []))) ->
      exists i,
        In (k', i) (latest (rebuildSerenos (fun s => s) (mkStore [] []) open_filters
                     ([] ++ ("doc1", mkRecS asistencia_lat_91 (DateMs 5)) :: [])))
        /\ c = coords i /\ i_data i <> asistencia_lat_91).
Proof.
  apply (invalid_coords_excluded (fun s => s) (mkStore [] []) open_filters
           [] [] "doc1" (mkRecS asistencia_lat_91 (DateMs 5))).
  right; right; right; left. vm_compute. reflexivity.
Defined.

(** The two rejected values the specification names, and a non-numeric one. *)
Lemma rejected_examples :
  getCoords (coordsObj_of asistencia_lat_91) = None /\
  getCoords (coordsObj_of asistencia_lng_181) = None /\
  getCoords (mkCoordsObj (VStr "norte") VUndef VUndef (VNum (num_of_Z 0))
               VUndef VUndef VUndef VUndef) = None.
Proof. repeat split; vm_compute; reflexivity. Qed.

End PersonalClaims.

(* ================================================================== *)
(** ** The alert panel: which records are shown *)
(* ================================================================== *)

Module AlertasClaims.
Import Js Mapa Alertas.

Lemma Qle_bool_inject_sub (a b c : Z) :
  Qle_bool (inject_Z a + - inject_Z b) (inject_Z c) = true <-> a - b <= c.
Proof.
  rewrite Qle_bool_iff, <- inject_Z_opp, <- inject_Z_plus, <- Zle_Qle. lia.
Qed.

Lemma Qle_bool_inject (a b : Z) : Qle_bool (inject_Z a) (inject_Z b) = true <-> a <= b.
Proof. now rewrite Qle_bool_iff, <- Zle_Qle. Qed.

Lemma Qlt_bool_inject (a b : Z) : Qlt_bool (inject_Z a) (inject_Z b) = true <-> a < b.
Proof.
  unfold Qlt_bool. rewrite negb_true_iff, <- not_true_iff_false, Qle_bool_inject. lia.
Qed.

(** "active": shown exactly when the age [now - t] is at most 30 minutes. *)
Lemma include_active (f : filtersA) (w : Date) :
  mode f = "active" ->
  include f w = true <-> exists t, w = DateMs t /\ now f - 1800000 <= t.
Proof.
  intro Hm. unfold include. rewrite Hm. simpl String.eqb. cbv iota.
  destruct w as [| t]; simpl.
  - split; [ discriminate | intros (t & [=] & _) ].
  - change (Qle_bool (inject_Z (now f) + - inject_Z t) (inject_Z 1800000) = true
            <-> (exists t0, DateMs t = DateMs t0 /\ now f - 1800000 <= t0)).
    rewrite Qle_bool_inject_sub. split.
    + intro H. exists t. split; [ reflexivity | lia ].
    + intros (t0 & [= ->] & H). lia.
Qed.

(** "range": shown exactly when the time lies in [start, end). *)
Lemma include_range (f : filtersA) (w : Date) (s e : Z) :
  mode f = "range" -> range f = (DateMs s, DateMs e) ->
  include f w = true <-> exists t, w = DateMs t /\ s <= t < e.
Proof.
  intros Hm Hr. unfold include, range_start, range_end. rewrite Hm, Hr.
  simpl String.eqb. cbv iota. simpl fst. simpl snd. simpl bound_time.
  destruct w as [| t]; simpl.
  - split; [ discriminate | intros (t & [=] & _) ].
  - rewrite andb_true_iff.
    change (num_of_Z s) with (Fin (inject_Z s)).
    change (num_of_Z e) with (Fin (inject_Z e)).
    simpl. rewrite Qle_bool_inject, Qlt_bool_inject. split.
    + intro H. exists t. split; [ reflexivity | lia ].
    + intros (t0 & [= ->] & H). lia.
Qed.

Lemma rebuild_loop_spec (f : filtersA) (docs : list recA) (v : viewA) :
  layer (rebuild_loop f docs v)
  = layer v ++ flat_map (fun r => match shown f r with Some m => [m] | None => [] end) docs
  /\ visibles (rebuild_loop f docs v)
     = (visibles v + List.length
          (flat_map (fun r => match shown f r with Some m => [m] | None => [] end) docs))%nat.
Proof.
  revert v. induction docs as [|r docs IH]; intro v; simpl.
  - now rewrite app_nil_r, Nat.add_0_r.
  - destruct (shown f r) as [m|]; simpl.
    + destruct (IH (mkViewA (layer v ++ [m]) (S (visibles v)))) as [E1 E2].
      rewrite E1, E2. simpl. rewrite <- app_assoc. simpl. split; [ reflexivity | lia ].
    + apply IH.
Qed.

(** C5 as the code has it.  A record of [docsA] is put on the layer (and
    counted) exactly when it has valid coordinates and passes [include].
    In "active" mode that is: its time is valid and at least [now] minus 30
    minutes (nothing bounds it from above); in "range" mode: its time lies in
    [start, end). *)
Theorem alert_shown_iff (f : filtersA) (docsA : JsMap.t recA) (rec : recA) :
  (In rec (map fst (layer (rebuildAlertas f docsA)))
   <-> In rec (JsMap.values docsA)
       /\ getCoords (coordsObj_of (data rec)) <> None
       /\ include f (when rec) = true)
  /\ visibles (rebuildAlertas f docsA) = List.length (layer (rebuildAlertas f docsA))
  /\ (mode f = "active" ->
      (include f (when rec) = true
       <-> exists t, when rec = DateMs t /\ now f - 1800000 <= t))
  /\ (forall s e, mode f = "range" -> range f = (DateMs s, DateMs e) ->
      (include f (when rec) = true
       <-> exists t, when rec = DateMs t /\ s <= t < e)).
Proof.
  unfold rebuildAlertas.
  destruct (rebuild_loop_spec f (JsMap.values docsA) (mkViewA [] 0%nat)) as [E1 E2].
  rewrite E1, E2. simpl layer. simpl visibles. simpl app.
  split; [| split; [ reflexivity | split ] ].
  - rewrite in_map_iff. split.
    + intros ((r, c) & Hr & Hin). simpl in Hr. subst r.
      apply in_flat_map in Hin. destruct Hin as (r' & Hr' & Hm).
      unfold shown in Hm.
      destruct (getCoords (coordsObj_of (data r'))) as [c'|] eqn:Ec; [| destruct Hm ].
      destruct (include f (when r')) eqn:Ei; [| destruct Hm ].
      destruct Hm as [[= -> ->] | []].
      repeat split; auto. congruence.
    + intros (Hin & Hc & Hi).
      destruct (getCoords (coordsObj_of (data rec))) as [c|] eqn:Ec; [| congruence ].
      exists (rec, c). split; [ reflexivity |].
      apply in_flat_map. exists rec. split; [ exact Hin |].
      unfold shown. rewrite Ec, Hi. now left.
  - intro Hm. now apply include_active.
  - intros s e Hm Hr. now apply include_range.
Qed.

Definition alerta_plaza : alerta :=
  mkAlerta (VNum (num_of_Z (-12))) VUndef VUndef (VNum (num_of_Z (-77))) VUndef VUndef.

Definition active_at_1000 : filtersA :=
  mkFiltersA "active" 1000 (InvalidDate, InvalidDate).

(** C5 as stated fails: in "active" mode a record stamped after [now] is
    shown and counted, although its time is not within [now - 30 min, now]. *)
Lemma active_shows_future_alert :
  layer (rebuildAlertas active_at_1000
           [("a1", mkRecA "a1" alerta_plaza (DateMs 2000))])
  = [(mkRecA "a1" alerta_plaza (DateMs 2000), (num_of_Z (-12), num_of_Z (-77)))]
  /\ visibles (rebuildAlertas active_at_1000
                 [("a1", mkRecA "a1" alerta_plaza (DateMs 2000))]) = 1%nat
  /\ ((1000 - 1800000 <=? 2000) && (2000 <=? 1000))%bool = false.
Proof. repeat split; vm_compute; reflexivity. Qed.

End AlertasClaims.

(* ================================================================== *)
(** ** Notification: every subscriber is called once, raises are dropped *)
(* ================================================================== *)

Module NotifyClaims.
Import Notify.

Section Emit.
Variable World : Type.
Variable run : callback -> World -> outcome World.

(** The world after the callbacks of [l] have run in turn, whether each
    returned or raised. *)
Definition effects (l : list callback) (w : World) : World :=
  fold_left (fun w cb => state_of (run cb w)) l w.

Lemma emit_spec (l : list callback) (w : World) (log : list callback) :
  emit World run l (w, log) = Returned (effects l w, log ++ l).
Proof.
  revert w log. induction l as [|cb l IH]; intros w log; simpl.
  - now rewrite app_nil_r.
  - unfold emit in *. simpl. unfold try_catch, call. simpl.
    destruct (run cb w) as [w'|w'] eqn:E; simpl;
      rewrite IH, <- app_assoc; unfold effects; simpl; try rewrite E; reflexivity.
Qed.

End Emit.

(** The set of listeners after a sequence of subscriptions. *)
Definition subscribed (regs : list subscriber) : list callback :=
  fold_left (fun ls x => onUpdate x ls) regs [].

Lemma Set_has_In (cb : callback) (s : list callback) :
  Set_has cb s = true <-> In cb s.
Proof.
  unfold Set_has. rewrite existsb_exists. split.
  - intros (x & Hx & E). apply Nat.eqb_eq in E. now subst.
  - intro H. exists cb. split; [ exact H | apply Nat.eqb_refl ].
Qed.

Lemma Set_add_NoDup (cb : callback) (s : list callback) :
  NoDup s -> NoDup (Set_add cb s).
Proof.
  intro H. unfold Set_add. destruct (Set_has cb s) eqn:E; [ exact H |].
  assert (Hn : ~ In cb s).
  { intro Hin. apply Set_has_In in Hin. congruence. }
  apply NoDup_rev in H. rewrite <- (rev_involutive (s ++ [cb])).
  apply NoDup_rev. rewrite rev_app_distr. simpl.
  constructor; [ now rewrite <- in_rev | exact H ].
Qed.

Lemma Set_add_In (cb x : callback) (s : list callback) :
  In x (Set_add cb s) <-> x = cb \/ In x s.
Proof.
  unfold Set_add. destruct (Set_has cb s) eqn:E.
  - apply Set_has_In in E. split; [ now right | intros [-> | H]; auto ].
  - rewrite in_app_iff. simpl. intuition.
Qed.

Lemma subscribed_from (regs : list subscriber) (s : list callback) :
  NoDup s ->
  NoDup (fold_left (fun ls x => onUpdate x ls) regs s)
  /\ forall cb, In cb (fold_left (fun ls x => onUpdate x ls) regs s)
                <-> In (Fn cb) regs \/ In cb s.
Proof.
  revert s. induction regs as [|x regs IH]; intros s Hs; simpl.
  - split; [ exact Hs | intro cb; tauto ].
  - destruct x as [c|]; simpl.
    + destruct (IH (Set_add c s) (Set_add_NoDup c s Hs)) as [H1 H2].
      split; [ exact H1 |]. intro cb. rewrite H2, Set_add_In.
      split.
      * intros [H | [-> | H]]; auto.
      * intros [[[= ->] | H] | H]; auto.
    + destruct (IH s Hs) as [H1 H2]. split; [ exact H1 |].
      intro cb. rewrite H2. split.
      * intros [H | H]; auto.
      * intros [[[=] | H] | H]; auto.
Qed.

(** C9.  After any sequence of subscriptions, a notification returns
    normally whatever the callbacks do; the callbacks it invoked are exactly
    the registered ones, each once; the world it leaves is the one the
    callbacks' effects give, a raise being treated like a return (so the
    notification equals the one where no callback raises); and the set of
    listeners is not touched. *)
Theorem emit_calls_each_once (World : Type)
    (run : callback -> World -> outcome World)
    (regs : list subscriber) (w : World) :
  exists w' log,
    emit World run (subscribed regs) (w, []) = Returned (w', log)
    /\ log = subscribed regs
    /\ (forall cb, In (Fn cb) regs -> count_occ Nat.eq_dec log cb = 1%nat)
    /\ (forall cb, ~ In (Fn cb) regs -> count_occ Nat.eq_dec log cb = 0%nat)
    /\ w' = effects World run (subscribed regs) w
    /\ emit World run (subscribed regs) (w, [])
       = emit World (fun cb x => Returned (state_of (run cb x))) (subscribed regs) (w, []).
Proof.
  destruct (subscribed_from regs [] (NoDup_nil _)) as [Hnd Hin].
  fold (subscribed regs) in Hnd, Hin.
  exists (effects World run (subscribed regs) w), (subscribed regs).
  rewrite !emit_spec. simpl.
  repeat split.
  - intros cb H. apply NoDup_count_occ' with (decA := Nat.eq_dec); [ exact Hnd |].
    apply Hin. now left.
  - intros cb H. apply count_occ_not_In. intro H'. apply Hin in H'.
    destruct H' as [H' | []]. contradiction.
Qed.

End NotifyClaims.

(* ================================================================== *)
(** ** Timestamps: what [getWhenS] and [getWhenA] fall back to *)
(* ================================================================== *)

Module WhenClaims.
Import Js Mapa.

Section Fallback.
Variable Date_parse : string -> Date.
Variable Date_local : Z -> Z -> Z -> Date.

(** A field that is none of the shapes the functions dispatch on: no
    [toDate], no numeric [seconds], and not a string the host parses. *)
Definition no_timestamp_shape (t : value) : Prop :=
  probe_toDate t = NoToDate /\ seconds_of t = None
  /\ forall s, t = VStr s -> Date_parse s = InvalidDate.

(** [getWhenA] reaches the epoch on such a field, unless it is a number. *)
Lemma getWhenA_epoch (ct : value) :
  no_timestamp_shape ct -> (forall n, ct <> VNum n) ->
  getWhenA Date_parse ct = Normal (DateMs 0).
Proof.
  intros (Hp & Hs & Hstr) Hn. unfold getWhenA. rewrite Hp, Hs.
  destruct ct; try reflexivity.
  - now elim (Hn n).
  - now rewrite (Hstr s eq_refl).
Qed.

(** [getWhenS] reaches the epoch on such a field when [fecha] is falsy. *)
Lemma getWhenS_epoch (d : asistenciaWhen) :
  no_timestamp_shape (s_timestamp d) -> truthy (s_fecha d) = false ->
  getWhenS Date_parse Date_local d = Normal (DateMs 0).
Proof.
  intros (Hp & Hs & Hstr) Hf. unfold getWhenS. rewrite Hp, Hs, Hf.
  destruct (s_timestamp d); try reflexivity.
  now rewrite (Hstr s eq_refl).
Qed.

(** A [fecha] whose first three parts are numbers goes to the date
    constructor (month shifted by one). *)
Lemma getWhenS_fecha (d : asistenciaWhen) (dd mm yy : Q) (parts : list string) :
  no_timestamp_shape (s_timestamp d) -> truthy (s_fecha d) = true ->
  split_date (ToString (s_fecha d)) = parts ->
  part_num parts 0 = Fin dd -> part_num parts 1 = Fin mm -> part_num parts 2 = Fin yy ->
  getWhenS Date_parse Date_local d
  = Normal (Date_local (Qtrunc yy) (Qtrunc (mm + - inject_Z 1)) (Qtrunc dd)).
Proof.
  intros (Hp & Hs & Hstr) Hf Hparts H0 H1 H2. unfold getWhenS.
  rewrite Hp, Hs, Hf, Hparts, H0, H1, H2.
  destruct (s_timestamp d); try reflexivity.
  now rewrite (Hstr s eq_refl).
Qed.

End Fallback.

(** C6 at the failing input: a document with no [timestamp] and a [fecha]
    that is no date ("abc").  Whatever the host's date functions are,
    [getWhenS] returns an invalid date, not the epoch. *)
Theorem getWhenS_unparseable_fecha
    (Date_parse : string -> Date) (Date_local : Z -> Z -> Z -> Date) :
  getWhenS Date_parse Date_local (mkAsistenciaWhen VUndef (VStr "abc"))
  = Normal InvalidDate.
Proof. reflexivity. Qed.

(** A plain object whose [toDate] field is truthy is called as a function,
    which it is not: both functions raise on it. *)
Lemma toDate_field_raises
    (Date_parse : string -> Date) (Date_local : Z -> Z -> Z -> Date) :
  getWhenS Date_parse Date_local
    (mkAsistenciaWhen (VMap [("toDate", VBool true)]) VUndef) = Throw
  /\ getWhenA Date_parse (VMap [("toDate", VBool true)]) = Throw.
Proof. split; reflexivity. Qed.

End WhenClaims.

(* ================================================================== *)
(** ** Geofence layers: closing the path, skipping empty ones *)
(* ================================================================== *)

Module GeofenceClaims.
Import Js Mapa.

(** The ends of a path differ ([!==] on either coordinate). *)
Definition ends_differ (first lastp : num * num) : bool :=
  (num_neq (fst first) (fst lastp) || num_neq (snd first) (snd lastp))%bool.

Lemma closed_path_cases (p : list (num * num)) (first : num * num) (rest : list (num * num)) :
  p = first :: rest ->
  closed_path p
  = if ((2 <? List.length p)%nat && ends_differ first (last p first))%bool
    then p ++ [first] else p.
Proof. intros ->. reflexivity. Qed.

(** C7 as the code has it.  A geofence whose filtered path is empty is
    skipped: neither the geofence object nor the layer map change.
    Otherwise a layer is registered under the geofence's id, drawn from the
    filtered path, which is closed by repeating its first vertex exactly when
    it has more than two points and its ends differ; a path of one or two
    points, or one already closed, is drawn as it is. *)
Theorem drawOneGeofence_path (g : geofence) (idx : nat) (layers : JsMap.t polygon) :
  let p := parsePath (path g) in
  (p = [] -> drawOneGeofence g idx layers = (g, layers))
  /\ (p <> [] ->
      snd (drawOneGeofence g idx layers)
      = JsMap.set (id g) (L_polygon (closed_path p)) layers)
  /\ (forall first rest, p = first :: rest ->
      (2 < List.length p)%nat -> ends_differ first (last p first) = true ->
      closed_path p = p ++ [first])
  /\ (forall first rest, p = first :: rest ->
      (List.length p <= 2)%nat \/ ends_differ first (last p first) = false ->
      closed_path p = p).
Proof.
  intro p. subst p. repeat split.
  - intro H. unfold drawOneGeofence. now rewrite H.
  - intro H. unfold drawOneGeofence.
    destruct (parsePath (path g)) as [|a r]; [ congruence | reflexivity ].
  - intros first rest Hp Hlen Hd. rewrite (closed_path_cases _ _ _ Hp).
    apply Nat.ltb_lt in Hlen. now rewrite Hlen, Hd.
  - intros first rest Hp H. rewrite (closed_path_cases _ _ _ Hp).
    destruct H as [H | H].
    + apply Nat.ltb_ge in H. now rewrite H.
    + rewrite H. now rewrite andb_false_r.
Qed.

Definition two_point_geofence : geofence :=
  mkGeofence "g2" (Some "Sector 2") None
    (Some [mkPathPoint (VNum (num_of_Z 0)) (VNum (num_of_Z 0));
           mkPathPoint (VNum (num_of_Z 1)) (VNum (num_of_Z 1))])
    None.

(** C7 as stated fails on a path of two distinct points: it is not empty,
    its first vertex differs from its last, and the path drawn is the path
    itself, without the first vertex repeated at the end. *)
Lemma two_point_path_not_closed :
  parsePath (path two_point_geofence)
  = [(num_of_Z 0, num_of_Z 0); (num_of_Z 1, num_of_Z 1)]
  /\ ends_differ (num_of_Z 0, num_of_Z 0) (num_of_Z 1, num_of_Z 1) = true
  /\ snd (drawOneGeofence two_point_geofence 0 [])
     = [("g2", L_polygon [(num_of_Z 0, num_of_Z 0); (num_of_Z 1, num_of_Z 1)])]
  /\ List.length (closed_path (parsePath (path two_point_geofence))) = 2%nat.
Proof. repeat split; vm_compute; reflexivity. Qed.

End GeofenceClaims.

(* ================================================================== *)
(** ** Facts about the stable sort *)
(* ================================================================== *)

Module SortFacts.
Import Js Mapa.

Section Generic.
Context {A : Type}.
Variable comparefn : A -> A -> num.

Lemma sort_insert_perm (x : A) (l : list A) :
  Permutation (sort_insert comparefn x l) (x :: l).
Proof.
  induction l as [|y l IH]; simpl.
  - apply Permutation_refl.
  - destruct (sorts_after comparefn x y).
    + eapply Permutation_trans; [ apply perm_skip, IH | apply perm_swap ].
    + apply Permutation_refl.
Qed.

Lemma Array_sort_perm (l : list A) : Permutation (Array_sort comparefn l) l.
Proof.
  induction l as [|x l IH]; simpl.
  - apply Permutation_refl.
  - eapply Permutation_trans; [ apply sort_insert_perm | now apply perm_skip ].
Qed.

Lemma Array_sort_In (l : list A) (x : A) : In x (Array_sort comparefn l) <-> In x l.
Proof.
  split; apply Permutation_in;
    [ apply Array_sort_perm | apply Permutation_sym, Array_sort_perm ].
Qed.

(** Stability: elements that the comparator never orders among themselves
    keep their relative order. *)
Section Stable.
Variable p : A -> bool.
Hypothesis tied : forall x y, p x = true -> p y = true -> sorts_after comparefn x y = false.

Lemma filter_sort_insert (x : A) (l : list A) :
  filter p (sort_insert comparefn x l) = filter p (x :: l).
Proof.
  induction l as [|y l IH]; [ reflexivity |].
  simpl sort_insert. destruct (sorts_after comparefn x y) eqn:E; [| reflexivity ].
  simpl. simpl in IH. rewrite IH.
  destruct (p x) eqn:Ex; [| reflexivity ].
  destruct (p y) eqn:Ey; [| reflexivity ].
  rewrite (tied x y Ex Ey) in E. discriminate.
Qed.

Lemma filter_Array_sort (l : list A) :
  filter p (Array_sort comparefn l) = filter p l.
Proof.
  induction l as [|x l IH]; [ reflexivity |].
  simpl Array_sort. rewrite filter_sort_insert. simpl. now rewrite IH.
Qed.
End Stable.

(** Sortedness, for a comparator that is a total preorder on the elements
    satisfying [ok]. *)
Section Sorted.
Variable ok : A -> Prop.
Let le (x y : A) : Prop := sorts_after comparefn x y = false.
Hypothesis total : forall x y, ok x -> ok y -> sorts_after comparefn x y = true -> le y x.
Hypothesis trans : forall x y z, ok x -> ok y -> ok z -> le x y -> le y z -> le x z.

Lemma sort_insert_sorted (x : A) (l : list A) :
  ok x -> Forall ok l -> StronglySorted le l ->
  StronglySorted le (sort_insert comparefn x l).
Proof.
  intros Hx Hok Hs. induction Hs as [|y l Hs IH Hy]; simpl.
  - constructor; constructor.
  - inversion Hok as [|? ? Hoky Hokl]; subst.
    destruct (sorts_after comparefn x y) eqn:E.
    + constructor; [ now apply IH |].
      apply Forall_forall. intros z Hz.
      apply (Permutation_in _ (sort_insert_perm x l)) in Hz.
      destruct Hz as [<- | Hz].
      * now apply total.
      * rewrite Forall_forall in Hy. now apply Hy.
    + constructor; [ now constructor |].
      constructor; [ exact E |].
      apply Forall_forall. intros z Hz.
      rewrite Forall_forall in Hy, Hokl.
      apply (trans x y z); auto.
Qed.

Lemma Array_sort_sorted (l : list A) :
  Forall ok l -> StronglySorted le (Array_sort comparefn l).
Proof.
  induction l as [|x l IH]; simpl; intro H.
  - constructor.
  - inversion H as [|? ? Hx Hl]; subst. apply sort_insert_sorted.
    + exact Hx.
    + apply Forall_forall. intros z Hz. apply (proj1 (Array_sort_In _ _)) in Hz.
      rewrite Forall_forall in Hl. auto.
    + now apply IH.
Qed.
End Sorted.

End Generic.


(** Sector keys: a finite number or [+Infinity]. *)
Definition key_ok (x : num) : Prop :=
  match x with Fin _ | PInf => True | _ => False end.

Lemma after_iff (a b : num) :
  key_ok a -> key_ok b ->
  num_gt (num_sub a b) (Fin 0) = negb (num_le a b).
Proof.
  destruct a as [| |x|], b as [| |y|]; simpl; try tauto; intros _ _; try reflexivity.
  unfold Qlt_bool. f_equal.
  destruct (Qle_bool (x + - y) 0) eqn:E1, (Qle_bool x y) eqn:E2; try reflexivity.
  - apply Qle_bool_iff in E1.
    assert (H : ~ (x <= y)%Q) by (rewrite <- Qle_bool_iff; congruence). lra.
  - apply Qle_bool_iff in E2.
    assert (H : ~ (x + - y <= 0)%Q) by (rewrite <- Qle_bool_iff; congruence). lra.
Qed.

Lemma num_le_total (a b : num) :
  key_ok a -> key_ok b -> num_le a b = false -> num_le b a = true.
Proof.
  destruct a as [| |x|], b as [| |y|]; simpl; try tauto; try congruence.
  intros _ _ H.
  assert (Hn : ~ (x <= y)%Q) by (rewrite <- Qle_bool_iff; congruence).
  apply Qle_bool_iff. lra.
Qed.

Lemma num_le_trans (a b c : num) :
  num_le a b = true -> num_le b c = true -> num_le a c = true.
Proof.
  destruct a as [| |x|], b as [| |y|], c as [| |z|]; simpl; try congruence.
  rewrite !Qle_bool_iff. lra.
Qed.


End SortFacts.

(* ================================================================== *)
(** ** Counting by sector *)
(* ================================================================== *)

Module SectorFacts.
Import Js Mapa JsMapFacts SortFacts.

(** The count map [updateSectorCountsFrom] hands to [renderSectorLegend]. *)
Definition final_counts {Info : Type} (coords : Info -> num * num)
    (st : store) (latestMap : JsMap.t Info) : JsMap.t entry :=
  if (JsMap.size (geofenceLayers st) =? 0)%nat then baseSectorCountMap st
  else fold_left (fun c p => count_one st c (fst p) (snd p))
         (map coords (JsMap.values latestMap)) (baseSectorCountMap st).

Lemma chips_final_counts {Info : Type} (coords : Info -> num * num)
    (st : store) (latestMap : JsMap.t Info) :
  chips (updateSectorCountsFrom coords st latestMap)
  = renderSectorLegend (final_counts coords st latestMap).
Proof.
  unfold updateSectorCountsFrom, final_counts.
  now destruct (JsMap.size (geofenceLayers st) =? 0)%nat.
Qed.

(** An entry sits under its own label, and label and number come from the
    name of one geofence. *)
Definition entry_ok (k : string) (e : entry) : Prop :=
  label e = k /\ exists g, sectorLabel g = k /\ num_ e = sectorNumber (nombre g).

Definition counts_ok (m : JsMap.t entry) : Prop :=
  NoDup (JsMap.keys m) /\ forall k e, In (k, e) m -> entry_ok k e.

Lemma counts_ok_set (m : JsMap.t entry) (k : string) (e : entry) :
  counts_ok m -> entry_ok k e -> counts_ok (JsMap.set k e m).
Proof.
  intros [Hnd Hall] He. split.
  - now apply NoDup_keys_set.
  - intros k' e' Hin. apply In_set in Hin.
    destruct Hin as [[-> ->] | Hin]; [ exact He | now apply Hall ].
Qed.

Lemma base_entry_ok (g : geofence) : entry_ok (sectorLabel g) (base_entry g).
Proof. split; [ reflexivity | exists g; split; reflexivity ]. Qed.

Definition base_fold (gs : list geofence) (m : JsMap.t entry) : JsMap.t entry :=
  fold_left (fun m g => JsMap.set (sectorLabel g) (base_entry g) m) gs m.

Lemma base_fold_ok (gs : list geofence) (m : JsMap.t entry) :
  counts_ok m -> counts_ok (base_fold gs m).
Proof.
  revert m. induction gs as [|g gs IH]; simpl; intros m H; [ exact H |].
  apply IH. apply counts_ok_set; [ exact H | apply base_entry_ok ].
Qed.

Lemma base_fold_keys (gs : list geofence) (m : JsMap.t entry) (k : string) :
  In k (JsMap.keys m) \/ (exists g, In g gs /\ sectorLabel g = k) ->
  In k (JsMap.keys (base_fold gs m)).
Proof.
  revert m. induction gs as [|g gs IH]; simpl; intros m H.
  - destruct H as [H | (g & [] & _)]. exact H.
  - apply IH. destruct H as [H | (g' & [<- | Hg'] & Hk)].
    + left. now apply In_key_set.
    + left. subst k. apply In_key_set_same.
    + right. now exists g'.
Qed.

Lemma base_fold_zero (gs : list geofence) (m : JsMap.t entry) :
  (forall k e, In (k, e) m -> count e = 0) ->
  forall k e, In (k, e) (base_fold gs m) -> count e = 0.
Proof.
  revert m. induction gs as [|g gs IH]; simpl; intros m H; [ exact H |].
  apply IH. intros k e Hin. apply In_set in Hin.
  destruct Hin as [[_ ->] | Hin]; [ reflexivity | now apply (H k) ].
Qed.

Lemma base_ok (st : store) : counts_ok (baseSectorCountMap st).
Proof.
  apply base_fold_ok. split; [ constructor | intros k e [] ].
Qed.

Lemma base_keys (st : store) (g : geofence) :
  In g (JsMap.values (geofenceById st)) ->
  In (sectorLabel g) (JsMap.keys (baseSectorCountMap st)).
Proof.
  intro H. apply base_fold_keys. right. exists g. split; [| reflexivity ].
  now apply Array_sort_In.
Qed.

Lemma base_zero (st : store) (k : string) (e : entry) :
  In (k, e) (baseSectorCountMap st) -> count e = 0.
Proof. apply base_fold_zero. intros k' e' []. Qed.


(** The counting loop keeps the map well formed and never removes a key. *)
Lemma count_one_ok (st : store) (m : JsMap.t entry) (la ln : num) :
  counts_ok m -> counts_ok (count_one st m la ln).
Proof.
  intro H. unfold count_one.
  destruct (sectorOfPoint st la ln) as [[i g]|]; [| exact H ].
  destruct (JsMap.get (sectorLabel g) m) as [e|] eqn:E.
  - apply counts_ok_set; [ exact H |].
    destruct H as [_ Hall]. apply get_In in E. apply Hall in E.
    destruct E as [E1 E2]. split; [ exact E1 | exact E2 ].
  - apply counts_ok_set; [ exact H |].
    split; [ reflexivity | exists g; split; reflexivity ].
Qed.

Lemma count_one_keys (st : store) (m : JsMap.t entry) (la ln : num) (k : string) :
  In k (JsMap.keys m) -> In k (JsMap.keys (count_one st m la ln)).
Proof.
  intro H. unfold count_one.
  destruct (sectorOfPoint st la ln) as [[i g]|]; [| exact H ].
  destruct (JsMap.get (sectorLabel g) m); now apply In_key_set.
Qed.

Definition count_loop (st : store) (pts : list (num * num)) (m : JsMap.t entry)
  : JsMap.t entry :=
  fold_left (fun c p => count_one st c (fst p) (snd p)) pts m.

Lemma count_loop_ok (st : store) (pts : list (num * num)) (m : JsMap.t entry) :
  counts_ok m -> counts_ok (count_loop st pts m).
Proof.
  revert m. induction pts as [|p pts IH]; simpl; intros m H; [ exact H |].
  apply IH. now apply count_one_ok.
Qed.

Lemma count_loop_keys (st : store) (pts : list (num * num)) (m : JsMap.t entry)
    (k : string) :
  In k (JsMap.keys m) -> In k (JsMap.keys (count_loop st pts m)).
Proof.
  revert m. induction pts as [|p pts IH]; simpl; intros m H; [ exact H |].
  apply IH. now apply count_one_keys.
Qed.

(** The count recorded under a label (0 when the label is absent). *)
Definition count_of (lab : string) (m : JsMap.t entry) : Z :=
  match JsMap.get lab m with
  | Some e => count e
  | None => 0
  end.

(** The entity at [p] is located in a geofence whose label is [lab]. *)
Definition located_in (st : store) (lab : string) (p : num * num) : bool :=
  match sectorOfPoint st (fst p) (snd p) with
  | Some (_, g) => String.eqb (sectorLabel g) lab
  | None => false
  end.

Definition n_located (st : store) (lab : string) (pts : list (num * num)) : Z :=
  Z.of_nat (List.length (filter (located_in st lab) pts)).

Lemma count_one_count (st : store) (m : JsMap.t entry) (p : num * num) (lab : string) :
  count_of lab (count_one st m (fst p) (snd p))
  = count_of lab m + (if located_in st lab p then 1 else 0).
Proof.
  unfold count_one, located_in.
  destruct (sectorOfPoint st (fst p) (snd p)) as [[i g]|]; [| lia ].
  destruct (String.eqb (sectorLabel g) lab) eqn:E.
  - apply String.eqb_eq in E. subst lab. unfold count_of.
    destruct (JsMap.get (sectorLabel g) m) as [e|] eqn:Eg;
      rewrite get_set_same; simpl; lia.
  - apply String.eqb_neq in E. unfold count_of.
    destruct (JsMap.get (sectorLabel g) m) as [e|] eqn:Eg;
      rewrite (get_set_other _ _ _ _ E); lia.
Qed.

Lemma count_loop_count (st : store) (pts : list (num * num)) (m : JsMap.t entry)
    (lab : string) :
  count_of lab (count_loop st pts m) = count_of lab m + n_located st lab pts.
Proof.
  revert m. unfold n_located. induction pts as [|p pts IH]; simpl; intro m; [ lia |].
  fold (count_loop st pts (count_one st m (fst p) (snd p))).
  rewrite IH, count_one_count.
  destruct (located_in st lab p); simpl List.length; lia.
Qed.

Lemma base_count_of (st : store) (lab : string) :
  count_of lab (baseSectorCountMap st) = 0.
Proof.
  unfold count_of. destruct (JsMap.get lab (baseSectorCountMap st)) eqn:E;
    [| reflexivity ].
  apply get_In in E. now apply base_zero in E.
Qed.

Lemma filter_none {A : Type} (f : A -> bool) (l : list A) :
  (forall x, In x l -> f x = false) -> filter f l = [].
Proof.
  induction l as [|x l IH]; simpl; intro H; [ reflexivity |].
  rewrite (H x (or_introl eq_refl)). apply IH. intros y Hy. apply H. now right.
Qed.

(** With no layer, no point is located anywhere. *)
Lemma no_layers_no_hit (st : store) (la ln : num) :
  geofenceLayers st = [] -> sectorOfPoint st la ln = None.
Proof. intro H. unfold sectorOfPoint. now rewrite H. Qed.

Lemma final_counts_ok {Info : Type} (coords : Info -> num * num)
    (st : store) (latestMap : JsMap.t Info) :
  counts_ok (final_counts coords st latestMap).
Proof.
  unfold final_counts. destruct (_ =? _)%nat.
  - apply base_ok.
  - apply (count_loop_ok st). apply base_ok.
Qed.

Lemma final_counts_keys {Info : Type} (coords : Info -> num * num)
    (st : store) (latestMap : JsMap.t Info) (g : geofence) :
  In g (JsMap.values (geofenceById st)) ->
  In (sectorLabel g) (JsMap.keys (final_counts coords st latestMap)).
Proof.
  intro H. unfold final_counts. destruct (_ =? _)%nat.
  - now apply base_keys.
  - apply (count_loop_keys st). now apply base_keys.
Qed.

Lemma final_counts_count {Info : Type} (coords : Info -> num * num)
    (st : store) (latestMap : JsMap.t Info) (lab : string) :
  count_of lab (final_counts coords st latestMap)
  = n_located st lab (map coords (JsMap.values latestMap)).
Proof.
  unfold final_counts. destruct (JsMap.size (geofenceLayers st) =? 0)%nat eqn:E.
  - rewrite base_count_of. unfold n_located.
    apply Nat.eqb_eq in E. unfold JsMap.size in E. apply length_zero_iff_nil in E.
    rewrite filter_none; [ reflexivity |].
    intros p _. unfold located_in.
    now rewrite (no_layers_no_hit st _ _ E).
  - fold (count_loop st (map coords (JsMap.values latestMap)) (baseSectorCountMap st)).
    rewrite count_loop_count, base_count_of. lia.
Qed.

End SectorFacts.

Module SectorClaims.
Import Js Mapa JsMapFacts SortFacts SectorFacts.


(** A snapshot whose only geofence has no usable vertex: known by name, not
    drawn. *)
Definition store_without_layers : store :=
  onGeofenceSnapshot
    [mkGeofenceDoc "g7" (Some "Sector 7") None None None VUndef None (Some [])].

Definition stale_positions : JsMap.t (num * num) :=
  [("111", (num_of_Z (-12), num_of_Z (-77))); ("222", (num_of_Z 0, num_of_Z 0))].


(** After an empty snapshot the summary is the empty sequence. *)
Lemma empty_snapshot_summary :
  updateSectorCountsFrom (fun p => p) (onGeofenceSnapshot []) stale_positions
  = mkSectorUpdate [] []
  /\ chips (updateSectorCountsFrom (fun p => p) store_without_layers stale_positions)
     = [mkEntry "S7" (num_of_Z 7) "#9ca3af" "Sector 7" 0].
Proof. split; vm_compute; reflexivity. Qed.

Lemma map_label_values (m : JsMap.t entry) :
  (forall k e, In (k, e) m -> label e = k) ->
  map label (JsMap.values m) = JsMap.keys m.
Proof.
  induction m as [|[k e] m IH]; simpl; intro H; [ reflexivity |].
  rewrite (H k e (or_introl eq_refl)). f_equal. apply IH.
  intros k' e' Hin. apply H. now right.
Qed.

(** The chip rendered for a label known to the count map: it is the only
    one with that label and shows the count recorded under it. *)
Lemma chip_of_label {Info : Type} (coords : Info -> num * num)
    (st : store) (latestMap : JsMap.t Info) (lab : string) :
  In lab (JsMap.keys (final_counts coords st latestMap)) ->
  exists e,
    In e (chips (updateSectorCountsFrom coords st latestMap))
    /\ entry_ok lab e
    /\ (forall e', In e' (chips (updateSectorCountsFrom coords st latestMap)) ->
                   label e' = lab -> e' = e)
    /\ count e = n_located st lab (map coords (JsMap.values latestMap)).
Proof.
  intro Hk. rewrite chips_final_counts.
  pose proof (final_counts_ok coords st latestMap) as [Hnd Hall].
  pose proof (final_counts_count coords st latestMap lab) as Hc.
  set (m := final_counts coords st latestMap) in *.
  destruct (In_key_get _ _ Hk) as [e He].
  exists e. unfold renderSectorLegend. repeat split.
  - apply Array_sort_In. apply get_In in He.
    change e with (snd (lab, e)). now apply in_map.
  - apply get_In in He. now destruct (Hall _ _ He).
  - apply get_In in He. now destruct (Hall _ _ He).
  - intros e' He' Hl. apply Array_sort_In in He'.
    unfold JsMap.values in He'. apply in_map_iff in He'.
    destruct He' as ([k' e''] & Heq & Hin). simpl in Heq. subst e''.
    pose proof (Hall _ _ Hin) as [Hk' _]. rewrite Hl in Hk'. subst k'.
    apply (In_get_NoDup _ _ _ Hnd) in Hin. congruence.
  - unfold count_of in Hc. now rewrite He in Hc.
Qed.

Lemma chips_labels_NoDup {Info : Type} (coords : Info -> num * num)
    (st : store) (latestMap : JsMap.t Info) :
  NoDup (map label (chips (updateSectorCountsFrom coords st latestMap))).
Proof.
  rewrite chips_final_counts.
  pose proof (final_counts_ok coords st latestMap) as [Hnd Hall].
  unfold renderSectorLegend.
  eapply Permutation_NoDup.
  - apply Permutation_sym, Permutation_map, Array_sort_perm.
  - rewrite map_label_values; [ exact Hnd |].
    intros k e Hin. now destruct (Hall _ _ Hin).
Qed.

(** C3.  Two geofences with different ids whose names give the same label
    share one chip: the summary holds exactly one entry with that label, no
    label occurs twice, and the entry's count is the number of entities
    located in a geofence carrying the label, so an entity located in either
    of the two is counted there. *)
Theorem same_label_one_entry {Info : Type} (coords : Info -> num * num)
    (st : store) (latestMap : JsMap.t Info)
    (id1 id2 : string) (g1 g2 : geofence) :
  id1 <> id2 ->
  JsMap.get id1 (geofenceById st) = Some g1 ->
  JsMap.get id2 (geofenceById st) = Some g2 ->
  sectorLabel g1 = sectorLabel g2 ->
  let out := chips (updateSectorCountsFrom coords st latestMap) in
  let pts := map coords (JsMap.values latestMap) in
  NoDup (map label out)
  /\ exists e,
       In e out /\ label e = sectorLabel g1
       /\ (forall e', In e' out -> label e' = sectorLabel g1 -> e' = e)
       /\ count e = n_located st (sectorLabel g1) pts
       /\ (forall p i g, sectorOfPoint st (fst p) (snd p) = Some (i, g) ->
             g = g1 \/ g = g2 -> located_in st (sectorLabel g1) p = true).
Proof.
  intros _ H1 _ H12 out pts. split; [ apply chips_labels_NoDup |].
  assert (Hk : In (sectorLabel g1) (JsMap.keys (final_counts coords st latestMap))).
  { apply final_counts_keys. apply get_In in H1.
    change g1 with (snd (id1, g1)). now apply in_map. }
  destruct (chip_of_label coords st latestMap _ Hk) as (e & He & [Hl _] & Hu & Hc).
  exists e. repeat split; auto.
  intros p i g Hs Hg. unfold located_in. rewrite Hs.
  destruct Hg as [-> | ->]; [| rewrite <- H12 ]; apply String.eqb_refl.
Qed.

Definition unit_square (la ln : Z) : list pathPoint :=
  [mkPathPoint (VNum (num_of_Z la)) (VNum (num_of_Z ln));
   mkPathPoint (VNum (num_of_Z la)) (VNum (num_of_Z (ln + 1)));
   mkPathPoint (VNum (num_of_Z (la + 1))) (VNum (num_of_Z (ln + 1)));
   mkPathPoint (VNum (num_of_Z (la + 1))) (VNum (num_of_Z ln))].

Definition named_square (i name : string) (la ln : Z) : geofenceDoc :=
  mkGeofenceDoc i (Some name) None None None VUndef None (Some (unit_square la ln)).

(** Two geofences, both named "Sector 5", far apart. *)
Definition two_sector_5 : store :=
  onGeofenceSnapshot [named_square "g1" "Sector 5" 0 0; named_square "g2" "Sector 5" 10 10].

Definition one_in_each : JsMap.t (num * num) :=
  [("111", (Fin 0.5, Fin 0.5)); ("222", (Fin 10.5, Fin 10.5))].

Definition sector_5_a : geofence :=
  mkGeofence "g1" (Some "Sector 5") None (Some (unit_square 0 0)) (Some "#ef4444").
Definition sector_5_b : geofence :=
  mkGeofence "g2" (Some "Sector 5") None (Some (unit_square 10 10)) (Some "#f59e0b").

Lemma same_label_one_entry_witness :
  let out := chips (updateSectorCountsFrom (fun p => p) two_sector_5 one_in_each) in
  let pts := map (fun p : num * num => p) (JsMap.values one_in_each) in
  NoDup (map label out)
  /\ exists e,
       In e out /\ label e = sectorLabel sector_5_a
       /\ (forall e', In e' out -> label e' = sectorLabel sector_5_a -> e' = e)
       /\ count e = n_located two_sector_5 (sectorLabel sector_5_a) pts
       /\ (forall p i g, sectorOfPoint two_sector_5 (fst p) (snd p) = Some (i, g) ->
             g = sector_5_a \/ g = sector_5_b ->
             located_in two_sector_5 (sectorLabel sector_5_a) p = true).
Proof.
  apply (same_label_one_entry (fun p => p) two_sector_5 one_in_each
           "g1" "g2" sector_5_a sector_5_b).
  - discriminate.
  - reflexivity.
  - reflexivity.
  - reflexivity.
Defined.

(** The summary of that example: one chip "S5" counting both entities. *)
Lemma two_sector_5_summary :
  chips (updateSectorCountsFrom (fun p => p) two_sector_5 one_in_each)
  = [mkEntry "S5" (num_of_Z 5) "#f59e0b" "Sector 5" 2]
  /\ sectorOfPoint two_sector_5 (Fin 0.5) (Fin 0.5) = Some ("g1", sector_5_a)
  /\ sectorOfPoint two_sector_5 (Fin 10.5) (Fin 10.5) = Some ("g2", sector_5_b).
Proof. repeat split; vm_compute; reflexivity. Qed.

End SectorClaims.

(* ================================================================== *)
(** ** Order of the sector summary *)
(* ================================================================== *)

Module OrderFacts.
Import Js Mapa JsMapFacts SortFacts SectorFacts.




Lemma sectorNumber_key_ok (name : option string) : key_ok (sectorNumber name).
Proof. unfold sectorNumber. now destruct (first_int _). Qed.








End OrderFacts.

Module OrderClaims.
Import Js Mapa JsMapFacts SortFacts SectorFacts OrderFacts.





(** A store with the three geofences of the example, in snapshot order
    "Sector 12", "Sector 4", "Zona Norte". *)
Definition three_sectors : store :=
  onGeofenceSnapshot
    [SectorClaims.named_square "a" "Sector 12" 0 0;
     SectorClaims.named_square "b" "Sector 4" 0 5;
     SectorClaims.named_square "c" "Zona Norte" 5 5].



(** The summary of that store. *)
Lemma three_sectors_summary :
  map label (chips (updateSectorCountsFrom (fun p : num * num => p) three_sectors []))
  = ["S4"; "S12"; "Zona Norte"].
Proof. vm_compute. reflexivity. Qed.

End OrderClaims.

(* ================================================================== *)
(** ** Points on a polygon's boundary *)
(* ================================================================== *)

Module LocateFacts.
Import Js Mapa JsMapFacts.

(** The segments [pointInRing] visits: vertex [i] with vertex [j], the one
    before it (the last vertex for the first). *)
Fixpoint edges_from (pj : LatLng) (rest : list LatLng) : list (LatLng * LatLng) :=
  match rest with
  | [] => []
  | pi :: r => (pi, pj) :: edges_from pi r
  end.

Definition ring_edges (ring : list LatLng) : list (LatLng * LatLng) :=
  match ring with
  | [] => []
  | p0 :: _ => edges_from (last ring p0) ring
  end.

(** The boundary test of [pointInRing] on one segment. *)
Definition on_edge (la ln : num) (e : LatLng * LatLng) : bool :=
  onSegment ln la (lng (fst e)) (lat (fst e)) (lng (snd e)) (lat (snd e)).

Lemma pointInRing_from_edge (la ln : num) (rest : list LatLng) (pj : LatLng)
    (inside : bool) (e : LatLng * LatLng) :
  In e (edges_from pj rest) -> on_edge la ln e = true ->
  pointInRing_from la ln pj rest inside = true.
Proof.
  revert pj inside. induction rest as [|pi r IH]; simpl; intros pj inside Hin He.
  - destruct Hin.
  - destruct Hin as [<- | Hin].
    + unfold on_edge in He. simpl in He. now rewrite He.
    + destruct (onSegment ln la (lng pi) (lat pi) (lng pj) (lat pj)); [ reflexivity |].
      now apply IH.
Qed.

Lemma pointInRing_edge (la ln : num) (ring : list LatLng) (e : LatLng * LatLng) :
  In e (ring_edges ring) -> on_edge la ln e = true -> pointInRing la ln ring = true.
Proof.
  unfold ring_edges, pointInRing. destruct ring as [|p0 r]; [ intros [] |].
  apply pointInRing_from_edge.
Qed.

Lemma first_hit_app (st : store) (la ln : num) (l1 l2 : list (string * polygon)) :
  first_hit st la ln (l1 ++ l2)
  = match first_hit st la ln l1 with
    | Some r => Some r
    | None => first_hit st la ln l2
    end.
Proof.
  induction l1 as [|x l1 IH]; simpl; [ reflexivity |].
  now destruct (layer_hit st la ln x).
Qed.

Lemma layer_hit_Some (st : store) (la ln : num) (i : string) (poly : polygon)
    (g : geofence) (ring : list LatLng) :
  bounds_contains (getBounds poly) la ln = true ->
  JsMap.get i (geofenceById st) = Some g ->
  In ring (rings_of (getLatLngs poly)) ->
  (3 <= List.length ring)%nat ->
  pointInRing la ln ring = true ->
  layer_hit st la ln (i, poly) = Some (i, g).
Proof.
  intros Hb Hg Hr Hlen Hp. unfold layer_hit. simpl. rewrite Hb, Hg. simpl.
  replace (existsb (ring_hit la ln) (rings_of (getLatLngs poly))) with true;
    [ reflexivity |].
  symmetry. apply existsb_exists. exists ring. split; [ exact Hr |].
  unfold ring_hit. rewrite Hp. apply Nat.leb_le in Hlen. now rewrite Hlen.
Qed.

(** A layer that contains the point makes [sectorOfPoint] answer: with the
    first earlier layer that contains it too, else with this one. *)
Lemma located_through_layer (st : store) (la ln : num)
    (i : string) (poly : polygon) (g : geofence) (ring : list LatLng)
    (l1 l2 : list (string * polygon)) :
  geofenceLayers st = l1 ++ (i, poly) :: l2 ->
  JsMap.get i (geofenceById st) = Some g ->
  In ring (rings_of (getLatLngs poly)) ->
  (3 <= List.length ring)%nat ->
  pointInRing la ln ring = true ->
  bounds_contains (getBounds poly) la ln = true ->
  sectorOfPoint st la ln
  = match first_hit st la ln l1 with
    | Some r => Some r
    | None => Some (i, g)
    end.
Proof.
  intros Hl Hg Hr Hlen Hp Hb.
  unfold sectorOfPoint. rewrite Hl, first_hit_app. simpl.
  now rewrite (layer_hit_Some st la ln i poly g ring Hb Hg Hr Hlen Hp).
Qed.

End LocateFacts.

(** *** Points exactly on a segment, in exact arithmetic *)

Module GeometryFacts.
Import Js Mapa JsMapFacts LocateFacts.
Local Open Scope Q_scope.

Lemma Qsq_nonneg (u : Q) : 0 <= u * u.
Proof.
  destruct (Qlt_le_dec u 0) as [H | H].
  - setoid_replace (u * u) with ((- u) * (- u)) by ring.
    apply Qmult_le_0_compat; lra.
  - now apply Qmult_le_0_compat.
Qed.

Lemma between_nonneg (t u v : Q) :
  0 <= t -> t <= 1 -> 0 <= (1 - t) * t * (u * u + v * v).
Proof.
  intros H0 H1. apply Qmult_le_0_compat.
  - apply Qmult_le_0_compat; lra.
  - pose proof (Qsq_nonneg u). pose proof (Qsq_nonneg v). lra.
Qed.

Lemma between_bounds (s n a b t : Q) :
  0 <= t -> t <= 1 -> s <= a <= n -> s <= b <= n ->
  s <= a + t * (b - a) <= n.
Proof.
  intros H0 H1 [Ha1 Ha2] [Hb1 Hb2].
  assert (X1 : 0 <= (1 - t) * (a - s)) by (apply Qmult_le_0_compat; lra).
  assert (X2 : 0 <= t * (b - s)) by (apply Qmult_le_0_compat; lra).
  assert (X3 : 0 <= (1 - t) * (n - a)) by (apply Qmult_le_0_compat; lra).
  assert (X4 : 0 <= t * (n - b)) by (apply Qmult_le_0_compat; lra).
  split.
  - setoid_replace (a + t * (b - a)) with (s + ((1 - t) * (a - s) + t * (b - s))) by ring.
    lra.
  - setoid_replace (a + t * (b - a)) with (n - ((1 - t) * (n - a) + t * (n - b))) by ring.
    lra.
Qed.

(** [onSegment] on finite numbers, as two rational comparisons. *)
Lemma onSegment_Fin (px py x1 y1 x2 y2 : Q) :
  onSegment (Fin px) (Fin py) (Fin x1) (Fin y1) (Fin x2) (Fin y2)
  = (Qle_bool (Qabs ((px + - x1) * (y2 + - y1) + - ((py + - y1) * (x2 + - x1))))
              (1 # 10000000000)
     && Qle_bool ((px + - x1) * (px + - x2) + (py + - y1) * (py + - y2))
                 (1 # 10000000000))%bool.
Proof.
  unfold onSegment, eps, num_gt. simpl. unfold Qlt_bool.
  match goal with |- context [negb ?c] => now destruct c end.
Qed.

(** A point of the segment from [(x1, y1)] to [(x2, y2)] passes the
    boundary test. *)
Lemma onSegment_exact (px py x1 y1 x2 y2 t : Q) :
  0 <= t -> t <= 1 ->
  px == x1 + t * (x2 - x1) -> py == y1 + t * (y2 - y1) ->
  onSegment (Fin px) (Fin py) (Fin x1) (Fin y1) (Fin x2) (Fin y2) = true.
Proof.
  intros H0 H1 Hx Hy. rewrite onSegment_Fin. apply andb_true_iff. split.
  - apply Qle_bool_iff.
    assert (E : (px + - x1) * (y2 + - y1) + - ((py + - y1) * (x2 + - x1)) == 0)
      by (rewrite Hx, Hy; ring).
    rewrite E. discriminate.
  - apply Qle_bool_iff.
    assert (E : (px + - x1) * (px + - x2) + (py + - y1) * (py + - y2)
                == - ((1 - t) * t * ((x2 - x1) * (x2 - x1) + (y2 - y1) * (y2 - y1))))
      by (rewrite Hx, Hy; ring).
    rewrite E. pose proof (between_nonneg t (x2 - x1) (y2 - y1) H0 H1) as Hn.
    assert (Hp : 0 <= 1 # 10000000000) by discriminate. lra.
Qed.

(** A vertex with finite coordinates. *)
Definition vertex (p : Q * Q) : LatLng := mkLatLng (Fin (fst p)) (Fin (snd p)).
Definition fin_pair (p : Q * Q) : num * num := (Fin (fst p), Fin (snd p)).

(** Bounds with finite corners that enclose the point [(la, ln)]. *)
Definition encloses (b : option LatLngBounds) (la ln : Q) : Prop :=
  exists s w n e,
    b = Some (mkBounds (mkLatLng (Fin s) (Fin w)) (mkLatLng (Fin n) (Fin e)))
    /\ s <= la <= n /\ w <= ln <= e.

Definition finite_bounds (b : option LatLngBounds) : Prop :=
  b = None
  \/ exists s w n e,
       b = Some (mkBounds (mkLatLng (Fin s) (Fin w)) (mkLatLng (Fin n) (Fin e))).

Lemma Math_min_Fin (a b : Q) :
  exists m, Math_min (Fin a) (Fin b) = Fin m /\ m <= a /\ m <= b.
Proof.
  simpl. destruct (Qle_bool a b) eqn:E.
  - apply Qle_bool_iff in E. exists a. split; [ reflexivity | lra ].
  - assert (H : ~ a <= b) by (rewrite <- Qle_bool_iff; congruence).
    exists b. split; [ reflexivity | lra ].
Qed.

Lemma Math_max_Fin (a b : Q) :
  exists m, Math_max (Fin a) (Fin b) = Fin m /\ a <= m /\ b <= m.
Proof.
  simpl. destruct (Qle_bool a b) eqn:E.
  - apply Qle_bool_iff in E. exists b. split; [ reflexivity | lra ].
  - assert (H : ~ a <= b) by (rewrite <- Qle_bool_iff; congruence).
    exists a. split; [ reflexivity | lra ].
Qed.

Lemma extend_spec (b : option LatLngBounds) (p : Q * Q) :
  finite_bounds b ->
  encloses (bounds_extend b (vertex p)) (fst p) (snd p)
  /\ forall la ln, encloses b la ln -> encloses (bounds_extend b (vertex p)) la ln.
Proof.
  intros [-> | (s & w & n & e & ->)].
  - split.
    + exists (fst p), (snd p), (fst p), (snd p). simpl. repeat split; lra.
    + intros la ln (s & w & n & e & [=] & _).
  - unfold bounds_extend, vertex. simpl lat. simpl lng. simpl southWest. simpl northEast.
    destruct (Math_min_Fin (fst p) s) as (s' & -> & Hs1 & Hs2).
    destruct (Math_min_Fin (snd p) w) as (w' & -> & Hw1 & Hw2).
    destruct (Math_max_Fin (fst p) n) as (n' & -> & Hn1 & Hn2).
    destruct (Math_max_Fin (snd p) e) as (e' & -> & He1 & He2).
    split.
    + exists s', w', n', e'. repeat split; auto.
    + intros la ln (s0 & w0 & n0 & e0 & [= <- <- <- <-] & [A1 A2] & [B1 B2]).
      exists s', w', n', e'. repeat split; lra.
Qed.

Lemma encloses_finite (b : option LatLngBounds) (la ln : Q) :
  encloses b la ln -> finite_bounds b.
Proof. intros (s & w & n & e & -> & _). right. eauto. Qed.

Lemma fold_extend_spec (pts : list (Q * Q)) (b : option LatLngBounds) :
  finite_bounds b ->
  (forall p, In p pts ->
     encloses (fold_left bounds_extend (map vertex pts) b) (fst p) (snd p))
  /\ (forall la ln, encloses b la ln ->
        encloses (fold_left bounds_extend (map vertex pts) b) la ln).
Proof.
  revert b. induction pts as [|q pts IH]; simpl; intros b Hb.
  - split; [ intros p [] | auto ].
  - destruct (extend_spec b q Hb) as [H1 H2].
    destruct (IH _ (encloses_finite _ _ _ H1)) as [I1 I2].
    split.
    + intros p [<- | Hp]; [ now apply I2 | now apply I1 ].
    + intros la ln H. now apply I2, H2.
Qed.

Lemma encloses_contains (b : option LatLngBounds) (la ln : Q) :
  encloses b la ln -> bounds_contains b (Fin la) (Fin ln) = true.
Proof.
  intros (s & w & n & e & -> & [A1 A2] & [B1 B2]). simpl.
  rewrite !andb_true_iff, !Qle_bool_iff. auto.
Qed.

Lemma encloses_between (b : option LatLngBounds) (a1 a2 b1 b2 t la ln : Q) :
  encloses b a1 a2 -> encloses b b1 b2 -> 0 <= t -> t <= 1 ->
  la == a1 + t * (b1 - a1) -> ln == a2 + t * (b2 - a2) ->
  encloses b la ln.
Proof.
  intros (s & w & n & e & -> & A1 & A2) (s' & w' & n' & e' & [= <- <- <- <-] & B1 & B2)
         H0 H1 Hla Hln.
  exists s, w, n, e. split; [ reflexivity |].
  rewrite Hla, Hln. split; now apply between_bounds.
Qed.

(** The vertices of a ring's segments are vertices of the ring, and
    Leaflet's ring keeps only points it was given. *)
Lemma edges_from_In (pj : LatLng) (rest : list LatLng) (a b : LatLng) :
  In (a, b) (edges_from pj rest) -> In a rest /\ (b = pj \/ In b rest).
Proof.
  revert pj. induction rest as [|pi r IH]; simpl; intros pj H; [ destruct H |].
  destruct H as [[= <- <-] | H].
  - auto.
  - destruct (IH _ H) as [H1 [-> | H2]]; auto.
Qed.

Lemma last_In {A : Type} (l : list A) (d : A) : l <> [] -> In (last l d) l.
Proof.
  induction l as [|x l IH]; [ congruence |]. intros _.
  destruct l as [|y l]; [ now left |].
  right. apply IH. discriminate.
Qed.

Lemma ring_edges_In (ring : list LatLng) (a b : LatLng) :
  In (a, b) (ring_edges ring) -> In a ring /\ In b ring.
Proof.
  unfold ring_edges. destruct ring as [|p0 r]; [ intros [] |].
  intro H. apply edges_from_In in H. destruct H as [H1 [-> | H2]]; split; auto.
  apply last_In. discriminate.
Qed.

Lemma removelast_In {A : Type} (l : list A) (x : A) : In x (removelast l) -> In x l.
Proof.
  induction l as [|y l IH]; simpl; [ auto |].
  destruct l as [|z l]; [ intros [] |].
  intros [-> | H]; [ now left | right; now apply IH ].
Qed.

Lemma drop_closing_In (ring : list LatLng) (x : LatLng) :
  In x (drop_closing ring) -> In x ring.
Proof.
  unfold drop_closing. destruct ring as [|p [|q r]]; auto.
  destruct (LatLng_equals _ _); auto. apply removelast_In.
Qed.

Lemma L_polygon_vertices (pts : list (Q * Q)) :
  getBounds (L_polygon (map fin_pair pts))
  = fold_left bounds_extend (map vertex pts) None
  /\ getLatLngs (L_polygon (map fin_pair pts)) = [drop_closing (map vertex pts)].
Proof.
  unfold L_polygon. simpl. rewrite map_map. split; reflexivity.
Qed.

(** A point exactly on a segment of a polygon drawn from finite vertices
    passes the boundary test on that segment and lies within the layer's
    bounds. *)
Lemma exact_point_on_layer (pts : list (Q * Q)) (ring : list LatLng)
    (a b : LatLng) (t la ln : Q) :
  In ring (rings_of (getLatLngs (L_polygon (map fin_pair pts)))) ->
  In (a, b) (ring_edges ring) ->
  0 <= t -> t <= 1 ->
  exists a1 a2 b1 b2,
    a = vertex (a1, a2) /\ b = vertex (b1, b2)
    /\ (la == a1 + t * (b1 - a1) -> ln == a2 + t * (b2 - a2) ->
        on_edge (Fin la) (Fin ln) (a, b) = true
        /\ bounds_contains (getBounds (L_polygon (map fin_pair pts))) (Fin la) (Fin ln)
           = true).
Proof.
  destruct (L_polygon_vertices pts) as [Eb El]. rewrite Eb, El. simpl rings_of.
  intros [<- | []] He H0 H1.
  apply ring_edges_In in He. destruct He as [Ha Hb].
  apply drop_closing_In in Ha, Hb.
  apply in_map_iff in Ha, Hb.
  destruct Ha as ([a1 a2] & <- & Ha), Hb as ([b1 b2] & <- & Hb).
  exists a1, a2, b1, b2. split; [ reflexivity | split; [ reflexivity |] ].
  intros Hla Hln. split.
  - unfold on_edge, vertex. simpl. now apply (onSegment_exact ln la a2 a1 b2 b1 t).
  - apply encloses_contains.
    destruct (fold_extend_spec pts None (or_introl eq_refl)) as [H _].
    apply (encloses_between _ a1 a2 b1 b2 t); auto.
    + apply (H (a1, a2) Ha).
    + apply (H (b1, b2) Hb).
Qed.

(** Hence a point exactly on an edge of a geofence drawn from finite
    vertices is located: in the first earlier layer that contains it, else
    in that geofence. *)
Lemma exact_boundary_point_located (st : store) (i : string) (pts : list (Q * Q))
    (g : geofence) (ring : list LatLng) (a b : LatLng) (t la ln : Q)
    (l1 l2 : list (string * polygon)) :
  geofenceLayers st = l1 ++ (i, L_polygon (map fin_pair pts)) :: l2 ->
  JsMap.get i (geofenceById st) = Some g ->
  In ring (rings_of (getLatLngs (L_polygon (map fin_pair pts)))) ->
  (3 <= List.length ring)%nat ->
  In (a, b) (ring_edges ring) ->
  0 <= t -> t <= 1 ->
  exists a1 a2 b1 b2,
    a = vertex (a1, a2) /\ b = vertex (b1, b2)
    /\ (la == a1 + t * (b1 - a1) -> ln == a2 + t * (b2 - a2) ->
        pointInRing (Fin la) (Fin ln) ring = true
        /\ sectorOfPoint st (Fin la) (Fin ln)
           = match first_hit st (Fin la) (Fin ln) l1 with
             | Some r => Some r
             | None => Some (i, g)
             end).
Proof.
  intros Hl Hg Hr Hlen He H0 H1.
  destruct (exact_point_on_layer pts ring a b t la ln Hr He H0 H1)
    as (a1 & a2 & b1 & b2 & Ea & Eb & H).
  exists a1, a2, b1, b2. split; [ exact Ea | split; [ exact Eb |] ].
  intros Hla Hln. destruct (H Hla Hln) as [Hon Hb].
  assert (Hp : pointInRing (Fin la) (Fin ln) ring = true)
    by (now apply (pointInRing_edge _ _ ring (a, b))).
  split; [ exact Hp |].
  now apply (located_through_layer st _ _ i (L_polygon (map fin_pair pts)) g ring l1 l2).
Qed.

End GeometryFacts.

Module LocateClaims.
Import Js Mapa JsMapFacts LocateFacts.

(** C1 as the code has it.  When the boundary test passes on a segment of
    a ring with at least three vertices, [pointInRing] reports the point as
    inside.  If moreover the point lies within the layer's bounds and the
    layer's geofence is known, [sectorOfPoint] does not return none: it
    returns the first layer, in insertion order, that contains the point,
    which is this layer unless an earlier one contains the point as well. *)
Theorem boundary_point_located (st : store) (la ln : num)
    (i : string) (poly : polygon) (g : geofence)
    (ring : list LatLng) (e : LatLng * LatLng)
    (l1 l2 : list (string * polygon)) :
  geofenceLayers st = l1 ++ (i, poly) :: l2 ->
  JsMap.get i (geofenceById st) = Some g ->
  In ring (rings_of (getLatLngs poly)) ->
  (3 <= List.length ring)%nat ->
  In e (ring_edges ring) -> on_edge la ln e = true ->
  bounds_contains (getBounds poly) la ln = true ->
  pointInRing la ln ring = true
  /\ sectorOfPoint st la ln
     = match first_hit st la ln l1 with
       | Some r => Some r
       | None => Some (i, g)
       end
  /\ sectorOfPoint st la ln <> None.
Proof.
  intros Hl Hg Hr Hlen He Hon Hb.
  assert (Hp : pointInRing la ln ring = true) by (now apply (pointInRing_edge la ln ring e)).
  pose proof (located_through_layer st la ln i poly g ring l1 l2 Hl Hg Hr Hlen Hp Hb) as E.
  split; [ exact Hp | split; [ exact E |] ].
  rewrite E. destruct (first_hit st la ln l1); discriminate.
Qed.

(** Two unit squares side by side: "a" spans longitudes 0 to 1, "b"
    longitudes 1 to 2; they share the edge at longitude 1. *)
Definition adjacent_sectors : store :=
  onGeofenceSnapshot
    [SectorClaims.named_square "a" "Sector 1" 0 0;
     SectorClaims.named_square "b" "Sector 2" 0 1].

Definition ring_a : list LatLng :=
  [mkLatLng (Fin 0) (Fin 0); mkLatLng (Fin 0) (Fin 1);
   mkLatLng (Fin 1) (Fin 1); mkLatLng (Fin 1) (Fin 0)].
Definition ring_b : list LatLng :=
  [mkLatLng (Fin 0) (Fin 1); mkLatLng (Fin 0) (Fin 2);
   mkLatLng (Fin 1) (Fin 2); mkLatLng (Fin 1) (Fin 1)].

Definition geofence_a : geofence :=
  mkGeofence "a" (Some "Sector 1") None (Some (SectorClaims.unit_square 0 0)) (Some "#ef4444").
Definition geofence_b : geofence :=
  mkGeofence "b" (Some "Sector 2") None (Some (SectorClaims.unit_square 0 1)) (Some "#f59e0b").

Lemma boundary_point_located_witness :
  pointInRing (Fin 0.5) (Fin 1) ring_b = true
  /\ sectorOfPoint adjacent_sectors (Fin 0.5) (Fin 1)
     = match first_hit adjacent_sectors (Fin 0.5) (Fin 1)
               [("a", L_polygon [(Fin 0, Fin 0); (Fin 0, Fin 1); (Fin 1, Fin 1); (Fin 1, Fin 0);
                                 (Fin 0, Fin 0)])] with
       | Some r => Some r
       | None => Some ("b", geofence_b)
       end
  /\ sectorOfPoint adjacent_sectors (Fin 0.5) (Fin 1) <> None.
Proof.
  apply (boundary_point_located adjacent_sectors (Fin 0.5) (Fin 1)
           "b" (L_polygon [(Fin 0, Fin 1); (Fin 0, Fin 2); (Fin 1, Fin 2); (Fin 1, Fin 1);
                           (Fin 0, Fin 1)])
           geofence_b ring_b
           (mkLatLng (Fin 0) (Fin 1), mkLatLng (Fin 1) (Fin 1))
           [("a", L_polygon [(Fin 0, Fin 0); (Fin 0, Fin 1); (Fin 1, Fin 1); (Fin 1, Fin 0);
                             (Fin 0, Fin 0)])] []).
  - reflexivity.
  - reflexivity.
  - left. reflexivity.
  - simpl. lia.
  - left. reflexivity.
  - reflexivity.
  - reflexivity.
Defined.

(** C1 as stated fails in two ways.  (1) The point (0.5, 1) lies on the
    edge the two squares share, hence on the boundary of "b", and
    [sectorOfPoint] returns "a", the earlier layer.  (2) The point
    (-1e-11, 0.5) passes the boundary test on the lower edge of "a" (its
    cross product is 1e-11), so [pointInRing] reports it inside, but it is
    outside the bounds of every layer and [sectorOfPoint] returns none. *)
Lemma boundary_point_other_or_none :
  (getLatLngs (L_polygon [(Fin 0, Fin 1); (Fin 0, Fin 2); (Fin 1, Fin 2); (Fin 1, Fin 1);
                          (Fin 0, Fin 1)]) = [ring_b]
   /\ JsMap.get "b" (geofenceLayers adjacent_sectors)
      = Some (L_polygon [(Fin 0, Fin 1); (Fin 0, Fin 2); (Fin 1, Fin 2); (Fin 1, Fin 1);
                         (Fin 0, Fin 1)])
   /\ on_edge (Fin 0.5) (Fin 1) (mkLatLng (Fin 0) (Fin 1), mkLatLng (Fin 1) (Fin 1)) = true
   /\ In (mkLatLng (Fin 0) (Fin 1), mkLatLng (Fin 1) (Fin 1)) (ring_edges ring_b)
   /\ pointInRing (Fin 0.5) (Fin 1) ring_b = true
   /\ sectorOfPoint adjacent_sectors (Fin 0.5) (Fin 1) = Some ("a", geofence_a))
  /\
  (JsMap.get "a" (geofenceLayers adjacent_sectors)
   = Some (mkPolygon (Some (mkBounds (mkLatLng (Fin 0) (Fin 0)) (mkLatLng (Fin 1) (Fin 1))))
             [ring_a])
   /\ on_edge (Fin (-1 # 100000000000)) (Fin 0.5)
        (mkLatLng (Fin 0) (Fin 1), mkLatLng (Fin 0) (Fin 0)) = true
   /\ In (mkLatLng (Fin 0) (Fin 1), mkLatLng (Fin 0) (Fin 0)) (ring_edges ring_a)
   /\ pointInRing (Fin (-1 # 100000000000)) (Fin 0.5) ring_a = true
   /\ sectorOfPoint adjacent_sectors (Fin (-1 # 100000000000)) (Fin 0.5) = None).
Proof.
  split; repeat split; try (vm_compute; reflexivity).
  - left. reflexivity.
  - right. left. reflexivity.
Qed.

End LocateClaims.

(* ================================================================== *)
(** ** Further properties of the sector summary and of [latest] *)
(* ================================================================== *)

Module SummaryExtras.
Import Js Mapa JsMapFacts SortFacts SectorFacts.

(** The geofence "g1" named "Sector 4" over the unit square at the origin. *)
Definition sector_4_only : store :=
  onGeofenceSnapshot [SectorClaims.named_square "g1" "Sector 4" 0 0].

(** An entity at (0.5, 0.5) is counted in "S4"; one at (5, 5) is located
    nowhere and "S4" stays at 0. *)
Lemma sector_4_counts :
  chips (updateSectorCountsFrom (fun p => p) sector_4_only [("111", (Fin 0.5, Fin 0.5))])
  = [mkEntry "S4" (num_of_Z 4) "#ef4444" "Sector 4" 1]
  /\ sectorOfPoint sector_4_only (num_of_Z 5) (num_of_Z 5) = None
  /\ chips (updateSectorCountsFrom (fun p => p) sector_4_only
              [("111", (num_of_Z 5, num_of_Z 5))])
     = [mkEntry "S4" (num_of_Z 4) "#ef4444" "Sector 4" 0].
Proof. repeat split; vm_compute; reflexivity. Qed.

Lemma layer_hit_known (st : store) (la ln : num) (x : string * polygon)
    (i : string) (g : geofence) :
  layer_hit st la ln x = Some (i, g) -> In g (JsMap.values (geofenceById st)).
Proof.
  unfold layer_hit. destruct (negb _); [ discriminate |].
  destruct (JsMap.get (fst x) (geofenceById st)) as [g'|] eqn:E; [| discriminate ].
  destruct (existsb _ _); [| discriminate ].
  intros [= _ <-]. apply get_In in E.
  change g' with (snd (fst x, g')). now apply in_map.
Qed.

(** A geofence returned by [sectorOfPoint] is one of [geofenceById]. *)
Lemma sectorOfPoint_known (st : store) (la ln : num) (i : string) (g : geofence) :
  sectorOfPoint st la ln = Some (i, g) -> In g (JsMap.values (geofenceById st)).
Proof.
  unfold sectorOfPoint. induction (geofenceLayers st) as [|x l IH]; simpl; [ discriminate |].
  destruct (layer_hit st la ln x) as [[i' g']|] eqn:E.
  - intros [= <- <-]. now apply (layer_hit_known st la ln x i').
  - exact IH.
Qed.

Lemma count_one_same_keys (st : store) (m : JsMap.t entry) (la ln : num) :
  (forall g, In g (JsMap.values (geofenceById st)) -> In (sectorLabel g) (JsMap.keys m)) ->
  JsMap.keys (count_one st m la ln) = JsMap.keys m.
Proof.
  intro H. unfold count_one.
  destruct (sectorOfPoint st la ln) as [[i g]|] eqn:E; [| reflexivity ].
  apply sectorOfPoint_known, H, In_key_get in E. destruct E as [e He].
  rewrite He, keys_set. unfold JsMap.has. now rewrite He.
Qed.

Lemma count_loop_same_keys (st : store) (pts : list (num * num)) (m : JsMap.t entry) :
  (forall g, In g (JsMap.values (geofenceById st)) -> In (sectorLabel g) (JsMap.keys m)) ->
  JsMap.keys (count_loop st pts m) = JsMap.keys m.
Proof.
  revert m. induction pts as [|p pts IH]; simpl; intros m H; [ reflexivity |].
  fold (count_loop st pts (count_one st m (fst p) (snd p))).
  rewrite IH; [ now apply count_one_same_keys |].
  intros g Hg. rewrite count_one_same_keys by exact H. now apply H.
Qed.

Lemma base_fold_keys_inv (gs : list geofence) (m : JsMap.t entry) (k : string) :
  In k (JsMap.keys (base_fold gs m)) ->
  In k (JsMap.keys m) \/ exists g, In g gs /\ sectorLabel g = k.
Proof.
  revert m. induction gs as [|g gs IH]; simpl; intros m H; [ now left |].
  apply IH in H. destruct H as [H | (g' & Hg' & Hk)].
  - rewrite keys_set in H. destruct (JsMap.has _ m); [ now left |].
    apply in_app_or in H. destruct H as [H | [<- | []]]; [ now left |].
    right. exists g. auto.
  - right. exists g'. auto.
Qed.

(** The labels of the summary are those of the known geofences, whatever
    the positions: counting never adds an entry to the base map (the branch
    of [updateSectorCountsFrom] that would is not taken). *)
Theorem summary_labels_are_base_labels {Info : Type} (coords : Info -> num * num)
    (st : store) (latestMap : JsMap.t Info) :
  JsMap.keys (final_counts coords st latestMap) = JsMap.keys (baseSectorCountMap st)
  /\ Permutation (map label (chips (updateSectorCountsFrom coords st latestMap)))
       (JsMap.keys (baseSectorCountMap st))
  /\ forall e, In e (chips (updateSectorCountsFrom coords st latestMap)) ->
       exists g, In g (JsMap.values (geofenceById st)) /\ label e = sectorLabel g.
Proof.
  assert (K : JsMap.keys (final_counts coords st latestMap)
              = JsMap.keys (baseSectorCountMap st)).
  { unfold final_counts. destruct (_ =? _)%nat; [ reflexivity |].
    apply (count_loop_same_keys st). intros g Hg. now apply base_keys. }
  assert (P : Permutation (map label (chips (updateSectorCountsFrom coords st latestMap)))
                (JsMap.keys (baseSectorCountMap st))).
  { rewrite chips_final_counts, <- K. unfold renderSectorLegend.
    eapply Permutation_trans; [ apply Permutation_map, Array_sort_perm |].
    rewrite SectorClaims.map_label_values; [ apply Permutation_refl |].
    intros k e Hin.
    destruct (final_counts_ok coords st latestMap) as [_ Hall].
    now destruct (Hall _ _ Hin). }
  split; [ exact K | split; [ exact P |] ].
  intros e He.
  assert (Hk : In (label e) (JsMap.keys (baseSectorCountMap st))).
  { apply (Permutation_in _ P). now apply in_map. }
  apply base_fold_keys_inv in Hk. destruct Hk as [[] | (g & Hg & Hl)].
  exists g. split; [| now symmetry ].
  now apply (proj1 (Array_sort_In by_sector _ g)).
Qed.

End SummaryExtras.

Module LatestExtras.
Import Js Mapa JsMapFacts Personal.

Section Latest.
Variable norm_text : string -> string.
Variable f : filtersS.

(** The filters of [rebuildSerenos] on one cached record. *)
Definition passes (rec : recS) : bool :=
  match getCoords (coordsObj_of (data rec)) with
  | None => false
  | Some _ =>
      (Date_ge (when rec) (f_start f) && Date_lt (when rec) (f_end f)
       && (String.eqb (texto f) ""
           || includes (norm norm_text (a_nombre (data rec))) (texto f)
           || includes
                (norm norm_text (VStr (if truthy (dni (data rec))
                                       then ToString (dni (data rec)) else "")))
                (texto f))
       && negb (onlyC f
                && negb (negb (String.eqb (trimmed_if_truthy (comentario (data rec))) ""))))%bool
  end.

(** The value stored for a record. *)
Definition info_of (rec : recS) (i : info) : Prop :=
  i_data i = data rec /\ i_when i = when rec
  /\ getCoords (coordsObj_of (data rec)) = Some (coords i).

Lemma latest_step_cases (l : JsMap.t info) (rec : recS) :
  (passes rec = false /\ latest_step norm_text f l rec = l)
  \/ (passes rec = true
      /\ exists i, info_of rec i
         /\ latest_step norm_text f l rec
            = match JsMap.get (keyFor (data rec)) l with
              | Some prev =>
                  if Date_gt (when rec) (i_when prev)
                  then JsMap.set (keyFor (data rec)) i l else l
              | None => JsMap.set (keyFor (data rec)) i l
              end).
Proof.
  unfold passes, latest_step.
  destruct (getCoords (coordsObj_of (data rec))) as [c|] eqn:Ec; [| now left ].
  set (w := (Date_ge (when rec) (f_start f) && Date_lt (when rec) (f_end f))%bool).
  set (tx := (String.eqb (texto f) ""
              || includes (norm norm_text (a_nombre (data rec))) (texto f)
              || includes
                   (norm norm_text (VStr (if truthy (dni (data rec))
                                          then ToString (dni (data rec)) else "")))
                   (texto f))%bool).
  set (hc := negb (String.eqb (trimmed_if_truthy (comentario (data rec))) "")).
  destruct w; simpl; [| now left ].
  destruct tx; simpl; [| now left ].
  destruct (onlyC f && negb hc)%bool; simpl; [ now left |].
  right. split; [ reflexivity |].
  exists (mkInfo (data rec) (when rec) c hc). split; [| reflexivity ]. now split.
Qed.

(** A record that passes the filters has a valid time. *)
Lemma passes_valid_time (rec : recS) :
  passes rec = true -> exists t, when rec = DateMs t.
Proof.
  unfold passes. destruct (getCoords _); [| discriminate ].
  destruct (when rec) as [|t]; [| eauto ].
  assert (E : Date_ge InvalidDate (f_start f) = false).
  { unfold Date_ge, num_ge. simpl. now destruct (getTime (f_start f)). }
  rewrite E. discriminate.
Qed.

Lemma Date_gt_irrefl (d : Date) : Date_gt d d = false.
Proof.
  destruct d as [|t]; [ reflexivity |].
  unfold Date_gt, num_gt. simpl. unfold Qlt_bool.
  apply negb_false_iff, Qle_bool_iff. lra.
Qed.

Lemma Date_gt_trans_neg (a p r : Z) :
  Date_gt (DateMs a) (DateMs p) = false -> Date_gt (DateMs r) (DateMs p) = true ->
  Date_gt (DateMs a) (DateMs r) = false.
Proof.
  unfold Date_gt, num_gt. simpl. unfold Qlt_bool.
  rewrite !negb_false_iff, negb_true_iff, <- not_true_iff_false, !Qle_bool_iff. lra.
Qed.

(** What the loop maintains over the records [seen] so far. *)
Record latest_inv (seen : list recS) (l : JsMap.t info) : Prop := {
  inv_nodup : NoDup (JsMap.keys l);
  inv_from : forall k i, In (k, i) l ->
      exists rec, In rec seen /\ passes rec = true
                  /\ keyFor (data rec) = k /\ info_of rec i;
  inv_newest : forall k i rec, In (k, i) l -> In rec seen -> passes rec = true ->
      keyFor (data rec) = k -> Date_gt (when rec) (i_when i) = false;
  inv_covers : forall rec, In rec seen -> passes rec = true ->
      In (keyFor (data rec)) (JsMap.keys l)
}.

Lemma In_set_strong {V : Type} (m : JsMap.t V) (k k' : string) (v v' : V) :
  NoDup (JsMap.keys m) -> In (k', v') (JsMap.set k v m) ->
  (k' = k /\ v' = v) \/ (k' <> k /\ In (k', v') m).
Proof.
  intros Hnd Hin.
  apply (In_get_NoDup _ _ _ (NoDup_keys_set k v m Hnd)) in Hin.
  destruct (String.eqb k k') eqn:E.
  - apply String.eqb_eq in E. subst k'. rewrite get_set_same in Hin.
    left. split; congruence.
  - apply String.eqb_neq in E. rewrite (get_set_other _ _ _ _ E) in Hin.
    right. split; [ congruence | now apply get_In ].
Qed.

Lemma latest_inv_step (seen : list recS) (l : JsMap.t info) (rec : recS) :
  latest_inv seen l -> latest_inv (seen ++ [rec]) (latest_step norm_text f l rec).
Proof.
  intros [Hnd Hfrom Hnew Hcov].
  destruct (latest_step_cases l rec) as [[Hp ->] | (Hp & i & Hi & ->)].
  - (* filtered out *)
    split; auto.
    + intros k i Hin. destruct (Hfrom k i Hin) as (r & Hr & H).
      exists r. split; [ apply in_or_app; now left | exact H ].
    + intros k i r Hin Hr Hpr. apply in_app_or in Hr.
      destruct Hr as [Hr | [<- | []]]; [ now apply Hnew | congruence ].
    + intros r Hr Hpr. apply in_app_or in Hr.
      destruct Hr as [Hr | [<- | []]]; [ now apply Hcov | congruence ].
  - set (k0 := keyFor (data rec)) in *.
    assert (Hset : forall prev_newest : (forall r, In r seen -> passes r = true ->
                       keyFor (data r) = k0 -> Date_gt (when r) (when rec) = false),
               latest_inv (seen ++ [rec]) (JsMap.set k0 i l)).
    { intro Hold. split.
      - now apply NoDup_keys_set.
      - intros k i' Hin. apply (In_set_strong _ _ _ _ _ Hnd) in Hin.
        destruct Hin as [[-> ->] | [_ Hin]].
        + exists rec. split; [ apply in_or_app; right; now left | auto ].
        + destruct (Hfrom k i' Hin) as (r & Hr & H).
          exists r. split; [ apply in_or_app; now left | exact H ].
      - intros k i' r Hin Hr Hpr Hk. apply (In_set_strong _ _ _ _ _ Hnd) in Hin.
        apply in_app_or in Hr.
        destruct Hin as [[-> ->] | [Hne Hin]].
        + destruct Hi as [_ [-> _]].
          destruct Hr as [Hr | [<- | []]]; [ now apply Hold | apply Date_gt_irrefl ].
        + destruct Hr as [Hr | [<- | []]];
            [ now apply (Hnew k) | unfold k0 in Hne; congruence ].
      - intros r Hr Hpr. apply in_app_or in Hr.
        destruct Hr as [Hr | [<- | []]].
        + apply In_key_set. now apply Hcov.
        + apply In_key_set_same. }
    destruct (JsMap.get k0 l) as [prev|] eqn:Eg.
    + apply get_In in Eg.
      destruct (Date_gt (when rec) (i_when prev)) eqn:Egt.
      * apply Hset. intros r Hr Hpr Hk.
        pose proof (Hnew k0 prev r Eg Hr Hpr Hk) as Hle.
        destruct (passes_valid_time r Hpr) as [a Ea].
        destruct (passes_valid_time rec Hp) as [b Eb].
        destruct (Hfrom k0 prev Eg) as (r' & _ & Hp' & _ & _ & Hw & _).
        destruct (passes_valid_time r' Hp') as [p Epp].
        rewrite Hw, Epp in Hle, Egt. rewrite Ea in Hle |- *. rewrite Eb in Egt |- *.
        now apply (Date_gt_trans_neg a p b).
      * split; auto.
        -- intros k i' Hin. destruct (Hfrom k i' Hin) as (r & Hr & H).
           exists r. split; [ apply in_or_app; now left | exact H ].
        -- intros k i' r Hin Hr Hpr Hk. apply in_app_or in Hr.
           destruct Hr as [Hr | [<- | []]]; [ now apply (Hnew k) |].
           subst k. fold k0 in Hin.
           apply (In_get_NoDup _ _ _ Hnd) in Hin, Eg.
           assert (i' = prev) by congruence. now subst.
        -- intros r Hr Hpr. apply in_app_or in Hr.
           destruct Hr as [Hr | [<- | []]]; [ now apply Hcov |].
           fold k0. apply (in_map fst) in Eg. exact Eg.
    + apply Hset. intros r Hr Hpr Hk.
      apply get_None_not_key in Eg. elim Eg. rewrite <- Hk. now apply Hcov.
Qed.

Lemma latest_inv_fold (docs seen : list recS) (l : JsMap.t info) :
  latest_inv seen l ->
  latest_inv (seen ++ docs) (fold_left (latest_step norm_text f) docs l).
Proof.
  revert seen l. induction docs as [|rec docs IH]; simpl; intros seen l H.
  - now rewrite app_nil_r.
  - replace (seen ++ rec :: docs) with ((seen ++ [rec]) ++ docs)
      by (rewrite <- app_assoc; reflexivity).
    apply IH. now apply latest_inv_step.
Qed.

(** [latest] holds, for each identity with a record that passes the
    filters, one such record, and no record of that identity that passes the
    filters is more recent. *)
Theorem latest_is_most_recent (docsS : JsMap.t recS) :
  NoDup (JsMap.keys (build_latest norm_text f docsS))
  /\ (forall k i, In (k, i) (build_latest norm_text f docsS) ->
        exists rec, In rec (JsMap.values docsS) /\ passes rec = true
                    /\ keyFor (data rec) = k /\ info_of rec i)
  /\ (forall k i rec, In (k, i) (build_latest norm_text f docsS) ->
        In rec (JsMap.values docsS) -> passes rec = true -> keyFor (data rec) = k ->
        Date_gt (when rec) (i_when i) = false)
  /\ (forall rec, In rec (JsMap.values docsS) -> passes rec = true ->
        In (keyFor (data rec)) (JsMap.keys (build_latest norm_text f docsS))).
Proof.
  assert (H0 : latest_inv [] []).
  { split; try (intros; contradiction). constructor. }
  destruct (latest_inv_fold (JsMap.values docsS) [] [] H0) as [H1 H2 H3 H4].
  simpl app in *. repeat split; assumption.
Qed.

End Latest.

Definition asistencia_111 (la : Z) : asistencia :=
  mkAsistencia (VStr "111") (VStr "Ana") VUndef
    (VNum (num_of_Z la)) VUndef VUndef (VNum (num_of_Z (-77))) VUndef VUndef VUndef.

(** Two documents with DNI "111" at times 100 and 200, both within the
    shift: [latest] keeps the one of time 200. *)
Lemma latest_keeps_second :
  build_latest (fun s => s) (mkFiltersS (DateMs 0) (DateMs 1000) "" false)
    [("d1", mkRecS (asistencia_111 (-12)) (DateMs 100));
     ("d2", mkRecS (asistencia_111 (-13)) (DateMs 200))]
  = [("111", mkInfo (asistencia_111 (-13)) (DateMs 200)
               (num_of_Z (-13), num_of_Z (-77)) false)].
Proof. vm_compute. reflexivity. Qed.

End LatestExtras.

Module GeometryExtras.
Import Js Mapa JsMapFacts LocateFacts GeometryFacts LocateClaims.

(** The midpoint of the edge of "b" at longitude 1, an edge it shares with
    "a": it is found, in the earlier layer "a". *)
Lemma exact_boundary_point_located_witness :
  exists a1 a2 b1 b2,
    mkLatLng (Fin 0) (Fin 1) = vertex (a1, a2)
    /\ mkLatLng (Fin 1) (Fin 1) = vertex (b1, b2)
    /\ ((1 # 2 == a1 + (1 # 2) * (b1 - a1))%Q -> (1 == a2 + (1 # 2) * (b2 - a2))%Q ->
        pointInRing (Fin (1 # 2)) (Fin 1) ring_b = true
        /\ sectorOfPoint adjacent_sectors (Fin (1 # 2)) (Fin 1)
           = match first_hit adjacent_sectors (Fin (1 # 2)) (Fin 1)
                     [("a", L_polygon (map fin_pair
                              [(0, 0); (0, 1); (1, 1); (1, 0); (0, 0)]%Q))] with
             | Some r => Some r
             | None => Some ("b", geofence_b)
             end).
Proof.
  apply (exact_boundary_point_located adjacent_sectors "b"
           [(0, 1); (0, 2); (1, 2); (1, 1); (0, 1)]%Q geofence_b ring_b
           (mkLatLng (Fin 0) (Fin 1)) (mkLatLng (Fin 1) (Fin 1)) (1 # 2) (1 # 2) 1
           [("a", L_polygon (map fin_pair [(0, 0); (0, 1); (1, 1); (1, 0); (0, 0)]%Q))] []).
  - reflexivity.
  - reflexivity.
  - left. reflexivity.
  - simpl. lia.
  - left. reflexivity.
  - discriminate.
  - discriminate.
Defined.

End GeometryExtras.

(* ================================================================== *)
(** * Further coverage of js/mapa.js *)
(* ================================================================== *)

(** ** What [getCoords] and [sectorOfPoint] can return *)

Module ResultFacts.
Import Js Mapa JsMapFacts CoordsFacts LocateFacts.

(** A pair returned by [getCoords] is made of two finite numbers, the
    latitude within [-90, 90] and the longitude within [-180, 180]; they are
    the coercions of the first field that is neither [null] nor [undefined]
    among lat, latitude, latitud, resp. lng, long, lon, longitude, longitud. *)
Theorem getCoords_sound (o : coordsObj) (la ln : num) :
  getCoords o = Some (la, ln) ->
  la = lat_of o /\ ln = lng_of o
  /\ exists a b, la = Fin a /\ ln = Fin b
       /\ (inject_Z (-90) <= a <= inject_Z 90)%Q
       /\ (inject_Z (-180) <= b <= inject_Z 180)%Q.
Proof.
  intro H. pose proof (getCoords_Some o _ H) as E. injection E as -> ->.
  split; [ reflexivity | split; [ reflexivity |] ].
  assert (Hn : ~ fails_validation o).
  { intro Hf. apply getCoords_None_iff in Hf. congruence. }
  unfold fails_validation in Hn.
  destruct (lat_of o) as [| |a|] eqn:Ea; try (exfalso; apply Hn; simpl; auto 8; fail).
  destruct (lng_of o) as [| |b|] eqn:Eb; try (exfalso; apply Hn; simpl; auto 8; fail).
  exists a, b. split; [ reflexivity | split; [ reflexivity |] ].
  assert (Hlt : forall x y, (x < y)%Q -> num_lt (Fin x) (Fin y) = true).
  { intros x y L. unfold num_lt, Qlt_bool. apply negb_true_iff, not_true_iff_false.
    rewrite Qle_bool_iff. lra. }
  assert (H1 : (inject_Z (-90) <= a)%Q).
  { destruct (Qlt_le_dec a (inject_Z (-90))) as [L | L]; [| exact L ].
    exfalso. apply Hn. right; right; left. now apply Hlt. }
  assert (H2 : (a <= inject_Z 90)%Q).
  { destruct (Qlt_le_dec (inject_Z 90) a) as [L | L]; [| exact L ].
    exfalso. apply Hn. right; right; right; left. now apply Hlt. }
  assert (H3 : (inject_Z (-180) <= b)%Q).
  { destruct (Qlt_le_dec b (inject_Z (-180))) as [L | L]; [| exact L ].
    exfalso. apply Hn. right; right; right; right; left. now apply Hlt. }
  assert (H4 : (b <= inject_Z 180)%Q).
  { destruct (Qlt_le_dec (inject_Z 180) b) as [L | L]; [| exact L ].
    exfalso. apply Hn. right; right; right; right; right. now apply Hlt. }
  auto.
Qed.

Lemma getCoords_sound_witness :
  toNum (VStr "10,5") = lat_of CoordsClaims.coords_10_5
  /\ toNum (VStr "20") = lng_of CoordsClaims.coords_10_5
  /\ exists a b, toNum (VStr "10,5") = Fin a /\ toNum (VStr "20") = Fin b
       /\ (inject_Z (-90) <= a <= inject_Z 90)%Q
       /\ (inject_Z (-180) <= b <= inject_Z 180)%Q.
Proof.
  apply (getCoords_sound CoordsClaims.coords_10_5 (toNum (VStr "10,5")) (toNum (VStr "20"))).
  reflexivity.
Defined.

(** A field that is present but not numeric is not skipped: it makes the
    record invalid even when a later alias holds a valid number. *)
Lemma getCoords_alias_shadowed (o : coordsObj) :
  nullish (o_lat o) = false -> toNum (o_lat o) = NaN -> getCoords o = None.
Proof.
  intros Hn Ht. apply getCoords_None_iff. left.
  unfold lat_of, coalesce. now rewrite Hn.
Qed.





End ResultFacts.

(** ** No entity is counted twice or lost *)

Module CountTotal.
Import Js Mapa JsMapFacts SortFacts SectorFacts.











End CountTotal.

(** ** The store a geofence snapshot leaves *)

Module SnapshotFacts.
Import Js Mapa JsMapFacts.

(** The geofence gets a layer: its filtered path is not empty. *)
Definition drawn (g : geofence) : bool :=
  match parsePath (path g) with [] => false | _ => true end.

(** The geofence object after [drawOneGeofence(g, idx)]. *)
Definition painted (g : geofence) (idx : nat) : geofence :=
  fst (drawOneGeofence g idx []).

Fixpoint painted_from (docs : list geofence) (i : nat) : list (string * geofence) :=
  match docs with
  | [] => []
  | g :: r => (id g, painted g i) :: painted_from r (S i)
  end.

Definition layer_of (g : geofence) : string * polygon :=
  (id g, L_polygon (closed_path (parsePath (path g)))).

Lemma set_fresh {V : Type} (m : JsMap.t V) (k : string) (v : V) :
  ~ In k (JsMap.keys m) -> JsMap.set k v m = m ++ [(k, v)].
Proof.
  induction m as [|[k' v'] m IH]; simpl; intro H; [ reflexivity |].
  destruct (String.eqb k k') eqn:E.
  - apply String.eqb_eq in E. subst. elim H. now left.
  - rewrite IH; [ reflexivity |]. intro Hk. apply H. now right.
Qed.

Lemma drawOneGeofence_cases (g : geofence) (idx : nat) (layers : JsMap.t polygon) :
  drawOneGeofence g idx layers
  = (painted g idx,
     if drawn g then JsMap.set (id g) (snd (layer_of g)) layers else layers).
Proof.
  unfold painted, drawn, drawOneGeofence, layer_of.
  now destruct (parsePath (path g)).
Qed.

Lemma painted_id (g : geofence) (idx : nat) : id (painted g idx) = id g.
Proof. unfold painted, drawOneGeofence. now destruct (parsePath (path g)). Qed.

Lemma draw_all_spec (docs : list geofence) (i : nat) (st : store) :
  NoDup (map id docs) ->
  (forall g, In g docs -> ~ In (id g) (JsMap.keys (geofenceById st))) ->
  (forall g, In g docs -> ~ In (id g) (JsMap.keys (geofenceLayers st))) ->
  geofenceById (draw_all docs i st) = geofenceById st ++ painted_from docs i
  /\ geofenceLayers (draw_all docs i st)
     = geofenceLayers st ++ map layer_of (filter drawn docs).
Proof.
  revert i st. induction docs as [|g docs IH]; intros i st Hnd Hb Hl; simpl.
  - now rewrite !app_nil_r.
  - inversion Hnd as [|? ? Hni Hnd']; subst.
    rewrite drawOneGeofence_cases.
    assert (Hfresh : forall m : JsMap.t polygon, forall g', In g' docs ->
              ~ In (id g') (JsMap.keys m) ->
              ~ In (id g') (JsMap.keys (m ++ [layer_of g]))).
    { intros m g' Hg' Hm Hin. unfold JsMap.keys in Hin. rewrite map_app in Hin.
      apply in_app_or in Hin. destruct Hin as [Hin | [Hin | []]]; [ now apply Hm |].
      simpl in Hin. apply Hni. rewrite Hin. now apply in_map. }
    destruct (IH (S i)
                (mkStore (JsMap.set (id g) (painted g i) (geofenceById st))
                   (if drawn g then JsMap.set (id g) (snd (layer_of g)) (geofenceLayers st)
                    else geofenceLayers st)) Hnd') as [E1 E2].
    + intros g' Hg'. simpl.
      rewrite set_fresh by (apply Hb; now left).
      intro Hin. unfold JsMap.keys in Hin. rewrite map_app in Hin.
      apply in_app_or in Hin. destruct Hin as [Hin | [Hin | []]].
      * apply (Hb g'); [ now right | exact Hin ].
      * simpl in Hin. apply Hni. rewrite Hin. now apply in_map.
    + intros g' Hg'. simpl. destruct (drawn g).
      * rewrite set_fresh by (apply Hl; now left).
        apply Hfresh; [ exact Hg' | apply Hl; now right ].
      * apply Hl. now right.
    + rewrite E1, E2. simpl.
      rewrite set_fresh by (apply Hb; now left).
      rewrite <- app_assoc. split; [ reflexivity |].
      destruct (drawn g); [| reflexivity ].
      rewrite set_fresh by (apply Hl; now left).
      now rewrite <- app_assoc.
Qed.

Lemma snapshot_docs_ids (snap : list geofenceDoc) :
  map id (snapshot_docs snap)
  = map doc_id (filter (fun d => negb (is_false (d_activo d))) snap).
Proof. unfold snapshot_docs. now rewrite map_map. Qed.

(** Keeping part of a list of documents keeps their ids distinct. *)
Lemma distinct_ids_kept {Doc : Type} (key : Doc -> string) (keep : Doc -> bool) :
  forall docs, NoDup (map key docs) -> NoDup (map key (filter keep docs)).
Proof.
  intros docs Hd. induction docs as [|d docs IH]; cbn [filter map]; [ exact Hd |].
  cbn [map] in Hd. apply NoDup_cons_iff in Hd. destruct Hd as [Hfresh Hrest].
  destruct (keep d); cbn [map]; [| now apply IH ].
  apply NoDup_cons; [| now apply IH ].
  rewrite in_map_iff. intros (d' & Ek & Hd').
  apply Hfresh. rewrite <- Ek. apply in_map.
  now apply (proj1 (filter_In keep d' docs)) in Hd'.
Qed.

Lemma painted_from_In (docs : list geofence) (i : nat) (k : string) (g' : geofence) :
  In (k, g') (painted_from docs i) ->
  exists g n, nth_error docs n = Some g /\ k = id g /\ g' = painted g (i + n).
Proof.
  revert i. induction docs as [|g docs IH]; simpl; intros i H; [ destruct H |].
  destruct H as [[= <- <-] | H].
  - exists g, 0%nat. rewrite Nat.add_0_r. auto.
  - destruct (IH _ H) as (g0 & n & Hn & Hk & Hg).
    exists g0, (S n). rewrite Nat.add_succ_r. auto.
Qed.

(** The colour a geofence ends up with. *)
Lemma painted_color (g : geofence) (idx : nat) :
  _color (painted g idx)
  = if drawn g
    then Some (str_or_default (color g)
                 (nth (idx mod List.length defaultColors) defaultColors ""))
    else _color g.
Proof.
  unfold painted, drawn, drawOneGeofence. now destruct (parsePath (path g)).
Qed.

(** After a snapshot whose documents have distinct ids: [geofenceById]
    holds the active documents in snapshot order (a document with
    [activo === false] is in neither map); [geofenceLayers] holds, in the same
    order, exactly those whose filtered path is not empty, each drawn from its
    closed path; so every layer's id is a key of [geofenceById], and a geofence
    without usable vertices is known by name but has no layer and no
    [_color].  A drawn geofence is coloured with its own colour, else with
    the palette entry at its position among the active documents modulo 7. *)
Theorem snapshot_store (snap : list geofenceDoc) :
  NoDup (map doc_id snap) ->
  let docs := snapshot_docs snap in
  let st := onGeofenceSnapshot snap in
  JsMap.keys (geofenceById st)
  = map doc_id (filter (fun d => negb (is_false (d_activo d))) snap)
  /\ geofenceLayers st = map layer_of (filter drawn docs)
  /\ (forall i poly, In (i, poly) (geofenceLayers st) ->
        exists g, JsMap.get i (geofenceById st) = Some g)
  /\ (forall k g', In (k, g') (geofenceById st) ->
        exists g n, nth_error docs n = Some g /\ k = id g /\ id g' = k
          /\ nombre g' = nombre g /\ path g' = path g
          /\ (drawn g = false ->
                _color g' = None /\ JsMap.get k (geofenceLayers st) = None)
          /\ (drawn g = true ->
                _color g' = Some (str_or_default (color g)
                                    (nth (n mod 7) defaultColors ""))
                /\ JsMap.get k (geofenceLayers st) = Some (snd (layer_of g)))).
Proof.
  intros Hnd docs st.
  assert (Hnd' : NoDup (map id docs)).
  { unfold docs. rewrite snapshot_docs_ids. now apply distinct_ids_kept. }
  destruct (draw_all_spec docs 0 (mkStore [] []) Hnd') as [E1 E2];
    try (intros g _ []).
  change (draw_all docs 0 (mkStore [] [])) with st in E1, E2. simpl in E1, E2.
  assert (K : JsMap.keys (geofenceById st) = map id docs).
  { rewrite E1. clear. generalize 0%nat. induction docs as [|g r IH]; intro i; simpl;
      [ reflexivity | now rewrite IH ]. }
  assert (KL : JsMap.keys (geofenceLayers st) = map id (filter drawn docs)).
  { rewrite E2. unfold JsMap.keys. rewrite map_map. reflexivity. }
  assert (NL : NoDup (JsMap.keys (geofenceLayers st))).
  { rewrite KL. now apply distinct_ids_kept. }
  split; [ rewrite K; apply snapshot_docs_ids | split; [ exact E2 | split ] ].
  - intros i poly Hin. apply In_key_get. rewrite K.
    apply (in_map fst) in Hin. fold (JsMap.keys (geofenceLayers st)) in Hin.
    rewrite KL in Hin. simpl in Hin. apply in_map_iff in Hin.
    destruct Hin as (g & <- & Hg). apply filter_In in Hg. apply in_map. tauto.
  - intros k g' Hin. rewrite E1 in Hin.
    destruct (painted_from_In _ _ _ _ Hin) as (g & n & Hn & -> & ->).
    simpl Nat.add. exists g, n.
    split; [ exact Hn | split; [ reflexivity | split; [ apply painted_id |] ] ].
    assert (Hg : In g docs) by (now apply nth_error_In with n).
    unfold painted at 1 2. unfold drawOneGeofence. rewrite painted_color.
    split; [ now destruct (parsePath (path g)) |].
    split; [ now destruct (parsePath (path g)) |].
    split; intro Hd; rewrite Hd.
    + split.
      * unfold docs, snapshot_docs in Hg. apply in_map_iff in Hg.
        destruct Hg as (d & <- & _). reflexivity.
      * destruct (JsMap.get (id g) (geofenceLayers st)) eqn:Eg; [| reflexivity ].
        apply get_In, (in_map fst) in Eg. fold (JsMap.keys (geofenceLayers st)) in Eg.
        rewrite KL in Eg. simpl in Eg. apply in_map_iff in Eg.
        destruct Eg as (g2 & Hid & Hg2). apply filter_In in Hg2. destruct Hg2 as [Hg2 Hd2].
        assert (g2 = g); [| congruence ].
        clear - Hnd' Hid Hg2 Hg. induction docs as [|x r IH]; [ destruct Hg |].
        simpl in Hnd'. inversion Hnd' as [|? ? Hni Hr]; subst.
        destruct Hg as [-> | Hg], Hg2 as [-> | Hg2]; auto.
        -- elim Hni. rewrite <- Hid. now apply in_map.
        -- elim Hni. rewrite Hid. now apply in_map.
    + split; [ reflexivity |].
      apply In_get_NoDup; [ exact NL |]. rewrite E2.
      change (id g, snd (layer_of g)) with (layer_of g).
      apply in_map. apply filter_In. auto.
Qed.

Definition snapshot_example : list geofenceDoc :=
  [SectorClaims.named_square "a" "Sector 1" 0 0;
   mkGeofenceDoc "off" (Some "Sector 9") None None None (VBool false) None
     (Some (SectorClaims.unit_square 3 3));
   mkGeofenceDoc "bare" (Some "Sector 3") None None None VUndef None (Some [])].

Lemma snapshot_store_witness :
  NoDup (map doc_id snapshot_example)
  /\ JsMap.keys (geofenceById (onGeofenceSnapshot snapshot_example))
     = map doc_id (filter (fun d => negb (is_false (d_activo d))) snapshot_example)
  /\ geofenceLayers (onGeofenceSnapshot snapshot_example)
     = map layer_of (filter drawn (snapshot_docs snapshot_example)).
Proof.
  assert (H : NoDup (map doc_id snapshot_example))
    by (repeat constructor; simpl; intuition discriminate).
  split; [ exact H |].
  split; [ exact (proj1 (snapshot_store snapshot_example H))
         | exact (proj1 (proj2 (snapshot_store snapshot_example H))) ].
Defined.

End SnapshotFacts.

(** ** A rectangular geofence contains exactly its closed rectangle *)

Module RectangleFacts.
Import Js Mapa JsMapFacts LocateFacts GeometryFacts.
Local Open Scope Q_scope.

Lemma Qle_bool_true (x y : Q) : x <= y -> Qle_bool x y = true.
Proof. apply Qle_bool_iff. Qed.

Lemma Qle_bool_false (x y : Q) : y < x -> Qle_bool x y = false.
Proof. intro H. apply not_true_iff_false. rewrite Qle_bool_iff. lra. Qed.

Lemma Qlt_bool_true (x y : Q) : x < y -> Qlt_bool x y = true.
Proof. intro H. unfold Qlt_bool. now rewrite Qle_bool_false. Qed.

Lemma Qlt_bool_false (x y : Q) : y <= x -> Qlt_bool x y = false.
Proof. intro H. unfold Qlt_bool. now rewrite Qle_bool_true. Qed.

Lemma Qeq_bool_false (x : Q) : ~ x == 0 -> Qeq_bool x 0 = false.
Proof. intro H. apply not_true_iff_false. now rewrite Qeq_bool_iff. Qed.

(** The test [intersect] of [pointInRing] for the segment from vertex [pj]
    to vertex [pi]. *)
Definition crossing (la ln : num) (pi pj : LatLng) : bool :=
  (negb (Bool.eqb (num_gt (lat pi) la) (num_gt (lat pj) la))
   && num_lt ln (num_add (num_div (num_mul (num_sub (lng pj) (lng pi)) (num_sub la (lat pi)))
                                  (num_sub (lat pj) (lat pi))) (lng pi)))%bool.

Lemma pointInRing_from_step (la ln : num) (pj pi : LatLng) (r : list LatLng)
    (inside : bool) :
  pointInRing_from la ln pj (pi :: r) inside
  = if on_edge la ln (pi, pj) then true
    else pointInRing_from la ln pi r (if crossing la ln pi pj then negb inside else inside).
Proof. reflexivity. Qed.

(** A segment along a parallel is never crossed. *)
Lemma crossing_level (la ln : num) (y : num) (xi xj : num) :
  crossing la ln (mkLatLng y xi) (mkLatLng y xj) = false.
Proof. unfold crossing. simpl. now rewrite Bool.eqb_reflx. Qed.

(** A segment along the meridian [x], between latitudes [yi] and [yj]. *)
Lemma crossing_meridian (la ln x yi yj : Q) :
  ~ yj + - yi == 0 ->
  crossing (Fin la) (Fin ln) (mkLatLng (Fin yi) (Fin x)) (mkLatLng (Fin yj) (Fin x))
  = (negb (Bool.eqb (Qlt_bool la yi) (Qlt_bool la yj)) && Qlt_bool ln x)%bool.
Proof.
  intro H. unfold crossing, num_gt. simpl. rewrite (Qeq_bool_false _ H). simpl.
  f_equal. unfold Qlt_bool. f_equal.
  assert (E : (x + - x) * (la + - yi) / (yj + - yi) + x == x)
    by (unfold Qdiv; ring).
  destruct (Qle_bool ((x + - x) * (la + - yi) / (yj + - yi) + x) ln) eqn:E1,
           (Qle_bool x ln) eqn:E2; try reflexivity.
  - apply Qle_bool_iff in E1. rewrite E in E1. apply Qle_bool_iff in E1. congruence.
  - apply Qle_bool_iff in E2. rewrite <- E in E2. apply Qle_bool_iff in E2. congruence.
Qed.

#[local] Arguments Qplus : simpl never.
#[local] Arguments Qopp : simpl never.
#[local] Arguments Qmult : simpl never.
#[local] Arguments Qdiv : simpl never.
#[local] Arguments Qabs : simpl never.
#[local] Arguments Qle_bool : simpl never.
#[local] Arguments Qeq_bool : simpl never.

Lemma LatLng_equals_refl (a b : Q) : LatLng_equals (vertex (a, b)) (vertex (a, b)) = true.
Proof.
  unfold LatLng_equals, vertex, margin. simpl.
  assert (Ha : Qabs (a + - a) == 0) by (setoid_replace (a + - a) with 0 by ring; reflexivity).
  assert (Hb : Qabs (b + - b) == 0) by (setoid_replace (b + - b) with 0 by ring; reflexivity).
  destruct (Qle_bool (Qabs (a + - a)) (Qabs (b + - b))); simpl;
    apply Qle_bool_iff; [ rewrite Hb | rewrite Ha ]; discriminate.
Qed.

(** The four corners, in the order south-west, south-east, north-east,
    north-west. *)
Definition rect_path (s w n e : Q) : list (Q * Q) := [(s, w); (s, e); (n, e); (n, w)].

Definition rect_ring (s w n e : Q) : list LatLng := map vertex (rect_path s w n e).

Definition rect_layer (s w n e : Q) : polygon :=
  L_polygon (closed_path (map fin_pair (rect_path s w n e))).

Lemma rect_closed (s w n e : Q) :
  s < n ->
  closed_path (map fin_pair (rect_path s w n e))
  = map fin_pair (rect_path s w n e ++ [(s, w)]).
Proof.
  intro H. unfold closed_path, rect_path, fin_pair. cbn.
  assert (E : num_neq (Fin s) (Fin n) = true).
  { unfold num_neq, num_eq. apply negb_true_iff, not_true_iff_false.
    rewrite Qeq_bool_iff. lra. }
  now rewrite E.
Qed.

Lemma rect_layer_ring (s w n e : Q) :
  s < n -> getLatLngs (rect_layer s w n e) = [rect_ring s w n e].
Proof.
  intro H. unfold rect_layer. rewrite (rect_closed s w n e H).
  destruct (L_polygon_vertices (rect_path s w n e ++ [(s, w)])) as [_ ->].
  f_equal. unfold drop_closing, rect_path. cbn [map app last].
  now rewrite LatLng_equals_refl.
Qed.

Lemma rect_layer_bounds (s w n e : Q) (la ln : Q) :
  s < n -> w < e ->
  bounds_contains (getBounds (rect_layer s w n e)) (Fin la) (Fin ln)
  = (Qle_bool s la && Qle_bool la n && Qle_bool w ln && Qle_bool ln e)%bool.
Proof.
  intros Hsn Hwe. unfold rect_layer. rewrite (rect_closed s w n e Hsn).
  destruct (L_polygon_vertices (rect_path s w n e ++ [(s, w)])) as [-> _].
  unfold rect_path, vertex. cbn [map app fold_left fst snd].
  unfold bounds_extend. cbn [lat lng southWest northEast Math_min Math_max num_le].
  repeat first
    [ rewrite (Qle_bool_true s s) by lra | rewrite (Qle_bool_true w w) by lra
    | rewrite (Qle_bool_true n n) by lra | rewrite (Qle_bool_true e e) by lra
    | rewrite (Qle_bool_true s n) by lra | rewrite (Qle_bool_true w e) by lra
    | rewrite (Qle_bool_false n s) by lra | rewrite (Qle_bool_false e w) by lra
    | progress cbn [lat lng southWest northEast Math_min Math_max num_le] ].
  unfold bounds_contains, num_ge. cbn [lat lng southWest northEast num_le].
  reflexivity.
Qed.

Lemma on_parallel (la ln y x1 x2 : Q) :
  la == y -> x1 <= ln <= x2 ->
  on_edge (Fin la) (Fin ln) (mkLatLng (Fin y) (Fin x1), mkLatLng (Fin y) (Fin x2)) = true.
Proof.
  intros Hla [H1 H2]. unfold on_edge. cbn [fst snd lat lng].
  rewrite onSegment_Fin. apply andb_true_iff. split; apply Qle_bool_iff.
  - assert (E : (ln + - x1) * (y + - y) + - ((la + - y) * (x2 + - x1)) == 0)
      by (rewrite Hla; ring).
    rewrite E. discriminate.
  - assert (E : (ln + - x1) * (ln + - x2) + (la + - y) * (la + - y)
                == - ((ln - x1) * (x2 - ln)))
      by (rewrite Hla; ring).
    rewrite E.
    assert (P : 0 <= (ln - x1) * (x2 - ln)) by (apply Qmult_le_0_compat; lra).
    assert (Z0 : 0 <= 1 # 10000000000) by discriminate. lra.
Qed.

Lemma on_meridian (la ln x y1 y2 : Q) :
  ln == x -> y2 <= la <= y1 ->
  on_edge (Fin la) (Fin ln) (mkLatLng (Fin y1) (Fin x), mkLatLng (Fin y2) (Fin x)) = true.
Proof.
  intros Hln [H1 H2]. unfold on_edge. cbn [fst snd lat lng].
  rewrite onSegment_Fin. apply andb_true_iff. split; apply Qle_bool_iff.
  - assert (E : (ln + - x) * (y2 + - y1) + - ((la + - y1) * (x + - x)) == 0)
      by (rewrite Hln; ring).
    rewrite E. discriminate.
  - assert (E : (ln + - x) * (ln + - x) + (la + - y1) * (la + - y2)
                == - ((y1 - la) * (la - y2)))
      by (rewrite Hln; ring).
    rewrite E.
    assert (P : 0 <= (y1 - la) * (la - y2)) by (apply Qmult_le_0_compat; lra).
    assert (Z0 : 0 <= 1 # 10000000000) by discriminate. lra.
Qed.

Lemma rect_ring_inside (s w n e la ln : Q) :
  s < n -> w < e -> s <= la <= n -> w <= ln <= e ->
  pointInRing (Fin la) (Fin ln) (rect_ring s w n e) = true.
Proof.
  intros Hsn Hwe [Hs Hn] [Hw He].
  destruct (Qlt_le_dec la n) as [Ln | Ln].
  2: { apply (pointInRing_edge _ _ _
                (mkLatLng (Fin n) (Fin w), mkLatLng (Fin n) (Fin e))).
       - right. right. right. left. reflexivity.
       - apply on_parallel; [ lra | split; lra ]. }
  destruct (Qlt_le_dec ln e) as [Le | Le].
  2: { apply (pointInRing_edge _ _ _
                (mkLatLng (Fin n) (Fin e), mkLatLng (Fin s) (Fin e))).
       - right. right. left. reflexivity.
       - apply on_meridian; [ lra | split; lra ]. }
  unfold pointInRing, rect_ring, rect_path, vertex. cbn [map last fst snd].
  rewrite pointInRing_from_step. destruct (on_edge _ _ _); [ reflexivity |].
  rewrite pointInRing_from_step. destruct (on_edge _ _ _); [ reflexivity |].
  rewrite pointInRing_from_step. destruct (on_edge _ _ _); [ reflexivity |].
  rewrite pointInRing_from_step. destruct (on_edge _ _ _); [ reflexivity |].
  rewrite (crossing_meridian la ln w s n) by lra.
  rewrite !crossing_level.
  rewrite (crossing_meridian la ln e n s) by lra.
  rewrite (Qlt_bool_false ln w) by lra.
  rewrite (Qlt_bool_true la n), (Qlt_bool_false la s), (Qlt_bool_true ln e) by lra.
  reflexivity.
Qed.

(** A geofence whose path is the four corners of a rectangle (south-west,
    south-east, north-east, north-west; south below north, west before east)
    is hit by [sectorOfPoint]'s test exactly on the closed rectangle: inside
    and on the border yes, anywhere outside no, however close. *)
Theorem rect_layer_hit (st : store) (i : string) (g : geofence)
    (s w n e la ln : Q) :
  s < n -> w < e ->
  JsMap.get i (geofenceById st) = Some g ->
  layer_hit st (Fin la) (Fin ln) (i, rect_layer s w n e)
  = if (Qle_bool s la && Qle_bool la n && Qle_bool w ln && Qle_bool ln e)%bool
    then Some (i, g) else None.
Proof.
  intros Hsn Hwe Hg. unfold layer_hit. cbn [fst snd].
  rewrite (rect_layer_bounds s w n e la ln Hsn Hwe).
  destruct (Qle_bool s la && Qle_bool la n && Qle_bool w ln && Qle_bool ln e)%bool eqn:E;
    [| reflexivity ].
  cbn [negb]. rewrite Hg, (rect_layer_ring s w n e Hsn). cbn [rings_of existsb].
  rewrite !andb_true_iff, !Qle_bool_iff in E. destruct E as [[[E1 E2] E3] E4].
  unfold ring_hit. rewrite rect_ring_inside by (auto; split; assumption).
  reflexivity.
Qed.

(** The layer [drawOneGeofence] registers for such a path is that one. *)
Lemma rect_layer_drawn (i : string) (name : option string) (s w n e : Q)
    (layers : JsMap.t polygon) :
  snd (drawOneGeofence
         (mkGeofence i name None
            (Some (map (fun p => mkPathPoint (VNum (Fin (fst p))) (VNum (Fin (snd p))))
                     (rect_path s w n e))) None) 0 layers)
  = JsMap.set i (rect_layer s w n e) layers.
Proof. reflexivity. Qed.

Lemma rect_layer_hit_witness :
  layer_hit SummaryExtras.sector_4_only (Fin (1 # 2)) (Fin 1) ("g1", rect_layer 0 0 1 1)
  = if (Qle_bool 0 (1 # 2) && Qle_bool (1 # 2) 1 && Qle_bool 0 1 && Qle_bool 1 1)%bool
    then Some ("g1", SnapshotFacts.painted
                       (mkGeofence "g1" (Some "Sector 4") None
                          (Some (SectorClaims.unit_square 0 0)) None) 0)
    else None.
Proof.
  apply (rect_layer_hit SummaryExtras.sector_4_only "g1" _ 0 0 1 1 (1 # 2) 1).
  - reflexivity.
  - reflexivity.
  - reflexivity.
Defined.

End RectangleFacts.

(* ================================================================== *)
(** ** Shifts: [intervaloTurno], [todayTurnDefaults], [rowsByDay] *)
(* ================================================================== *)

Module ShiftFacts.
Import Js Mapa Shifts.

Lemma TimeClip_in (t : Z) : Z.abs t <= maxTime -> TimeClip t = DateMs t.
Proof.
  intro H. unfold TimeClip. now rewrite (proj2 (Z.leb_le _ _) H).
Qed.

Lemma ge_ms (x a : Z) : Date_ge (DateMs x) (DateMs a) = (a <=? x).
Proof.
  unfold Date_ge, num_ge, getTime, num_of_Z, num_le.
  destruct (Z.leb_spec a x) as [H | H].
  - apply Qle_bool_iff. now rewrite <- Zle_Qle.
  - destruct (Qle_bool (inject_Z a) (inject_Z x)) eqn:E; [| reflexivity ].
    apply Qle_bool_iff in E. rewrite <- Zle_Qle in E. lia.
Qed.

Lemma lt_ms (x b : Z) : Date_lt (DateMs x) (DateMs b) = (x <? b).
Proof.
  unfold Date_lt, num_lt, getTime, num_of_Z, Qlt_bool.
  destruct (Z.ltb_spec x b) as [H | H].
  - apply negb_true_iff.
    destruct (Qle_bool (inject_Z b) (inject_Z x)) eqn:E; [| reflexivity ].
    apply Qle_bool_iff in E. rewrite <- Zle_Qle in E. lia.
  - apply negb_false_iff, Qle_bool_iff. now rewrite <- Zle_Qle.
Qed.

Lemma within_ms (x a b : Z) :
  within (DateMs x) (DateMs a, DateMs b) = ((a <=? x) && (x <? b))%bool.
Proof. unfold within. cbn [fst snd]. now rewrite ge_ms, lt_ms. Qed.

Lemma within_invalid (r : Date * Date) : within InvalidDate r = false.
Proof. destruct r as [[|a] e]; reflexivity. Qed.

Lemma within_invalid_start (w e : Date) : within w (InvalidDate, e) = false.
Proof.
  unfold within, Date_ge, num_ge. cbn [fst snd getTime num_le]. reflexivity.
Qed.

Section LocalTime.
Variable tz : Z.

(** Time values far enough from the two ends of the range of dates for the
    days around to be dates too. *)
Definition safe (t : Z) : Prop :=
  - maxTime + 3 * msPerDay <= t <= maxTime - 3 * msPerDay.

(** The local midnight that begins the local day of [t]. *)
Definition midnight (t : Z) : Z := Day (LocalTime tz t) * msPerDay - tz.

Lemma midnight_le (t : Z) : midnight t <= t < midnight t + msPerDay.
Proof.
  unfold midnight, Day, LocalTime, msPerDay. Z.div_mod_to_equations. lia.
Qed.

Lemma midnight_shift (t k : Z) : midnight (t + k * msPerDay) = midnight t + k * msPerDay.
Proof.
  unfold midnight, Day, LocalTime.
  replace (t + k * msPerDay + tz) with (t + tz + k * msPerDay) by ring.
  rewrite Z.div_add by (unfold msPerDay; lia). ring.
Qed.

Lemma midnight_same (t u : Z) :
  midnight t <= u < midnight t + msPerDay -> midnight u = midnight t.
Proof.
  unfold midnight, Day, LocalTime, msPerDay. intro H.
  Z.div_mod_to_equations. lia.
Qed.

Lemma setHours_at (t : Z) (h : Z) :
  - maxTime + msPerDay <= t -> t + h * msPerHour <= maxTime -> 0 <= h ->
  setHours tz (DateMs t) h 0 0 0 = DateMs (midnight t + h * msPerHour).
Proof.
  intros Ht Hh H0. unfold setHours, UTC, MakeDate, MakeTime.
  pose proof (midnight_le t) as Hm. unfold midnight in *.
  rewrite TimeClip_in.
  - f_equal. unfold msPerMinute, msPerSecond. ring.
  - unfold maxTime, msPerDay, msPerHour, msPerMinute, msPerSecond in *. lia.
Qed.

Lemma addDate_at (t k : Z) :
  Z.abs (t + k * msPerDay) <= maxTime ->
  addDate tz (DateMs t) k = DateMs (t + k * msPerDay).
Proof.
  intro H. unfold addDate, UTC, MakeDate, Day, TimeWithinDay, LocalTime.
  rewrite <- (TimeClip_in _ H). f_equal.
  unfold msPerDay. Z.div_mod_to_equations. lia.
Qed.

(** The four intervals, by the local midnight [m] of the base date:
    [m+7h, m+15h), [m+15h, m+23h), [m+23h, m+31h) and, for any other value
    of [turno], the calendar day [m, m+24h). *)
Lemma intervaloTurno_at (t : Z) (turno : string) :
  - maxTime + 2 * msPerDay <= t <= maxTime - 2 * msPerDay ->
  intervaloTurno tz (DateMs t) turno
  = let m := midnight t in
    if String.eqb turno "t1" then (DateMs (m + 7 * msPerHour), DateMs (m + 15 * msPerHour))
    else if String.eqb turno "t2" then (DateMs (m + 15 * msPerHour), DateMs (m + 23 * msPerHour))
    else if String.eqb turno "t3" then (DateMs (m + 23 * msPerHour), DateMs (m + 31 * msPerHour))
    else (DateMs m, DateMs (m + 24 * msPerHour)).
Proof.
  intro Hs. unfold intervaloTurno, Date_copy.
  assert (Hc : TimeClip t = DateMs t)
    by (apply TimeClip_in; unfold maxTime, msPerDay in *; lia).
  rewrite Hc.
  assert (Ha : addDate tz (DateMs t) 1 = DateMs (t + 1 * msPerDay))
    by (apply addDate_at; unfold maxTime, msPerDay in *; lia).
  rewrite Ha.
  assert (H0 : forall h, 0 <= h <= 31 ->
             setHours tz (DateMs t) h 0 0 0 = DateMs (midnight t + h * msPerHour))
    by (intros h Hh; apply (setHours_at t); unfold maxTime, msPerDay, msPerHour in *; lia).
  assert (H1 : forall h, 0 <= h <= 7 ->
             setHours tz (DateMs (t + 1 * msPerDay)) h 0 0 0
             = DateMs (midnight t + (24 + h) * msPerHour)).
  { intros h Hh. rewrite setHours_at by (unfold maxTime, msPerDay, msPerHour in *; lia).
    rewrite midnight_shift. f_equal. unfold msPerDay, msPerHour. ring. }
  cbv zeta.
  rewrite !H0 by lia. rewrite !H1 by lia.
  replace (midnight t + 0 * msPerHour) with (midnight t) by ring.
  reflexivity.
Qed.

Lemma intervaloTurno_invalid (turno : string) :
  intervaloTurno tz InvalidDate turno = (InvalidDate, InvalidDate).
Proof.
  unfold intervaloTurno. cbn.
  destruct (String.eqb turno "t1"), (String.eqb turno "t2"), (String.eqb turno "t3");
    reflexivity.
Qed.

End LocalTime.

End ShiftFacts.

Module ShiftExtras.
Import Js Mapa Shifts ShiftFacts.

Section LocalTime.
Variable tz : Z.

Lemma safe_inner (t : Z) :
  safe t -> - maxTime + 2 * msPerDay <= t <= maxTime - 2 * msPerDay.
Proof. unfold safe, maxTime, msPerDay. lia. Qed.

Lemma within_split (w : Date) (a b c : Z) :
  a <= b -> b <= c ->
  (within w (DateMs a, DateMs b) || within w (DateMs b, DateMs c))%bool
  = within w (DateMs a, DateMs c)
  /\ (within w (DateMs a, DateMs b) && within w (DateMs b, DateMs c))%bool = false.
Proof.
  intros Hab Hbc. destruct w as [|x].
  - rewrite !within_invalid. split; reflexivity.
  - rewrite !within_ms.
    destruct (Z.leb_spec a x), (Z.leb_spec b x), (Z.ltb_spec x b), (Z.ltb_spec x c);
      cbn; split; try reflexivity; lia.
Qed.

(** The shifts of [intervaloTurno] tile the time line: on one date t1, t2
    and t3 follow one another without gap or overlap, t3 ends where t1 of the
    next date begins, so a date lies in at most one of the three and in one
    of them exactly when it lies between the start of t1 and the end of t3;
    the intervals depend on the local day of the base date only. *)
Theorem shifts_tile (t : Z) (w : Date) :
  safe t ->
  let I := intervaloTurno tz (DateMs t) in
  let next := intervaloTurno tz (addDate tz (DateMs t) 1) in
  snd (I "t1") = fst (I "t2")
  /\ snd (I "t2") = fst (I "t3")
  /\ snd (I "t3") = fst (next "t1")
  /\ (within w (I "t1") || within w (I "t2") || within w (I "t3"))%bool
     = within w (fst (I "t1"), snd (I "t3"))
  /\ (within w (I "t1") && within w (I "t2"))%bool = false
  /\ (within w (I "t1") && within w (I "t3"))%bool = false
  /\ (within w (I "t2") && within w (I "t3"))%bool = false
  /\ forall u turno, safe u -> midnight tz u = midnight tz t ->
       intervaloTurno tz (DateMs u) turno = I turno.
Proof.
  intros Hs I next. subst I next.
  assert (Ha : addDate tz (DateMs t) 1 = DateMs (t + 1 * msPerDay))
    by (apply addDate_at; unfold safe, maxTime, msPerDay in *; lia).
  rewrite Ha.
  rewrite !(intervaloTurno_at tz t) by now apply safe_inner.
  rewrite (intervaloTurno_at tz (t + 1 * msPerDay))
    by (unfold safe, maxTime, msPerDay in *; lia).
  cbn [String.eqb Ascii.eqb Bool.eqb fst snd]. cbv zeta.
  rewrite midnight_shift.
  set (m := midnight tz t).
  assert (H1 : m + 7 * msPerHour <= m + 15 * msPerHour) by (unfold msPerHour; lia).
  assert (H2 : m + 15 * msPerHour <= m + 23 * msPerHour) by (unfold msPerHour; lia).
  assert (H3 : m + 23 * msPerHour <= m + 31 * msPerHour) by (unfold msPerHour; lia).
  assert (H4 : m + 7 * msPerHour <= m + 23 * msPerHour) by lia.
  destruct (within_split w _ _ _ H1 H2) as [U12 D12].
  destruct (within_split w _ _ _ H4 H3) as [U123 D123].
  destruct (within_split w _ _ _ H2 H3) as [U23 D23].
  repeat split.
  - f_equal. unfold msPerDay, msPerHour. ring.
  - now rewrite U12, U123.
  - exact D12.
  - rewrite <- U12 in D123. rewrite andb_orb_distrib_l in D123.
    now apply orb_false_iff in D123.
  - exact D23.
  - intros u turno Hu Hm. rewrite (intervaloTurno_at tz u) by now apply safe_inner.
    rewrite (intervaloTurno_at tz t) by now apply safe_inner.
    cbv zeta. now rewrite Hm.
Qed.

Lemma lt_num_of_Z (a b : Z) : num_lt (num_of_Z a) (num_of_Z b) = (a <? b).
Proof. exact (lt_ms a b). Qed.

Lemma hour_of (t : Z) :
  let h := HourFromTime (LocalTime tz t) in
  0 <= h < 24
  /\ midnight tz t + h * msPerHour <= t < midnight tz t + (h + 1) * msPerHour.
Proof.
  unfold HourFromTime, midnight, Day, LocalTime, msPerHour, msPerDay. cbv zeta.
  Z.div_mod_to_equations. lia.
Qed.

(** The date and the shift [todayTurnDefaults] proposes, put through
    [intervaloTurno]: the interval holds the present moment, except during
    the hours 6, 14 and 22 of the local clock, when the proposed shift is the
    one that begins an hour later. With the shift "todos" in place of the
    proposed one (the alert panel), the calendar day of the proposed date
    holds the present moment from 6 o'clock on only: before, the proposed
    date is the day before. *)
Theorem default_interval_holds_now (now : Z) :
  safe now ->
  let d := todayTurn tz now in
  let h := HourFromTime (LocalTime tz now) in
  within (DateMs now) (intervaloTurno tz (fst d) (snd d))
  = negb ((h =? 6) || (h =? 14) || (h =? 22))
  /\ within (DateMs now) (intervaloTurno tz (fst d) "todos") = (6 <=? h).
Proof.
  intros Hs d h. subst d. unfold todayTurn.
  assert (Hc : TimeClip now = DateMs now)
    by (apply TimeClip_in; unfold safe, maxTime, msPerDay in *; lia).
  rewrite Hc. unfold Date_copy. rewrite Hc. unfold getHours. fold h.
  rewrite !lt_num_of_Z.
  assert (Ha : addDate tz (DateMs now) (-1) = DateMs (now + (-1) * msPerDay))
    by (apply addDate_at; unfold safe, maxTime, msPerDay in *; lia).
  rewrite Ha.
  destruct (hour_of now) as [Hh Hm]. fold h in Hh, Hm.
  set (m := midnight tz now) in *.
  assert (E0 : forall turno, intervaloTurno tz (DateMs now) turno = _)
    by (intro turno; apply intervaloTurno_at; now apply safe_inner).
  assert (E1 : forall turno, intervaloTurno tz (DateMs (now + -1 * msPerDay)) turno = _)
    by (intro turno; apply intervaloTurno_at; unfold safe, maxTime, msPerDay in *; lia).
  cbv zeta in E0, E1. rewrite midnight_shift in E1. fold m in E0, E1.
  destruct (Z.ltb_spec h 6) as [H6 | H6];
    [| destruct (Z.ltb_spec h 14) as [H14 | H14];
       [| destruct (Z.ltb_spec h 22) as [H22 | H22] ] ];
    cbn [fst snd]; rewrite ?E0, ?E1; cbn [String.eqb Ascii.eqb Bool.eqb];
    rewrite !within_ms;
    unfold msPerHour, msPerDay in *;
    (split;
     repeat match goal with
            | |- context [?a <=? ?b] => destruct (Z.leb_spec a b)
            | |- context [?a <? ?b] => destruct (Z.ltb_spec a b)
            | |- context [?a =? ?b] => destruct (Z.eqb_spec a b)
            end; cbn; try reflexivity; lia).
Qed.

End LocalTime.

Lemma shifts_tile_witness :
  snd (intervaloTurno (-18000000) (DateMs 1700000000000) "t3")
  = fst (intervaloTurno (-18000000) (addDate (-18000000) (DateMs 1700000000000) 1) "t1").
Proof.
  assert (Hs : safe 1700000000000) by (unfold safe, maxTime, msPerDay; lia).
  exact (proj1 (proj2 (proj2 (shifts_tile (-18000000) 1700000000000 InvalidDate Hs)))).
Defined.

Lemma default_interval_holds_now_witness :
  within (DateMs 1700000000000)
    (intervaloTurno (-18000000) (fst (todayTurn (-18000000) 1700000000000))
       (snd (todayTurn (-18000000) 1700000000000)))
  = negb ((HourFromTime (LocalTime (-18000000) 1700000000000) =? 6)
          || (HourFromTime (LocalTime (-18000000) 1700000000000) =? 14)
          || (HourFromTime (LocalTime (-18000000) 1700000000000) =? 22)).
Proof.
  assert (Hs : safe 1700000000000) by (unfold safe, maxTime, msPerDay; lia).
  exact (proj1 (default_interval_holds_now (-18000000) 1700000000000 Hs)).
Defined.

End ShiftExtras.

Module DateFilterExtras.
Import Js Mapa Shifts ShiftFacts.

Lemma Date_ymd_NaN (Date_local : Z -> Z -> Z -> Date) (y m : num) :
  Date_ymd Date_local y m NaN = InvalidDate.
Proof. destruct y, m; reflexivity. Qed.

(** A date string with fewer than two hyphens has no day. *)
Lemma parseFecha_short (Date_local : Z -> Z -> Z -> Date) (v : string) :
  (List.length (split "-" v) < 3)%nat -> parseFecha Date_local v = InvalidDate.
Proof.
  intro H. unfold parseFecha.
  assert (E : part_num (split "-" v) 2 = NaN).
  { unfold part_num. now rewrite (proj2 (nth_error_None _ _)) by lia. }
  rewrite E. apply Date_ymd_NaN.
Qed.

Section Page.
Variable tz : Z.
Variable Date_local : Z -> Z -> Z -> Date.
Variable norm_text : string -> string.
Variable row : Type.
Variable _when : row -> Date.

Lemma latest_step_no_start (f : Personal.filtersS) (l : JsMap.t Personal.info)
    (rec : Personal.recS) :
  Personal.f_start f = InvalidDate -> Personal.latest_step norm_text f l rec = l.
Proof.
  intro Hf. unfold Personal.latest_step.
  destruct (getCoords _); [| reflexivity ].
  rewrite Hf.
  assert (E : Date_ge (Personal.when rec) InvalidDate = false)
    by (unfold Date_ge, num_ge; cbn [getTime num_le]; reflexivity).
  rewrite E. reflexivity.
Qed.

Lemma build_latest_no_start (f : Personal.filtersS) (docsS : JsMap.t Personal.recS) :
  Personal.f_start f = InvalidDate -> Personal.build_latest norm_text f docsS = [].
Proof.
  intro Hf. unfold Personal.build_latest.
  generalize (JsMap.values docsS). intro l.
  induction l as [|rec l IH]; [ reflexivity |].
  cbn [fold_left]. now rewrite latest_step_no_start.
Qed.

Lemma rebuild_loop_none (f : Alertas.filtersA) (docs : list Alertas.recA) (v : Alertas.viewA) :
  (forall rec, Alertas.shown f rec = None) -> Alertas.rebuild_loop f docs v = v.
Proof.
  intro H. induction docs as [|rec docs IH]; [ reflexivity |].
  cbn [Alertas.rebuild_loop]. now rewrite H.
Qed.

(** When the date of the page does not parse (the cleared date input gives
    the empty string), the interval has no bounds and nothing passes it: the
    report by day is empty, the personnel panel keeps no record and shows no
    marker, and the alert panel in mode "range" shows no alert. *)
Theorem no_date_nothing_shown (fecha : string) :
  parseFecha Date_local fecha = InvalidDate ->
  (forall rows turno,
     Reportes.rowsByDay tz Date_local row _when rows fecha turno = [])
  /\ (forall st p docsS,
        Panels.fechaSerenos p = fecha ->
        let v := Personal.rebuildSerenos norm_text st
                   (Panels.filtersS_of tz Date_local norm_text p) docsS in
        Personal.latest v = [] /\ Personal.markers v = []
        /\ Personal.countSerenos v = 0%nat)
  /\ (forall p now docsA,
        Panels.fechaAlertas p = fecha -> Panels.alertMode p = Some "range" ->
        Alertas.rebuildAlertas (Panels.filtersA_of tz Date_local p now) docsA
        = Alertas.mkViewA [] 0%nat).
Proof.
  intro Hp. split; [| split ].
  - intros rows turno. unfold Reportes.rowsByDay. rewrite Hp, intervaloTurno_invalid.
    induction rows as [|x rows IH]; [ reflexivity |].
    cbn [filter]. now rewrite within_invalid_start.
  - intros st p docsS Hf v. subst v. unfold Personal.rebuildSerenos.
    cbn [Personal.latest Personal.markers Personal.countSerenos].
    rewrite build_latest_no_start.
    + repeat split.
    + unfold Panels.filtersS_of. rewrite Hf, Hp, intervaloTurno_invalid. reflexivity.
  - intros p now docsA Hf Hm. unfold Alertas.rebuildAlertas.
    apply rebuild_loop_none. intro rec. unfold Alertas.shown.
    destruct (getCoords _); [| reflexivity ].
    unfold Alertas.include, Panels.filtersA_of, Alertas.range_start, Alertas.range_end.
    rewrite Hm, Hf, Hp, intervaloTurno_invalid.
    cbn [Alertas.mode str_or_default str_or String.eqb Ascii.eqb Bool.eqb
         Alertas.range fst snd Alertas.bound_time getTime].
    unfold num_ge. destruct (getTime (Alertas.when rec)); reflexivity.
Qed.

End Page.

Lemma no_date_nothing_shown_witness :
  parseFecha (fun _ _ _ => DateMs 0) "" = InvalidDate
  /\ Reportes.rowsByDay (-18000000) (fun _ _ _ => DateMs 0) Z DateMs [0; 1] "" "t1" = [].
Proof.
  assert (Hp : parseFecha (fun _ _ _ => DateMs 0) "" = InvalidDate) by reflexivity.
  split; [ exact Hp |].
  exact (proj1 (no_date_nothing_shown (-18000000) (fun _ _ _ => DateMs 0)
                  (fun s => s) Z DateMs "" Hp) [0; 1] "t1").
Defined.

End DateFilterExtras.

Module ReportOrder.
Import Js Mapa Shifts ShiftFacts.

Lemma StronglySorted_filter {A : Type} (R : A -> A -> Prop) (p : A -> bool) (l : list A) :
  StronglySorted R l -> StronglySorted R (filter p l).
Proof.
  induction 1 as [|x l Hs IH Hx]; cbn [filter]; [ constructor |].
  destruct (p x); [| exact IH ].
  constructor; [ exact IH |].
  apply Forall_forall. intros y Hy. apply filter_In in Hy.
  rewrite Forall_forall in Hx. now apply Hx.
Qed.

Section Rows.
Variable tz : Z.
Variable Date_local : Z -> Z -> Z -> Date.
Variable row : Type.
Variable _when : row -> Date.

Definition dated (x : row) : Prop := _when x <> InvalidDate.

Lemma after_ms (x y : row) (a b : Z) :
  _when x = DateMs a -> _when y = DateMs b ->
  sorts_after (Reportes.by_when_desc row _when) x y = (a <? b).
Proof.
  intros Hx Hy. unfold sorts_after, Reportes.by_when_desc. rewrite Hx, Hy.
  unfold num_gt, getTime, num_of_Z, num_sub, num_neg, num_add, num_lt, Qlt_bool.
  destruct (Z.ltb_spec a b) as [H | H].
  - apply negb_true_iff.
    destruct (Qle_bool _ _) eqn:E; [| reflexivity ].
    apply Qle_bool_iff in E.
    assert (E' : (inject_Z b <= inject_Z a)%Q) by lra.
    rewrite <- Zle_Qle in E'. lia.
  - apply negb_false_iff, Qle_bool_iff.
    assert (E' : (inject_Z b <= inject_Z a)%Q) by now rewrite <- Zle_Qle.
    lra.
Qed.

Lemma dated_ms (x : row) : dated x -> exists a, _when x = DateMs a.
Proof.
  unfold dated. destruct (_when x) as [|a]; [ congruence | now exists a ].
Qed.

(** The rows a snapshot handler keeps for the reports, all of them with a
    valid date: they are the rows built from the snapshot, most recent first,
    rows of the same instant in the order of the snapshot; the report by day
    and shift is the part of them within the interval, in the same order. *)
Theorem report_most_recent_first (rows : list row) (fecha turno : string) :
  Forall dated rows ->
  let all := Reportes.sort_rows row _when rows in
  let newer x y := Date_ge (_when x) (_when y) = true in
  Permutation all rows
  /\ StronglySorted newer all
  /\ (forall w, filter (fun x => Date_ge (_when x) w && Date_ge w (_when x))%bool all
                = filter (fun x => Date_ge (_when x) w && Date_ge w (_when x))%bool rows)
  /\ StronglySorted newer (Reportes.rowsByDay tz Date_local row _when all fecha turno)
  /\ forall x, In x (Reportes.rowsByDay tz Date_local row _when all fecha turno)
               <-> In x rows
                   /\ within (_when x)
                        (intervaloTurno tz (parseFecha Date_local fecha) turno) = true.
Proof.
  intros Hd all newer. subst all. unfold Reportes.sort_rows.
  set (cmp := Reportes.by_when_desc row _when).
  assert (Hperm : Permutation (Array_sort cmp rows) rows)
    by apply SortFacts.Array_sort_perm.
  assert (Hsorted : StronglySorted newer (Array_sort cmp rows)).
  { assert (H : StronglySorted (fun x y => sorts_after cmp x y = false) (Array_sort cmp rows)).
    { apply (SortFacts.Array_sort_sorted cmp dated); [ | | exact Hd ].
      - intros x y Hx Hy. destruct (dated_ms x Hx) as [a Ha], (dated_ms y Hy) as [b Hb].
        unfold cmp. rewrite (after_ms x y a b Ha Hb), (after_ms y x b a Hb Ha).
        rewrite !Z.ltb_lt, !Z.ltb_ge. lia.
      - intros x y z Hx Hy Hz.
        destruct (dated_ms x Hx) as [a Ha], (dated_ms y Hy) as [b Hb],
                 (dated_ms z Hz) as [c Hc].
        unfold cmp.
        rewrite (after_ms x y a b Ha Hb), (after_ms y z b c Hb Hc),
                (after_ms x z a c Ha Hc).
        rewrite !Z.ltb_ge. lia. }
    assert (Hd' : Forall dated (Array_sort cmp rows)).
    { apply Forall_forall. intros x Hx. rewrite Forall_forall in Hd.
      apply Hd. now apply (proj1 (SortFacts.Array_sort_In cmp rows x)). }
    clear Hperm. induction H as [|x l Hs IH Hx]; [ constructor |].
    inversion Hd' as [|? ? Hdx Hdl]; subst.
    constructor; [ now apply IH |].
    apply Forall_forall. intros y Hy.
    rewrite Forall_forall in Hx, Hdl.
    pose proof (Hx y Hy) as Hxy. pose proof (Hdl y Hy) as Hdy.
    destruct (dated_ms x Hdx) as [a Ha], (dated_ms y Hdy) as [b Hb].
    unfold cmp in Hxy. rewrite (after_ms x y a b Ha Hb) in Hxy.
    unfold newer. rewrite Ha, Hb, ge_ms. apply Z.leb_le. apply Z.ltb_ge in Hxy. lia. }
  split; [ exact Hperm |]. split; [ exact Hsorted |]. split; [| split ].
  - intro w. apply SortFacts.filter_Array_sort.
    intros x y Hx Hy. apply andb_true_iff in Hx, Hy.
    destruct Hx as [Hx1 Hx2], Hy as [Hy1 Hy2].
    destruct w as [|c];
      [ unfold Date_ge, num_ge in Hx2; cbn [getTime num_le] in Hx2; discriminate |].
    destruct (_when x) as [|a] eqn:Ha;
      [ unfold Date_ge, num_ge in Hx2; cbn in Hx2; discriminate |].
    destruct (_when y) as [|b] eqn:Hb;
      [ unfold Date_ge, num_ge in Hy2; cbn in Hy2; discriminate |].
    rewrite ge_ms in Hx1, Hx2, Hy1, Hy2.
    unfold cmp. rewrite (after_ms x y a b Ha Hb). apply Z.ltb_ge.
    apply Z.leb_le in Hx1, Hx2, Hy1, Hy2. lia.
  - unfold Reportes.rowsByDay. now apply StronglySorted_filter.
  - intro x. unfold Reportes.rowsByDay. rewrite filter_In.
    rewrite (SortFacts.Array_sort_In cmp rows x). reflexivity.
Qed.

End Rows.

Lemma report_most_recent_first_witness :
  Reportes.sort_rows Z DateMs [1; 3; 2] = [3; 2; 1]
  /\ Permutation (Reportes.sort_rows Z DateMs [1; 3; 2]) [1; 3; 2].
Proof.
  split; [ reflexivity |].
  assert (Hd : Forall (dated Z DateMs) [1; 3; 2])
    by (repeat constructor; discriminate).
  exact (proj1 (report_most_recent_first (-18000000) (fun _ _ _ => DateMs 0)
                  Z DateMs [1; 3; 2] "" "t1" Hd)).
Defined.

End ReportOrder.

(* ================================================================== *)
(** ** The snapshot handler of the alerts *)
(* ================================================================== *)

Module AlertasSnapshotFacts.
Import Js Mapa Shifts Alertas Panels AlertasSnapshot.

Lemma eqb_neq_false (a b : string) : a <> b -> String.eqb a b = false.
Proof. intro H. now apply String.eqb_neq. Qed.

Section Delete.
Context {V : Type}.

Lemma keys_delete (k : string) (m : JsMap.t V) :
  JsMap.keys (Map_delete k m) = filter (fun x => negb (String.eqb x k)) (JsMap.keys m).
Proof.
  unfold JsMap.keys, Map_delete. induction m as [|[k' v] m IH]; [ reflexivity |].
  cbn [filter map fst]. destruct (String.eqb k' k); cbn [negb map fst]; now rewrite IH.
Qed.

Lemma In_key_delete (k k' : string) (m : JsMap.t V) :
  In k' (JsMap.keys (Map_delete k m)) <-> In k' (JsMap.keys m) /\ k' <> k.
Proof.
  rewrite keys_delete, filter_In, negb_true_iff, String.eqb_neq. reflexivity.
Qed.

Lemma NoDup_keys_delete (k : string) (m : JsMap.t V) :
  NoDup (JsMap.keys m) -> NoDup (JsMap.keys (Map_delete k m)).
Proof. intro H. rewrite keys_delete. now apply NoDup_filter. Qed.

Lemma In_delete (k : string) (kv : string * V) (m : JsMap.t V) :
  In kv (Map_delete k m) -> In kv m.
Proof. unfold Map_delete. rewrite filter_In. tauto. Qed.
End Delete.

(** The representation of the module state: the caches are maps (each key
    once), a cached record carries the id it is cached under, every marker
    belongs to a cached record, and the layer holds cached markers only. *)
Definition wf (docs : JsMap.t recA) (markers : JsMap.t marker) (capa : list string) : Prop :=
  NoDup (JsMap.keys docs)
  /\ (forall k rec, In (k, rec) docs -> rec_id rec = k)
  /\ NoDup (JsMap.keys markers)
  /\ (forall k, In k (JsMap.keys markers) -> In k (JsMap.keys docs))
  /\ NoDup capa
  /\ (forall id, In id capa -> In id (JsMap.keys markers)).

Definition wf_state (st : stateA) : Prop :=
  wf (docsA st) (markersA st) (capaAlertas st).

Definition wf_progress (pr : progress) : Prop :=
  wf (p_docs pr) (p_markers pr) (p_capa pr).

(** The ids of the changes of type "added". *)
Definition news (chs : list change) : list string :=
  map ch_id (filter (fun ch => is_added (ch_type ch)) chs).

Lemma set_doc_wf (docs : JsMap.t recA) (markers : JsMap.t marker)
    (capa : list string) (id : string) (d : alerta) (w : Date) :
  wf docs markers capa -> wf (JsMap.set id (mkRecA id d w) docs) markers capa.
Proof.
  intros (Hd & Hid & Hm & Hmd & Hc & Hcm). repeat split; auto.
  - now apply JsMapFacts.NoDup_keys_set.
  - intros k rec Hin. apply JsMapFacts.In_set in Hin.
    destruct Hin as [[-> ->] | Hin]; [ reflexivity | now apply Hid ].
  - intros k Hk. apply JsMapFacts.In_key_set. now apply Hmd.
Qed.

Lemma delete_doc_wf (docs : JsMap.t recA) (markers : JsMap.t marker)
    (capa : list string) (id : string) :
  wf docs markers capa ->
  wf (Map_delete id docs) (Map_delete id markers) (removeLayer id capa).
Proof.
  intros (Hd & Hid & Hm & Hmd & Hc & Hcm). repeat split.
  - now apply NoDup_keys_delete.
  - intros k rec Hin. apply In_delete in Hin. now apply Hid.
  - now apply NoDup_keys_delete.
  - intros k Hk. apply In_key_delete in Hk. destruct Hk as [Hk Hne].
    apply In_key_delete. split; [ now apply Hmd | exact Hne ].
  - unfold removeLayer. now apply NoDup_filter.
  - intros x Hx. unfold removeLayer in Hx. apply filter_In in Hx.
    destruct Hx as [Hx Hne]. apply negb_true_iff, String.eqb_neq in Hne.
    apply In_key_delete. split; [ now apply Hcm | exact Hne ].
Qed.

Lemma delete_absent {V : Type} (k : string) (m : JsMap.t V) :
  ~ In k (JsMap.keys m) -> Map_delete k m = m.
Proof.
  unfold Map_delete, JsMap.keys. induction m as [|[k' v] m IH]; [ reflexivity |].
  cbn [map fst In filter]. intro H.
  rewrite (eqb_neq_false k' k) by (intro E; apply H; now left).
  cbn [negb]. rewrite IH; [ reflexivity | tauto ].
Qed.

Lemma removeLayer_absent (id : string) (capa : list string) :
  ~ In id capa -> removeLayer id capa = capa.
Proof.
  unfold removeLayer. induction capa as [|x capa IH]; [ reflexivity |].
  cbn [In filter]. intro H.
  rewrite (eqb_neq_false x id) by (intro E; apply H; now left).
  cbn [negb]. rewrite IH; [ reflexivity | tauto ].
Qed.

Section Changes.
Variable Date_parse : string -> Date.

Lemma apply_change_wf (init : bool) (pr pr' : progress) (ch : change) :
  wf_progress pr -> apply_change Date_parse init pr ch = Normal pr' ->
  wf_progress pr'
  /\ incl (newIds pr') (newIds pr ++ news [ch]).
Proof.
  intros Hwf E. unfold apply_change in E.
  assert (Hset : forall t, ch_type ch = t -> t <> removed ->
            match getWhenA Date_parse (createdAt ch) with
            | Normal when0 =>
                Normal (mkProgress
                          (JsMap.set (ch_id ch) (mkRecA (ch_id ch) (ch_data ch) when0)
                             (p_docs pr))
                          (p_markers pr) (p_capa pr)
                          (if (init && is_added t)%bool
                           then newIds pr ++ [ch_id ch] else newIds pr))
            | Throw => Throw
            end = Normal pr' ->
            wf_progress pr' /\ incl (newIds pr') (newIds pr ++ news [ch])).
  { clear E. intros t Et Hne E'.
    destruct (getWhenA Date_parse (createdAt ch)) as [w|]; [| discriminate ].
    injection E' as <-. split.
    - now apply set_doc_wf.
    - cbn [newIds]. unfold news. cbn [filter]. rewrite Et.
      destruct t; try congruence; destruct init; cbn [andb is_added map];
        rewrite ?app_nil_r;
        first [ apply incl_refl | apply incl_appl, incl_refl ]. }
  destruct (ch_type ch) eqn:Et.
  - apply (Hset added); [ reflexivity | discriminate | exact E ].
  - apply (Hset modified); [ reflexivity | discriminate | exact E ].
  - clear Hset.
    assert (Hn : incl (newIds pr) (newIds pr ++ news [ch]))
      by (intros x Hx; apply in_or_app; now left).
    pose proof (delete_doc_wf _ _ _ (ch_id ch) Hwf) as Hdel.
    destruct (JsMap.get (ch_id ch) (p_markers pr)) eqn:Eg;
      injection E as <-; (split; [| exact Hn ]).
    + exact Hdel.
    + unfold wf_progress. cbn [p_docs p_markers p_capa].
      apply JsMapFacts.get_None_not_key in Eg.
      rewrite (delete_absent _ _ Eg) in Hdel.
      rewrite removeLayer_absent in Hdel; [ exact Hdel |].
      intro Hin. apply Eg. destruct Hwf as (_ & _ & _ & _ & _ & Hcm). now apply Hcm.
Qed.

Lemma apply_changes_wf (init : bool) (chs : list change) (pr pr' : progress) (b : bool) :
  wf_progress pr -> apply_changes Date_parse init chs pr = (pr', b) ->
  wf_progress pr'
  /\ incl (newIds pr') (newIds pr ++ news chs).
Proof.
  revert pr. induction chs as [|ch chs IH]; intros pr Hwf E; cbn [apply_changes] in E.
  - injection E as <- <-. split; [ exact Hwf |].
    intros x Hx. apply in_or_app. now left.
  - destruct (apply_change Date_parse init pr ch) as [pr1|] eqn:E1.
    + destruct (apply_change_wf _ _ _ _ Hwf E1) as [Hwf1 Hn1].
      destruct (IH pr1 Hwf1 E) as [Hwf' Hn']. split; [ exact Hwf' |].
      intros x Hx. apply Hn' in Hx. apply in_app_or in Hx.
      destruct Hx as [Hx | Hx].
      * apply Hn1 in Hx. apply in_app_or in Hx. apply in_or_app.
        destruct Hx as [Hx | Hx]; [ now left | right ].
        unfold news in *. cbn [filter] in *.
        destruct (is_added (ch_type ch)); cbn [map] in *; [| destruct Hx ].
        destruct Hx as [<- | []]. now left.
      * apply in_or_app. right. unfold news in *. cbn [filter].
        destruct (is_added (ch_type ch)); cbn [map]; [ now right | exact Hx ].
    + injection E as <- <-. split; [ exact Hwf |].
      intros x Hx. apply in_or_app. now left.
Qed.

End Changes.

(** *** The redraw *)

Definition sh (f : filtersA) (r : recA) : list (recA * (num * num)) :=
  match shown f r with Some m => [m] | None => [] end.

Definition id_of (m : recA * (num * num)) : string := rec_id (fst m).

Lemma layer_flat (f : filtersA) (docs : JsMap.t recA) :
  layer (rebuildAlertas f docs) = flat_map (sh f) (JsMap.values docs).
Proof.
  unfold rebuildAlertas.
  now rewrite (proj1 (AlertasClaims.rebuild_loop_spec f (JsMap.values docs) (mkViewA [] 0%nat))).
Qed.

Lemma shown_Some (f : filtersA) (r : recA) (m : recA * (num * num)) :
  shown f r = Some m <->
  fst m = r /\ getCoords (coordsObj_of (data r)) = Some (snd m)
  /\ include f (when r) = true.
Proof.
  unfold shown. destruct (getCoords (coordsObj_of (data r))) as [c|].
  - destruct (include f (when r)); split.
    + intros [= <-]. repeat split.
    + intros (H1 & [= H2] & _). destruct m as [r' c']. cbn in *. congruence.
    + discriminate.
    + intros (_ & _ & H). discriminate.
  - split; [ discriminate | intros (_ & H & _); discriminate ].
Qed.

Lemma layer_In (f : filtersA) (docs : JsMap.t recA) (m : recA * (num * num)) :
  In m (layer (rebuildAlertas f docs))
  <-> In (fst m) (JsMap.values docs) /\ shown f (fst m) = Some m.
Proof.
  rewrite layer_flat, in_flat_map. unfold sh. split.
  - intros (r & Hr & Hm). destruct (shown f r) as [m'|] eqn:E; [| destruct Hm ].
    destruct Hm as [<- | []]. pose proof (proj1 (shown_Some f r m') E) as (H1 & _).
    rewrite H1. split; assumption.
  - intros [Hr Hs]. exists (fst m). split; [ exact Hr |]. rewrite Hs. now left.
Qed.

Lemma layer_ids_NoDup (f : filtersA) (l : list recA) :
  NoDup (map rec_id l) -> NoDup (map id_of (flat_map (sh f) l)).
Proof.
  induction l as [|r l IH]; cbn [map flat_map]; intro H; [ constructor |].
  inversion H as [|? ? Hn Hl]; subst. unfold sh at 1.
  destruct (shown f r) as [m|] eqn:E; cbn [app map]; [| now apply IH ].
  constructor; [| now apply IH ].
  intro Hin. apply Hn. apply in_map_iff in Hin. destruct Hin as (m' & Hid & Hm').
  apply in_flat_map in Hm'. destruct Hm' as (r' & Hr' & Hm').
  unfold sh in Hm'. destruct (shown f r') as [m''|] eqn:E'; [| destruct Hm' ].
  destruct Hm' as [-> | []].
  apply shown_Some in E, E'. destruct E as (E1 & _), E' as (E1' & _).
  unfold id_of in Hid. rewrite E1, E1' in Hid. rewrite <- Hid.
  now apply in_map.
Qed.

Lemma values_ids (docs : JsMap.t recA) :
  (forall k rec, In (k, rec) docs -> rec_id rec = k) ->
  map rec_id (JsMap.values docs) = JsMap.keys docs.
Proof.
  unfold JsMap.values, JsMap.keys. induction docs as [|[k rec] docs IH]; [ reflexivity |].
  intro H. cbn [map fst snd]. rewrite (H k rec) by now left.
  rewrite IH; [ reflexivity |]. intros k' rec' Hin. apply H. now right.
Qed.

Lemma placed_keys (b : bool) (l : list (recA * (num * num))) (ms : JsMap.t marker) (k : string) :
  In k (JsMap.keys (fold_left (place b) l ms))
  <-> In k (JsMap.keys ms) \/ In k (map id_of l).
Proof.
  revert ms. induction l as [|m l IH]; intro ms; cbn [fold_left map In].
  - tauto.
  - rewrite IH. unfold place at 1. rewrite JsMapFacts.keys_set. fold (id_of m).
    destruct (JsMap.has (id_of m) ms) eqn:Eh.
    + split; [ tauto |]. intros [H | [<- | H]]; auto.
      left. unfold JsMap.has in Eh.
      destruct (JsMap.get (id_of m) ms) eqn:Eg; [| discriminate ].
      apply JsMapFacts.get_In in Eg. change (id_of m) with (fst (id_of m, m0)).
      now apply in_map.
    + rewrite in_app_iff. cbn [In]. tauto.
Qed.

Lemma placed_NoDup (b : bool) (l : list (recA * (num * num))) (ms : JsMap.t marker) :
  NoDup (JsMap.keys ms) -> NoDup (JsMap.keys (fold_left (place b) l ms)).
Proof.
  revert ms. induction l as [|m l IH]; intros ms H; cbn [fold_left]; [ exact H |].
  apply IH. unfold place. now apply JsMapFacts.NoDup_keys_set.
Qed.

Lemma placed_get_other (b : bool) (l : list (recA * (num * num))) (ms : JsMap.t marker)
    (k : string) :
  ~ In k (map id_of l) -> JsMap.get k (fold_left (place b) l ms) = JsMap.get k ms.
Proof.
  revert ms. induction l as [|m l IH]; intros ms H; cbn [fold_left]; [ reflexivity |].
  cbn [map In] in H. rewrite IH by tauto.
  unfold place. apply JsMapFacts.get_set_other. fold (id_of m). tauto.
Qed.

Lemma placed_get (b : bool) (l : list (recA * (num * num))) (ms : JsMap.t marker)
    (m : recA * (num * num)) :
  NoDup (map id_of l) -> In m l ->
  JsMap.get (id_of m) (fold_left (place b) l ms) = Some (mkMarker (snd m) b).
Proof.
  revert ms. induction l as [|m' l IH]; intros ms Hn Hin; [ destruct Hin |].
  cbn [fold_left]. cbn [map] in Hn. inversion Hn as [|? ? Hn1 Hn2]; subst.
  destruct Hin as [-> | Hin].
  - rewrite placed_get_other by exact Hn1. unfold place. apply JsMapFacts.get_set_same.
  - now apply IH.
Qed.

Lemma addLayer_In (ids acc : list string) (x : string) :
  In x (fold_left addLayer ids acc) <-> In x acc \/ In x ids.
Proof.
  revert acc. induction ids as [|i ids IH]; intro acc; cbn [fold_left In]; [ tauto |].
  rewrite IH. unfold addLayer. destruct (existsb (String.eqb i) acc) eqn:E.
  - apply existsb_exists in E. destruct E as (y & Hy & Ey).
    apply String.eqb_eq in Ey. subst y. split; [ tauto |].
    intros [H | [<- | H]]; auto.
  - rewrite in_app_iff. cbn [In]. tauto.
Qed.

Lemma addLayer_NoDup (ids acc : list string) :
  NoDup acc -> NoDup (fold_left addLayer ids acc).
Proof.
  revert acc. induction ids as [|i ids IH]; intros acc H; cbn [fold_left]; [ exact H |].
  apply IH. unfold addLayer. destruct (existsb (String.eqb i) acc) eqn:E; [ exact H |].
  apply NoDup_app; [ exact H | repeat constructor; intros [] |].
  intros x Hx [E' | []]. subst x.
  assert (Ht : existsb (String.eqb i) acc = true)
    by (apply existsb_exists; exists i; split; [ exact Hx | apply String.eqb_refl ]).
  congruence.
Qed.

Lemma redraw_wf (f : filtersA) (b : bool) (docs : JsMap.t recA) (ms : JsMap.t marker)
    (capa : list string) :
  wf docs ms capa ->
  wf docs (fold_left (place b) (layer (rebuildAlertas f docs)) ms)
     (fold_left addLayer (map id_of (layer (rebuildAlertas f docs))) []).
Proof.
  intros (Hd & Hid & Hm & Hmd & Hc & Hcm). repeat split; auto.
  - now apply placed_NoDup.
  - intros k Hk. apply placed_keys in Hk. destruct Hk as [Hk | Hk]; [ now apply Hmd |].
    apply in_map_iff in Hk. destruct Hk as (m & <- & Hin).
    apply layer_In in Hin. destruct Hin as [Hin _].
    rewrite <- (values_ids docs Hid). unfold id_of. now apply in_map.
  - apply addLayer_NoDup. constructor.
  - intros id Hin. apply addLayer_In in Hin. destruct Hin as [[] | Hin].
    apply placed_keys. now right.
Qed.

(** *** The flight *)

Definition mode_of (p : pageA) : string := str_or_default (alertMode p) "active".

Definition mode_ok (p : pageA) : Prop := mode_of p = "active" \/ mode_of p = "range".

Section Flight.
Variable tz : Z.
Variable Date_local : Z -> Z -> Z -> Date.

Lemma first_visible_Some (p : pageA) (now : Z) (docs : JsMap.t recA)
    (markers : JsMap.t marker) (ids : list string) (id : string) (c : num * num)
    (hm : bool) :
  first_visible tz Date_local p now docs markers ids = Some (id, c, hm) ->
  In id ids
  /\ hm = JsMap.has id markers
  /\ exists rec, JsMap.get id docs = Some rec
                 /\ getCoords (coordsObj_of (data rec)) = Some c
                 /\ visible tz Date_local p now rec = true.
Proof.
  induction ids as [|i ids IH]; cbn [first_visible]; [ discriminate |].
  intro E.
  assert (Hrec : first_visible tz Date_local p now docs markers ids = Some (id, c, hm) ->
                 In id (i :: ids)
                 /\ hm = JsMap.has id markers
                 /\ exists rec, JsMap.get id docs = Some rec
                                /\ getCoords (coordsObj_of (data rec)) = Some c
                                /\ visible tz Date_local p now rec = true).
  { intro E'. destruct (IH E') as (H1 & H2 & H3). repeat split; auto. now right. }
  destruct (JsMap.get i docs) as [rec|] eqn:Eg; [| now apply Hrec ].
  destruct (getCoords (coordsObj_of (data rec))) as [c'|] eqn:Ec; [| now apply Hrec ].
  destruct (visible tz Date_local p now rec) eqn:Ev; [| now apply Hrec ].
  injection E as <- <- <-. repeat split; [ now left |].
  exists rec. auto.
Qed.

Lemma visible_include (p : pageA) (now1 now2 : Z) (rec : recA) :
  mode_ok p -> now1 <= now2 ->
  visible tz Date_local p now2 rec = true ->
  include (filtersA_of tz Date_local p now1) (when rec) = true.
Proof.
  intros Hm Hn Hv. unfold visible in Hv. fold (mode_of p) in Hv.
  set (f := filtersA_of tz Date_local p now1).
  assert (Hf : mode f = mode_of p) by reflexivity.
  destruct Hm as [Hm | Hm]; rewrite Hm in Hv.
  - cbn [String.eqb Ascii.eqb Bool.eqb] in Hv.
    apply (AlertasClaims.include_active f); [ congruence |].
    pose proof (AlertasClaims.include_active
                  (mkFiltersA "active" now2 (InvalidDate, InvalidDate)) (when rec)
                  eq_refl) as H2.
    unfold include in H2. cbn [mode now String.eqb Ascii.eqb Bool.eqb] in H2.
    apply H2 in Hv. destruct Hv as (t & Ht & Hle). exists t. split; [ exact Ht |].
    change (now f) with now1. lia.
  - cbn [String.eqb Ascii.eqb Bool.eqb] in Hv.
    unfold include, range_start, range_end. rewrite Hf, Hm.
    cbn [String.eqb Ascii.eqb Bool.eqb bound_time]. exact Hv.
Qed.

Lemma visible_same_time (p : pageA) (now : Z) (rec : recA) :
  mode_ok p ->
  visible tz Date_local p now rec = include (filtersA_of tz Date_local p now) (when rec).
Proof.
  intro Hm. unfold visible, include, range_start, range_end. fold (mode_of p).
  change (mode (filtersA_of tz Date_local p now)) with (mode_of p).
  destruct Hm as [Hm | Hm]; rewrite Hm; reflexivity.
Qed.

End Flight.

End AlertasSnapshotFacts.

Module AlertasSnapshotExtras.
Import Js Mapa Shifts Alertas Panels AlertasSnapshot AlertasSnapshotFacts.

Section Handler.
Variable tz : Z.
Variable Date_parse : string -> Date.
Variable Date_local : Z -> Z -> Z -> Date.

(** The handler of the alert snapshots keeps the module state coherent (each
    marker belongs to a cached record, the layer holds cached markers only),
    also when [getWhenA] raises half way. When it does not raise, the layer
    holds exactly the cached records [rebuildAlertas] includes. The map flies
    only after the first snapshot, and then to a record added by this
    snapshot that is on the layer, at the position of its marker (the clock
    not running backwards between the redraw and the flight loop, the mode
    being "active" or "range"). *)
Theorem snapshot_keeps_state_coherent (p : pageA) (now1 now2 : Z)
    (changes : list change) (st : stateA) :
  wf_state st ->
  let r := onAlertasSnapshot tz Date_parse Date_local p now1 now2 changes st in
  let f := filtersA_of tz Date_local p now1 in
  wf_state (state r)
  /\ (raised r = false ->
      initialized (state r) = true
      /\ forall id, In id (capaAlertas (state r))
                    <-> exists rec c, JsMap.get id (docsA (state r)) = Some rec
                                      /\ getCoords (coordsObj_of (data rec)) = Some c
                                      /\ include f (when rec) = true)
  /\ (initialized st = false \/ raised r = true -> flight r = None)
  /\ (mode_ok p -> now1 <= now2 ->
      forall id c hm, flight r = Some (id, c, hm) ->
        In id (news changes)
        /\ hm = true
        /\ In id (capaAlertas (state r))
        /\ JsMap.get id (markersA (state r))
           = Some (mkMarker c (String.eqb (mode_of p) "active"))).
Proof.
  intros Hwf r f. subst r. unfold onAlertasSnapshot.
  destruct (apply_changes Date_parse (initialized st) changes
              (mkProgress (docsA st) (markersA st) (capaAlertas st) []))
    as [pr b] eqn:E.
  destruct (apply_changes_wf Date_parse _ _
              (mkProgress (docsA st) (markersA st) (capaAlertas st) []) _ _ Hwf E)
    as [Hpr Hnew].
  cbn [newIds app] in Hnew.
  destruct b.
  - cbn [state raised flight]. split; [ exact Hpr |]. split; [ discriminate |].
    split; [ reflexivity | discriminate ].
  - cbn [state raised flight initialized capaAlertas markersA docsA].
    fold f. change (fun m : recA * (num * num) => rec_id (fst m)) with id_of.
    pose proof (redraw_wf f (String.eqb (mode f) "active") _ _ _ Hpr) as Hwf'.
    destruct Hpr as (Hd & Hid & Hm & Hmd & Hc & Hcm).
    assert (Hlayer : forall id rec c,
              JsMap.get id (p_docs pr) = Some rec ->
              getCoords (coordsObj_of (data rec)) = Some c ->
              include f (when rec) = true ->
              In (rec, c) (layer (rebuildAlertas f (p_docs pr))) /\ rec_id rec = id).
    { intros id rec c Hg Hco Hi. apply JsMapFacts.get_In in Hg. split.
      - apply layer_In. cbn [fst]. split.
        + change rec with (snd (id, rec)). now apply in_map.
        + apply shown_Some. cbn [fst snd]. auto.
      - now apply Hid. }
    split; [ exact Hwf' |]. split; [| split ].
    + intros _. split; [ reflexivity |]. intro id. rewrite addLayer_In. split.
      * intros [[] | Hin]. apply in_map_iff in Hin. destruct Hin as ([rec c] & Hi & Hin).
        apply layer_In in Hin. cbn [fst] in Hin. destruct Hin as [Hv Hs].
        apply shown_Some in Hs. cbn [fst snd] in Hs. destruct Hs as (_ & Hco & Hinc).
        exists rec, c. repeat split; auto.
        apply in_map_iff in Hv. destruct Hv as ([k rec'] & Hk & Hv). cbn in Hk. subst rec'.
        unfold id_of in Hi. cbn [fst] in Hi.
        rewrite (Hid k rec Hv) in Hi. subst k.
        now apply JsMapFacts.In_get_NoDup.
      * intros (rec & c & Hg & Hco & Hinc). right.
        destruct (Hlayer id rec c Hg Hco Hinc) as [Hin Hrid].
        apply in_map_iff. exists (rec, c). split; [ exact Hrid | exact Hin ].
    + intros [Hi | Hr]; [| discriminate ]. now rewrite Hi.
    + intros Hok Hnow id c hm Hfl.
      destruct (initialized st && negb (List.length (newIds pr) =? 0)%nat)%bool;
        [| discriminate ].
      apply first_visible_Some in Hfl. destruct Hfl as (Hin & Hhm & rec & Hg & Hco & Hv).
      pose proof (visible_include tz Date_local p now1 now2 rec Hok Hnow Hv) as Hinc.
      fold f in Hinc.
      destruct (Hlayer id rec c Hg Hco Hinc) as [Hl Hrid].
      assert (Hget : JsMap.get id
                       (fold_left (place (String.eqb (mode f) "active"))
                          (layer (rebuildAlertas f (p_docs pr))) (p_markers pr))
                     = Some (mkMarker c (String.eqb (mode f) "active"))).
      { rewrite <- Hrid. change (rec_id rec) with (id_of (rec, c)).
        change c with (snd (rec, c)) at 2.
        apply placed_get; [| exact Hl ].
        rewrite layer_flat. apply layer_ids_NoDup.
        now rewrite (values_ids _ Hid). }
      split; [ now apply Hnew |]. split; [| split ].
      * rewrite Hhm. unfold JsMap.has. now rewrite Hget.
      * apply addLayer_In. right. apply in_map_iff. exists (rec, c). split; assumption.
      * exact Hget.
Qed.


End Handler.


Definition no_alerts : stateA := mkStateA [] [] [] [] true.

Definition alert_added : change :=
  mkChange added "a1" AlertasClaims.alerta_plaza (VNum (num_of_Z 2000)).

Definition default_page : pageA := mkPageA None "" None.

Lemma wf_no_alerts : wf_state no_alerts.
Proof.
  unfold wf_state, wf, no_alerts. cbn.
  repeat split; try constructor; intros; contradiction.
Qed.

Lemma snapshot_keeps_state_coherent_witness :
  wf_state no_alerts
  /\ wf_state
       (state (onAlertasSnapshot (-18000000) (fun _ => InvalidDate) (fun _ _ _ => DateMs 0)
                 default_page 1000 1000 [alert_added] no_alerts)).
Proof.
  split; [ exact wf_no_alerts |].
  exact (proj1 (snapshot_keeps_state_coherent (-18000000) (fun _ => InvalidDate)
                  (fun _ _ _ => DateMs 0) default_page 1000 1000 [alert_added]
                  no_alerts wf_no_alerts)).
Defined.


End AlertasSnapshotExtras.

(* ================================================================== *)
(** ** The table and the CSV file of the reports *)
(* ================================================================== *)

Module TableFacts.
Import Js Mapa Reportes.

Definition has_char (c : ascii) (s : string) : bool :=
  existsb (Ascii.eqb c) (list_ascii_of_string s).

Lemma has_char_app (c : ascii) (a b : string) :
  has_char c (a ++ b) = (has_char c a || has_char c b)%bool.
Proof.
  unfold has_char. induction a as [|x a IH]; [ reflexivity |].
  cbn [append list_ascii_of_string existsb]. rewrite IH. now rewrite orb_assoc.
Qed.

Definition plain (c : ascii) : Prop := c <> "<"%char /\ c <> ">"%char /\ c <> "&"%char.

Lemma esc_char_cases (c : ascii) :
  (c = "<"%char /\ esc_char c = "&lt;")
  \/ (c = ">"%char /\ esc_char c = "&gt;")
  \/ (c = "&"%char /\ esc_char c = "&amp;")
  \/ (plain c /\ esc_char c = String c EmptyString).
Proof.
  unfold esc_char, plain.
  destruct (Ascii.eqb_spec c "<"); [ now left |].
  destruct (Ascii.eqb_spec c ">"); [ right; now left |].
  destruct (Ascii.eqb_spec c "&"); [ right; right; now left |].
  right. right. right. auto.
Qed.

Lemma esc_string_no_angle (s : string) :
  has_char "<" (esc_string s) = false /\ has_char ">" (esc_string s) = false.
Proof.
  induction s as [|c s [IH1 IH2]]; [ split; reflexivity |].
  cbn [esc_string]. rewrite !has_char_app, IH1, IH2, !orb_false_r.
  destruct (esc_char_cases c) as [[-> ->] | [[-> ->] | [[-> ->] | [(H1 & H2 & _) ->]]]];
    try (split; reflexivity).
  unfold has_char. cbn [list_ascii_of_string existsb]. rewrite !orb_false_r.
  split; apply Ascii.eqb_neq; congruence.
Qed.

Lemma esc_string_inj (a b : string) : esc_string a = esc_string b -> a = b.
Proof.
  revert b. induction a as [|c a IH]; intros [|d b] H.
  - reflexivity.
  - cbn [esc_string] in H.
    destruct (esc_char_cases d) as [[_ E] | [[_ E] | [[_ E] | [_ E]]]];
      rewrite E in H; discriminate.
  - cbn [esc_string] in H.
    destruct (esc_char_cases c) as [[_ E] | [[_ E] | [[_ E] | [_ E]]]];
      rewrite E in H; discriminate.
  - cbn [esc_string] in H.
    destruct (esc_char_cases c) as [[-> E] | [[-> E] | [[-> E] | [(P1 & P2 & P3) E]]]];
      destruct (esc_char_cases d) as [[-> E'] | [[-> E'] | [[-> E'] | [(Q1 & Q2 & Q3) E']]]];
      rewrite E in H; rewrite ?E' in H; cbn [append] in H;
      try discriminate;
      try (injection H as H; f_equal; now apply IH);
      try (injection H as H1 H; congruence).
    injection H as -> H. f_equal. now apply IH.
Qed.

Lemma esc_string_plain (s : string) :
  Forall plain (list_ascii_of_string s) -> esc_string s = s.
Proof.
  induction s as [|c s IH]; [ reflexivity |].
  cbn [list_ascii_of_string esc_string]. intro H. inversion H as [|? ? Hc Hs]; subst.
  rewrite (IH Hs).
  destruct (esc_char_cases c) as [[-> _] | [[-> _] | [[-> _] | [_ ->]]]];
    try (destruct Hc as (H1 & H2 & H3); congruence).
  reflexivity.
Qed.

(** What [esc] returns holds no angle bracket, whatever the value: the text
    of a cell of the report table, or of a field of a popup, opens or closes
    no tag. Nothing is lost: two strings with the same escaped text are the
    same string, and a string without [<], [>] and [&] is returned as it
    is. *)
Theorem esc_opens_no_tag (Number_text : num -> string) (v : value) :
  let esc := esc Number_text in
  has_char "<" (esc v) = false
  /\ has_char ">" (esc v) = false
  /\ (forall head rows row cell,
        In row (table_cells Number_text head rows) -> In cell row ->
        exists text, cell = ("<td>" ++ text ++ "</td>")%string
                     /\ has_char "<" text = false /\ has_char ">" text = false)
  /\ (forall a b, esc (VStr a) = esc (VStr b) -> a = b)
  /\ (forall s, Forall plain (list_ascii_of_string s) -> esc (VStr s) = s).
Proof.
  intro esc0. subst esc0. unfold esc.
  destruct (esc_string_no_angle (String_of Number_text (coalesce v (VStr "")))) as [H1 H2].
  repeat split; auto.
  - intros head rows row cell Hr Hc. unfold table_cells in Hr.
    apply in_map_iff in Hr. destruct Hr as (r & <- & _).
    apply in_map_iff in Hc. destruct Hc as (h & <- & _).
    eexists. split; [ reflexivity |]. apply esc_string_no_angle.
  - intros a b. cbn [coalesce nullish String_of ToString]. apply esc_string_inj.
  - intros s. cbn [coalesce nullish String_of ToString]. apply esc_string_plain.
Qed.


(** *** The CSV text *)

(** What may follow a field in a line: nothing, or a character that is not
    a double quote (the separator, the line break). *)
Definition follows (x : string) : Prop :=
  match x with
  | EmptyString => True
  | String c _ => c <> dquote
  end.

Lemma append_assoc (a b c : string) : ((a ++ b) ++ c = a ++ (b ++ c))%string.
Proof. induction a as [|x a IH]; [ reflexivity |]. cbn [append]. now rewrite IH. Qed.

Lemma append_cancel_l (a x y : string) : (a ++ x = a ++ y)%string -> x = y.
Proof.
  induction a as [|c a IH]; [ auto |]. cbn [append]. intros [= H]. now apply IH.
Qed.

Lemma double_quotes_split (a b x y : string) :
  follows x -> follows y ->
  (double_quotes a ++ String dquote x = double_quotes b ++ String dquote y)%string ->
  a = b /\ x = y.
Proof.
  intros Hx Hy. revert b. induction a as [|c a IH]; intros [|d b] H.
  - cbn [double_quotes append] in H. injection H as H. now split.
  - cbn [double_quotes append] in H. destruct (Ascii.eqb_spec d dquote) as [-> | Hd].
    + cbn [append] in H. injection H as H. subst x. cbn in Hx. congruence.
    + cbn [append] in H. injection H as H _. congruence.
  - cbn [double_quotes append] in H. destruct (Ascii.eqb_spec c dquote) as [-> | Hc].
    + cbn [append] in H. injection H as H. subst y. cbn in Hy. congruence.
    + cbn [append] in H. injection H as H _. congruence.
  - cbn [double_quotes] in H.
    destruct (Ascii.eqb_spec c dquote) as [-> | Hc];
      destruct (Ascii.eqb_spec d dquote) as [-> | Hd]; cbn [append] in H.
    + injection H as H. destruct (IH b H) as [-> ->]. now split.
    + injection H as H _. congruence.
    + injection H as H _. congruence.
    + injection H as -> H. destruct (IH b H) as [-> ->]. now split.
Qed.

Section Text.
Variable Number_text : num -> string.
Let escCSV := escCSV Number_text.

Definition text_of (v : value) : string := String_of Number_text (coalesce v (VStr "")).

Lemma escCSV_split (u v : value) (x y : string) :
  follows x -> follows y ->
  (escCSV u ++ x = escCSV v ++ y)%string -> text_of u = text_of v /\ x = y.
Proof.
  intros Hx Hy H. unfold escCSV, Reportes.escCSV in H.
  fold (text_of u) in H. fold (text_of v) in H.
  cbn [append] in H. injection H as H.
  rewrite !append_assoc in H. cbn [append] in H.
  now apply double_quotes_split.
Qed.

Lemma escCSV_starts (v : value) (x : string) :
  exists r, (escCSV v ++ x)%string = String dquote r.
Proof. unfold escCSV, Reportes.escCSV. cbn [append]. eauto. Qed.

(** A line of fields, followed by [x]. *)
Lemma line_split (us vs : list value) (x y : string) :
  List.length us = List.length vs ->
  (x = EmptyString \/ exists r, x = (newline ++ r)%string) ->
  (y = EmptyString \/ exists r, y = (newline ++ r)%string) ->
  (join ";" (map escCSV us) ++ x = join ";" (map escCSV vs) ++ y)%string ->
  map text_of us = map text_of vs /\ x = y.
Proof.
  intros Hl Hx Hy.
  assert (Fx : follows x)
    by (destruct Hx as [-> | (r & ->)]; cbn; [ exact I | discriminate ]).
  assert (Fy : follows y)
    by (destruct Hy as [-> | (r & ->)]; cbn; [ exact I | discriminate ]).
  revert vs Hl. induction us as [|u us IH]; intros [|v vs] Hl H; try discriminate.
  - cbn [map join append] in H. now split.
  - cbn [List.length] in Hl. injection Hl as Hl.
    destruct us as [|u2 us]; destruct vs as [|v2 vs]; try discriminate.
    + cbn [map join] in H. destruct (escCSV_split u v x y Fx Fy H) as [E ->].
      cbn [map]. now rewrite E.
    + cbn [map join] in H. cbn [map join] in IH.
      rewrite !append_assoc in H.
      apply escCSV_split in H; try (cbn; discriminate).
      destruct H as [E H]. cbn [append] in H. injection H as H.
      destruct (IH (v2 :: vs) Hl) as [E' ->].
      * exact H.
      * split; [| reflexivity ]. cbn [map] in *. now rewrite E, E'.
Qed.


Definition line (l : list value) : string := join ";" (map escCSV l).

Lemma append_empty_r (a : string) : (a ++ EmptyString)%string = a.
Proof. induction a as [|c a IH]; [ reflexivity |]. cbn [append]. now rewrite IH. Qed.

Lemma line_starts (l : list value) :
  l <> [] -> exists r, line l = String dquote r.
Proof.
  destruct l as [|v [|v2 l]]; [ congruence | |]; intros _; unfold line; cbn [map join].
  - unfold escCSV, Reportes.escCSV. eauto.
  - apply escCSV_starts.
Qed.

Lemma body_split (n : nat) (L L' : list (list value)) :
  n <> 0%nat ->
  Forall (fun l => List.length l = n) L -> Forall (fun l => List.length l = n) L' ->
  join newline (map line L) = join newline (map line L') ->
  map (map text_of) L = map (map text_of) L'.
Proof.
  intros Hn HL. revert L'. induction HL as [|l L Hl HL IH]; intros L' HL' H.
  - destruct HL' as [|l' L' Hl' HL']; [ reflexivity |].
    assert (Hne : l' <> []) by (intros ->; cbn in Hl'; congruence).
    destruct (line_starts l' Hne) as (r & E).
    cbn [map join] in H. destruct (map line L'); rewrite E in H; discriminate.
  - destruct HL' as [|l' L' Hl' HL'].
    + assert (Hne : l <> []) by (intros ->; cbn in Hl; congruence).
      destruct (line_starts l Hne) as (r & E).
      cbn [map join] in H. destruct (map line L); rewrite E in H; discriminate.
    + assert (Hlen : List.length l = List.length l') by congruence.
      destruct L as [|l2 L]; destruct L' as [|l2' L'].
      * cbn [map join] in H. rewrite <- (append_empty_r (line l)) in H.
        rewrite <- (append_empty_r (line l')) in H.
        apply line_split in H; auto. cbn [map]. now rewrite (proj1 H).
      * cbn [map join] in H. rewrite <- (append_empty_r (line l)) in H.
        apply line_split in H; eauto. destruct H as [_ H]. discriminate.
      * cbn [map join] in H. rewrite <- (append_empty_r (line l')) in H.
        apply line_split in H; eauto. destruct H as [_ H]. discriminate.
      * cbn [map join] in H. apply line_split in H; eauto.
        destruct H as [E H]. apply append_cancel_l in H.
        change (map (map text_of) (l :: l2 :: L))
          with (map text_of l :: map (map text_of) (l2 :: L)).
        change (map (map text_of) (l' :: l2' :: L'))
          with (map text_of l' :: map (map text_of) (l2' :: L')).
        rewrite E. f_equal. apply (IH (l2' :: L') HL'). exact H.
Qed.

(** The cells of a row, in the order of the header. *)
Definition cells (head : list string) (r : row_obj) : list value :=
  map (fun h => coalesce (get_field h r) (VStr "")) head.

(** The text [downloadCSV] writes determines the table: two lists of rows
    that give the same file (under the same header, not empty) have the same
    number of rows and, cell by cell, the same text, also where a cell holds
    the separator, a double quote or a line break. *)
Theorem csv_determines_table (head : list string) (rows rows' : list row_obj) :
  head <> [] ->
  csv_text Number_text head rows = csv_text Number_text head rows' ->
  map (fun r => map text_of (cells head r)) rows
  = map (fun r => map text_of (cells head r)) rows'.
Proof.
  intros Hh H. unfold csv_text in H.
  apply append_cancel_l, append_cancel_l in H.
  assert (E : forall rs,
            map (fun r => join ";" (map (fun h => escCSV (coalesce (get_field h r) (VStr "")))
                                      head)) rs
            = map line (map (cells head) rs)).
  { intro rs. rewrite map_map. apply map_ext. intro r. unfold line, cells.
    now rewrite map_map. }
  rewrite !E in H.
  assert (F : forall rs, Forall (fun l => List.length l = List.length head)
                           (map (cells head) rs)).
  { intro rs. apply Forall_forall. intros l Hl. apply in_map_iff in Hl.
    destruct Hl as (r & <- & _). unfold cells. apply length_map. }
  apply (body_split (List.length head)) in H; auto.
  - rewrite !map_map in H. exact H.
  - destruct head; [ congruence | discriminate ].
Qed.

End Text.

Lemma csv_determines_table_witness :
  map (fun r => map (text_of Number_toString) (cells ["A"] r)) [[("A", VStr "x;y")]]
  = map (fun r => map (text_of Number_toString) (cells ["A"] r))
      [[("A", VStr "x;y"); ("B", VNull)]].
Proof.
  apply csv_determines_table.
  - discriminate.
  - reflexivity.
Defined.

End TableFacts.

(* ================================================================== *)
(** ** The date of a survey: [parseFechaHora] *)
(* ================================================================== *)

Module SurveyDate.
Import Js Mapa Shifts Reportes.

(** A time of the 12-hour clock as text: hour, minute with two digits, a
    space and the marker. *)
Definition two (n : Z) : string :=
  if n <? 10 then ("0" ++ Z_toString n)%string else Z_toString n.

Definition clock (h mi : Z) (mk : string) : string :=
  (Z_toString h ++ ":" ++ two mi ++ " " ++ mk)%string.

Definition markers_am : list string :=
  ["AM"; "am"; "A.M"; "a.m"; "AM."; "am."; "A.M."; "a.m."].
Definition markers_pm : list string := ["PM"; "pm"; "P.M"; "p.m"; "PM."; "pm."].
Definition markers_pm_dotted : list string := ["P.M."; "p.m."].

Definition hm_eqb (a b : option (Z * Z)) : bool :=
  match a, b with
  | Some (x, y), Some (x', y') => ((x =? x') && (y =? y'))%bool
  | None, None => true
  | _, _ => false
  end.

Lemma hm_eqb_eq (a b : option (Z * Z)) : hm_eqb a b = true -> a = b.
Proof.
  destruct a as [[x y]|], b as [[x' y']|]; cbn; try discriminate; try reflexivity.
  rewrite andb_true_iff, !Z.eqb_eq. now intros [-> ->].
Qed.

Definition reads (h mi : Z) : bool :=
  (forallb (fun mk => hm_eqb (hora_hm (VStr (clock h mi mk))) (Some (h mod 12, mi))) markers_am
   && forallb (fun mk => hm_eqb (hora_hm (VStr (clock h mi mk))) (Some (h mod 12 + 12, mi)))
        markers_pm
   && forallb (fun mk => hm_eqb (hora_hm (VStr (clock h mi mk))) (Some (h mod 12, mi)))
        markers_pm_dotted
   && hm_eqb (hora_hm (VStr (clock h mi "p. m."))) None)%bool.

Definition hours : list Z := map Z.of_nat (seq 1 12).
Definition minutes : list Z := map Z.of_nat (seq 0 60).

Lemma reads_all : forallb (fun h => forallb (reads h) minutes) hours = true.
Proof. vm_compute. reflexivity. Qed.

Lemma in_range (lo len : nat) (z : Z) :
  Z.of_nat lo <= z < Z.of_nat lo + Z.of_nat len -> In z (map Z.of_nat (seq lo len)).
Proof.
  intro H. apply in_map_iff. exists (Z.to_nat z). split; [ lia |].
  apply in_seq. lia.
Qed.

Lemma reads_at (h mi : Z) : 1 <= h <= 12 -> 0 <= mi <= 59 -> reads h mi = true.
Proof.
  intros Hh Hm. pose proof reads_all as H.
  rewrite forallb_forall in H.
  assert (Hin : In h hours) by (apply in_range; cbn; lia).
  specialize (H h Hin). rewrite forallb_forall in H. apply H.
  apply in_range. cbn. lia.
Qed.

(** The time of day [parseFechaHora] reads from a 12-hour text [h:mm xM]:
    with AM the hour is [h mod 12] (12 AM is 0), with PM it is
    [h mod 12 + 12] (12 PM is 12); but the marker with its two dots, "P.M.",
    accepted by the pattern, is read as AM, since only its first dot is
    removed before the comparison with "PM"; and a marker with a space inside,
    "p. m.", is not matched: the date stays at the start of the day. *)
Theorem parseFechaHora_12h (tz : Z) (Date_local : Z -> Z -> Z -> Date)
    (fecha : value) (h mi : Z) (mk : string) :
  1 <= h <= 12 -> 0 <= mi <= 59 ->
  let base := fecha_base Date_local fecha in
  let parsed s := parseFechaHora tz Date_local fecha (VStr s) in
  (In mk markers_am -> parsed (clock h mi mk) = setHours tz base (h mod 12) mi 0 0)
  /\ (In mk markers_pm -> parsed (clock h mi mk) = setHours tz base (h mod 12 + 12) mi 0 0)
  /\ (In mk markers_pm_dotted ->
      parsed (clock h mi mk) = setHours tz base (h mod 12) mi 0 0)
  /\ parsed (clock h mi "p. m.") = base.
Proof.
  intros Hh Hm base parsed. subst parsed. unfold parseFechaHora. fold base.
  pose proof (reads_at h mi Hh Hm) as H. unfold reads in H.
  rewrite !andb_true_iff, !forallb_forall in H.
  destruct H as [[[Ha Hp] Hd] Hn].
  repeat split.
  - intro Hin. now rewrite (hm_eqb_eq _ _ (Ha mk Hin)).
  - intro Hin. now rewrite (hm_eqb_eq _ _ (Hp mk Hin)).
  - intro Hin. now rewrite (hm_eqb_eq _ _ (Hd mk Hin)).
  - now rewrite (hm_eqb_eq _ _ Hn).
Qed.

Lemma parseFechaHora_12h_witness :
  parseFechaHora (-18000000) (fun _ _ _ => DateMs 0) (VStr "11/09/2025") (VStr (clock 3 5 "P.M."))
  = setHours (-18000000) (fecha_base (fun _ _ _ => DateMs 0) (VStr "11/09/2025")) (3 mod 12) 5 0 0.
Proof.
  apply (proj1 (proj2 (proj2 (parseFechaHora_12h (-18000000) (fun _ _ _ => DateMs 0)
                                (VStr "11/09/2025") 3 5 "P.M."
                                (conj (Zle_bool_imp_le 1 3 eq_refl) (Zle_bool_imp_le 3 12 eq_refl))
                                (conj (Zle_bool_imp_le 0 5 eq_refl) (Zle_bool_imp_le 5 59 eq_refl)))))).
  left. reflexivity.
Defined.

End SurveyDate.

(* ================================================================== *)
(** ** The list of geofences: [rebuildLegend] *)
(* ================================================================== *)

Module LegendFacts.
Import Js Mapa Legend.

Section SortedBy.
Context {A : Type}.
Variable comparefn : A -> A -> num.
Variable R : A -> A -> Prop.
Hypothesis after : forall x y, sorts_after comparefn x y = true -> R y x.
Hypothesis not_after : forall x y, sorts_after comparefn x y = false -> R x y.
Hypothesis trans : forall x y z, R x y -> R y z -> R x z.

Lemma sort_insert_sorted_by (x : A) (l : list A) :
  StronglySorted R l -> StronglySorted R (sort_insert comparefn x l).
Proof.
  intro Hs. induction Hs as [|y l Hs IH Hy]; cbn [sort_insert].
  - constructor; constructor.
  - destruct (sorts_after comparefn x y) eqn:E.
    + constructor; [ exact IH |].
      apply Forall_forall. intros z Hz.
      apply (Permutation_in _ (SortFacts.sort_insert_perm comparefn x l)) in Hz.
      destruct Hz as [<- | Hz]; [ now apply after |].
      rewrite Forall_forall in Hy. now apply Hy.
    + constructor; [ now constructor |].
      constructor; [ now apply not_after |].
      apply Forall_forall. intros z Hz. rewrite Forall_forall in Hy.
      apply (trans x y z); [ now apply not_after | now apply Hy ].
Qed.

Lemma Array_sort_sorted_by (l : list A) : StronglySorted R (Array_sort comparefn l).
Proof.
  induction l as [|x l IH]; cbn [Array_sort]; [ constructor |].
  now apply sort_insert_sorted_by.
Qed.
End SortedBy.

Lemma num_eq_le (a b : num) : num_eq a b = true -> num_le a b = true /\ num_le b a = true.
Proof.
  destruct a as [| |x|], b as [| |y|]; cbn; try discriminate; auto.
  intro H. apply Qeq_bool_iff in H. split; apply Qle_bool_iff; lra.
Qed.

Definition by_number (a b : geofence) : Prop :=
  num_le (sectorNumber (nombre a)) (sectorNumber (nombre b)) = true.

(** The list of the side panel has one item per known geofence, in the
    order of the numbers read from the names, whatever the collation of the
    host does among equal numbers: a geofence with a number stands before
    every geofence without one. *)
Theorem legend_by_number (localeCompare : string -> string -> num) (st : store) :
  let list := Array_sort (legend_compare localeCompare) (JsMap.values (geofenceById st)) in
  Permutation list (JsMap.values (geofenceById st))
  /\ StronglySorted by_number list
  /\ List.length (rebuildLegend localeCompare st) = JsMap.size (geofenceById st)
  /\ forall l1 a l2 b l3, list = l1 ++ a :: l2 ++ b :: l3 ->
       sectorNumber (nombre a) = PInf -> sectorNumber (nombre b) = PInf.
Proof.
  intro list.
  assert (Hperm : Permutation list (JsMap.values (geofenceById st)))
    by apply SortFacts.Array_sort_perm.
  assert (Hsorted : StronglySorted by_number list).
  { apply Array_sort_sorted_by.
    - intros x y H. unfold sorts_after, legend_compare in H. unfold by_number.
      pose proof (OrderFacts.sectorNumber_key_ok (nombre x)) as Kx.
      pose proof (OrderFacts.sectorNumber_key_ok (nombre y)) as Ky.
      unfold num_neq in H.
      destruct (num_eq (sectorNumber (nombre x)) (sectorNumber (nombre y))) eqn:E;
        cbn [negb] in H.
      + now apply num_eq_le in E.
      + rewrite (SortFacts.after_iff _ _ Kx Ky) in H. apply negb_true_iff in H.
        now apply SortFacts.num_le_total.
    - intros x y H. unfold sorts_after, legend_compare in H. unfold by_number.
      pose proof (OrderFacts.sectorNumber_key_ok (nombre x)) as Kx.
      pose proof (OrderFacts.sectorNumber_key_ok (nombre y)) as Ky.
      unfold num_neq in H.
      destruct (num_eq (sectorNumber (nombre x)) (sectorNumber (nombre y))) eqn:E;
        cbn [negb] in H.
      + now apply num_eq_le in E.
      + rewrite (SortFacts.after_iff _ _ Kx Ky) in H. now apply negb_false_iff in H.
    - intros x y z. unfold by_number. apply SortFacts.num_le_trans. }
  split; [ exact Hperm |]. split; [ exact Hsorted |]. split.
  - unfold rebuildLegend. rewrite length_map. fold list.
    rewrite (Permutation_length Hperm). unfold JsMap.values, JsMap.size.
    apply length_map.
  - intros l1 a l2 b l3 E Ha. rewrite E in Hsorted.
    assert (H : by_number a b).
    { clear - Hsorted. induction l1 as [|x l1 IH]; cbn [app] in Hsorted.
      - inversion Hsorted as [|? ? _ Hf]; subst. rewrite Forall_forall in Hf.
        apply Hf. apply in_or_app. right. now left.
      - inversion Hsorted; subst. now apply IH. }
    unfold by_number in H. rewrite Ha in H.
    pose proof (OrderFacts.sectorNumber_key_ok (nombre b)) as Kb.
    destruct (sectorNumber (nombre b)); cbn in *; try tauto; discriminate.
Qed.

End LegendFacts.

(* ================================================================== *)
(** ** The identity key of a record: [keyFor] *)
(* ================================================================== *)

Module KeyFacts.
Import Js Mapa Personal.

Fixpoint skipl (l : list ascii) : list ascii :=
  match l with
  | c :: r => if is_ws c then skipl r else l
  | [] => []
  end.

Lemma skip_ws_list (s : string) :
  list_ascii_of_string (skip_ws s) = skipl (list_ascii_of_string s).
Proof.
  induction s as [|c s IH]; [ reflexivity |].
  cbn [skip_ws list_ascii_of_string skipl]. destruct (is_ws c); [ exact IH | reflexivity ].
Qed.

Definition trimmed (l : list ascii) : list ascii := rev (skipl (rev (skipl l))).

Lemma trim_list (s : string) :
  list_ascii_of_string (trim s) = trimmed (list_ascii_of_string s).
Proof.
  unfold trim, string_rev, trimmed.
  rewrite !list_ascii_of_string_of_list_ascii, !skip_ws_list.
  now rewrite list_ascii_of_string_of_list_ascii.
Qed.

Definition starts_ok (l : list ascii) : Prop :=
  match l with
  | c :: _ => is_ws c = false
  | [] => True
  end.

Lemma skipl_starts_ok (l : list ascii) : starts_ok (skipl l).
Proof.
  induction l as [|c l IH]; cbn [skipl]; [ exact I |].
  destruct (is_ws c) eqn:E; [ exact IH | exact E ].
Qed.

Lemma skipl_fixed (l : list ascii) : starts_ok l -> skipl l = l.
Proof. destruct l as [|c l]; cbn; [ reflexivity |]. now intros ->. Qed.

Lemma skipl_snoc (l : list ascii) (c : ascii) :
  is_ws c = false -> skipl (l ++ [c]) = skipl l ++ [c].
Proof.
  intro Hc. induction l as [|x l IH]; cbn [app skipl].
  - now rewrite Hc.
  - destruct (is_ws x); [ exact IH | reflexivity ].
Qed.

Lemma trimmed_starts_ok (l : list ascii) : starts_ok l -> starts_ok (rev (skipl (rev l))).
Proof.
  destruct l as [|c l]; [ intros _; exact I |]. cbn [starts_ok]. intro Hc.
  cbn [rev]. rewrite (skipl_snoc _ _ Hc), rev_app_distr. cbn [rev app]. exact Hc.
Qed.

Lemma trimmed_idem (l : list ascii) : trimmed (trimmed l) = trimmed l.
Proof.
  unfold trimmed. set (a := skipl l).
  assert (Ha : starts_ok a) by apply skipl_starts_ok.
  rewrite (skipl_fixed (rev (skipl (rev a)))) by now apply trimmed_starts_ok.
  rewrite rev_involutive.
  rewrite (skipl_fixed (skipl (rev a))) by apply skipl_starts_ok.
  reflexivity.
Qed.

Lemma trim_idem (s : string) : trim (trim s) = trim s.
Proof.
  rewrite <- (string_of_list_ascii_of_string (trim (trim s))).
  rewrite <- (string_of_list_ascii_of_string (trim s)) at 2.
  f_equal. rewrite !trim_list. apply trimmed_idem.
Qed.

(** The record with another [dni]. *)
Definition with_dni (d : asistencia) (v : value) : asistencia :=
  mkAsistencia v (a_nombre d) (comentario d)
    (a_lat d) (a_latitud d) (a_latitude d)
    (a_lng d) (a_longitud d) (a_longitude d) (a_long d).

Lemma trimmed_if_truthy_str (s : string) : trimmed_if_truthy (VStr s) = trim s.
Proof.
  unfold trimmed_if_truthy. cbn [truthy ToString].
  destruct (String.eqb_spec s ""); [ now subst | reflexivity ].
Qed.

(** The identity key is never empty and carries no blank at either end;
    blanks around the [dni] do not matter: a record keeps its key when its
    [dni] text is trimmed, so the records of one person written with and
    without blanks around the number share their marker. *)
Theorem keyFor_trims (d : asistencia) (s : string) :
  keyFor d <> ""
  /\ trim (keyFor d) = keyFor d
  /\ keyFor (with_dni d (VStr s)) = keyFor (with_dni d (VStr (trim s))).
Proof.
  split; [| split ].
  - unfold keyFor.
    destruct (String.eqb_spec (trimmed_if_truthy (dni d)) ""); cbn [negb]; [| assumption ].
    destruct (String.eqb_spec (trimmed_if_truthy (a_nombre d)) ""); cbn [negb];
      [ discriminate | assumption ].
  - assert (H : forall x, trim (trimmed_if_truthy x) = trimmed_if_truthy x).
    { intro x. unfold trimmed_if_truthy. destruct (truthy x); [ apply trim_idem | reflexivity ]. }
    unfold keyFor.
    destruct (negb (String.eqb (trimmed_if_truthy (dni d)) "")); [ apply H |].
    destruct (negb (String.eqb (trimmed_if_truthy (a_nombre d)) "")); [ apply H | reflexivity ].
  - unfold keyFor, with_dni. cbn [dni a_nombre].
    now rewrite !trimmed_if_truthy_str, trim_idem.
Qed.

End KeyFacts.
